(** * Galois: Louvain clustering and the chunked LIFO worklist

    A shallow embedding of two parts of the Galois tree:

    - the Louvain community-detection driver ([vertexFollowing],
      [sumVertexDegreeWeight], [calConstantForSecondTerm], [maxModularity],
      [algoLouvainWithLocking], [runMultiPhaseLouvainAlgorithm]);
    - the [Alt] worklists ([Chunk], [LIFO_SB], [InitialQueue],
      [ChunkedAdaptor]).

    Conventions.  A [uint64_t] is a [Z] in [0, 2^64) and every arithmetic
    operation of the source on such values is written with its wrap-around
    ([wrap64]).  A [double] is an IEEE-754 binary64 value, taken from the
    Standard Library's executable specification [SpecFloat] (precision 53,
    [emax] 1024, round to nearest even).  Arrays are lists; a read or write
    outside an array is undefined behaviour in the source and is [None] in
    the embedding, as is dereferencing [begin()] of an empty [std::map].
    Of the debug printing ([gPrint]) two things are kept: the read of
    [c_info[5]] that is the argument of one call in the engine, and the line
    that the driver prints at the start of a phase. *)

From Stdlib Require Import ZArith Bool Lia SpecFloat.
From stdpp Require Import base option list sorting.

Local Open Scope Z_scope.

(** ** Machine integers *)

Definition two64 : Z := 2 ^ 64.

Definition wrap64 (z : Z) : Z := z mod two64.

(** The bit pattern of [(uint64_t)-1]. *)
Definition minus_one : Z := two64 - 1.

(** [INF_VAL = numeric_limits<uint64_t>::max() / 2 - 1]. *)
Definition INF_VAL : Z := (two64 - 1) / 2 - 1.

(** ** Arrays

    [at_ a i] is the read [a[i]] and [set_ a i x] the write [a[i] = x];
    both are undefined outside the array. *)

Definition in_range {A} (a : list A) (i : Z) : bool :=
  (0 <=? i) && (i <? Z.of_nat (length a)).

Definition at_ {A} (a : list A) (i : Z) : option A :=
  if in_range a i then a !! Z.to_nat i else None.

Definition set_ {A} (a : list A) (i : Z) (x : A) : option (list A) :=
  if in_range a i then Some (<[Z.to_nat i := x]> a) else None.

(** ** Doubles *)

Definition double : Type := spec_float.

Definition prec64 : Z := 53.
Definition emax64 : Z := 1024.

Definition dadd : double -> double -> double := SFadd prec64 emax64.
Definition dsub : double -> double -> double := SFsub prec64 emax64.
Definition dmul : double -> double -> double := SFmul prec64 emax64.
Definition ddiv : double -> double -> double := SFdiv prec64 emax64.

(** [a < b], [a > b], [a == b] and [a != b] on doubles. *)
Definition dlt (a b : double) : bool := SFltb a b.
Definition dgt (a b : double) : bool := SFltb b a.
Definition deq (a b : double) : bool := SFeqb a b.
Definition dne (a b : double) : bool := negb (SFeqb a b).
Definition dle (a b : double) : bool := SFleb a b.

(** Conversion of an integer to [double] (round to nearest even). *)
Definition of_int (z : Z) : double := binary_normalize prec64 emax64 z 0 false.

Definition dzero : double := S754_zero false.

Definition is_nan (a : double) : bool :=
  match a with S754_nan => true | _ => false end.

(** Undefined behaviour is threaded through stdpp's option monad
    ([x ← e; k]). *)


(** ** The graph

    Modelled from the spec: the graph type [galois::graphs::LC_CSR_Graph] is
    a library header outside this tree.  The spec (4.5, 6) describes it as an
    immutable CSR adjacency with a mutable per-vertex payload and a 32-bit
    weight per edge.  In CSR form [edgeIndData n] is the index one past the
    last out-edge of vertex [n], so the out-edges of [n] are the indices from
    [edge_begin n] (the end of vertex [n - 1], or 0) up to [edge_end n]. *)

Record Graph := {
  edgeIndData : list Z;
  edgeDst : list Z;
  edgeData : list Z
}.

Definition graph_size (g : Graph) : Z := Z.of_nat (length (edgeIndData g)).

Definition edge_begin (g : Graph) (n : Z) : option Z :=
  if n =? 0 then Some 0 else at_ (edgeIndData g) (n - 1).

Definition edge_end (g : Graph) (n : Z) : option Z := at_ (edgeIndData g) n.

Definition getEdgeDst (g : Graph) (ii : Z) : option Z := at_ (edgeDst g) ii.

Definition getEdgeData (g : Graph) (ii : Z) : option Z := at_ (edgeData g) ii.

(** [std::distance(edge_begin(n), edge_end(n))], stored in a [uint64_t]. *)
Definition distance (g : Graph) (n : Z) : option Z :=
  b ← edge_begin g n; e ← edge_end g n; Some (wrap64 (e - b)).

(** The indices visited by [for (ii = edge_begin(n); ii != edge_end(n); ++ii)]. *)
Definition edges (g : Graph) (n : Z) : option (list Z) :=
  b ← edge_begin g n; e ← edge_end g n;
  if b <=? e then Some (seqZ b (e - b)) else None.

(** [galois::iterate(graph)]: the vertices, in increasing order. *)
Definition iterate (g : Graph) : list Z := seqZ 0 (graph_size g).

(** A loop over a range whose body may be undefined; it stands for a
    sequential schedule of [do_all] and [for_each] and for the edge loops. *)
Fixpoint do_all {E S : Type} (op : E -> S -> option S) (ns : list E) (s : S)
  : option S :=
  match ns with
  | [] => Some s
  | n :: ns' => s' ← op n s; do_all op ns' s'
  end.

(** ** Vertex and community records *)

Module Node.
Record t := mk {
  prev_comm_ass : Z;
  curr_comm_ass : Z;
  degree_wt : Z;
  cluster_wt_internal : Z
}.
Definition set_curr_comm_ass (d : t) (c : Z) : t :=
  mk (prev_comm_ass d) c (degree_wt d) (cluster_wt_internal d).
Definition set_prev_comm_ass (d : t) (c : Z) : t :=
  mk c (curr_comm_ass d) (degree_wt d) (cluster_wt_internal d).
Definition set_degree_wt (d : t) (w : Z) : t :=
  mk (prev_comm_ass d) (curr_comm_ass d) w (cluster_wt_internal d).
End Node.

Module Comm.
Record t := mk { size : Z; degree_wt : Z }.
End Comm.

Abbreviation largeArray := (list Z).
Abbreviation CommArray := (list Comm.t).
Abbreviation NodeData := (list Node.t).

(** ** vertexFollowing *)

(** First [do_all]: [graph.getData(n).curr_comm_ass = n]. *)
Definition init_curr (n : Z) (nodes : NodeData) : option NodeData :=
  d ← at_ nodes n; set_ nodes n (Node.set_curr_comm_ass d n).

(** Body of the second [do_all], on the pair of [clusters] and the
    accumulator [isolatedNodes]. *)
Definition vf_op (g : Graph) (nodes : NodeData) (n : Z)
    (st : largeArray * Z) : option (largeArray * Z) :=
  let '(clusters, isolatedNodes) := st in
  degree ← distance g n;
  if degree =? 0 then
    clusters' ← set_ clusters n minus_one;
    Some (clusters', wrap64 (isolatedNodes + 1))
  else if degree =? 1 then
    e ← edge_end g n;
    dst ← getEdgeDst g e;
    dst_degree ← distance g dst;
    if (1 <? dst_degree) || (dst <? n) then
      d ← at_ nodes dst;
      clusters' ← set_ clusters n (Node.curr_comm_ass d);
      Some (clusters', wrap64 (isolatedNodes + 1))
    else Some st
  else Some st.

(** Returns the node data, the cluster array and [isolatedNodes.reduce()]. *)
Definition vertexFollowing (g : Graph) (nodes : NodeData) (clusters : largeArray)
  : option (NodeData * largeArray * Z) :=
  nodes1 ← do_all init_curr (iterate g) nodes;
  '(clusters', count) ← do_all (vf_op g nodes1) (iterate g) (clusters, 0);
  Some (nodes1, clusters', count).

(** ** sumVertexDegreeWeight and calConstantForSecondTerm *)

Definition add_edge_weight (g : Graph) (ii : Z) (total_weight : Z) : option Z :=
  w ← getEdgeData g ii; Some (wrap64 (total_weight + w)).

Definition sum_op (g : Graph) (n : Z) (st : NodeData * CommArray)
  : option (NodeData * CommArray) :=
  let '(nodes, c_info) := st in
  n_data ← at_ nodes n;
  es ← edges g n;
  total_weight ← do_all (add_edge_weight g) es 0;
  nodes' ← set_ nodes n (Node.set_degree_wt n_data total_weight);
  c_info' ← set_ c_info n (Comm.mk 1 total_weight);
  Some (nodes', c_info').

Definition sumVertexDegreeWeight (g : Graph) (nodes : NodeData) (c_info : CommArray)
  : option (NodeData * CommArray) :=
  do_all (sum_op g) (iterate g) (nodes, c_info).

Definition weight_op (nodes : NodeData) (n : Z) (local_weight : Z) : option Z :=
  d ← at_ nodes n; Some (wrap64 (local_weight + Node.degree_wt d)).

Definition calConstantForSecondTerm (g : Graph) (nodes : NodeData) : option double :=
  total_edge_weight_twice ← do_all (weight_op nodes) (iterate g) 0;
  Some (ddiv (of_int 1) (of_int total_edge_weight_twice)).

(** ** maxModularity *)

(** [std::map<uint64_t, uint64_t>]: the entries in increasing key order, which
    is the order in which an iterator visits them. *)
Abbreviation std_map := (list (Z * Z)).

Fixpoint map_find (m : std_map) (k : Z) : option Z :=
  match m with
  | [] => None
  | (k', v) :: m' => if k =? k' then Some v else map_find m' k
  end.

(** [m[k] = v]. *)
Fixpoint map_insert (m : std_map) (k v : Z) : std_map :=
  match m with
  | [] => [(k, v)]
  | (k', v') :: m' =>
      if k <? k' then (k, v) :: m
      else if k =? k' then (k, v) :: m'
      else (k', v') :: map_insert m' k v
  end.

(** [2 * constant * (eiy - eix) + 2 * degree_wt * (ax - ay) * constant * constant]
    with the association and the conversions of the C++ expression:
    [2 * degree_wt] is a 64-bit product, converted afterwards. *)
Definition gain (constant eix ax : double) (degree_wt : Z) (eiy ay : double)
  : double :=
  dadd (dmul (dmul (of_int 2) constant) (dsub eiy eix))
       (dmul (dmul (dmul (of_int (wrap64 (2 * degree_wt))) (dsub ax ay)) constant)
             constant).

(** The gain of moving to the community of one map entry. *)
Definition entry_gain (counter : list Z) (c_info : CommArray) (degree_wt : Z)
    (constant eix ax : double) (entry : Z * Z) : option double :=
  cy ← at_ c_info entry.1;
  cnt ← at_ counter entry.2;
  Some (gain constant eix ax degree_wt (of_int cnt) (of_int (Comm.degree_wt cy))).

(** One turn of the [do ... while] loop on the pair [(max_index, max_gain)]. *)
Definition mm_step (counter : list Z) (c_info : CommArray) (degree_wt sc : Z)
    (constant eix ax : double) (stored_already : Z * Z) (st : Z * double)
  : option (Z * double) :=
  let '(max_index, max_gain) := st in
  if negb (sc =? stored_already.1) then
    cur_gain ← entry_gain counter c_info degree_wt constant eix ax stored_already;
    if dgt cur_gain max_gain
       || (deq cur_gain max_gain && dne cur_gain (of_int 0)
           && (stored_already.1 <? max_index))
    then Some (stored_already.1, cur_gain)
    else Some st
  else Some st.

(** The loop, from [(sc, 0)]; its result before the final singleton test. *)
Definition mm_scan (cluster_local_map : std_map) (counter : list Z)
    (self_loop_wt : Z) (c_info : CommArray) (degree_wt sc : Z) (constant : double)
  : option (Z * double) :=
  c0 ← at_ counter 0;
  csc ← at_ c_info sc;
  let eix := of_int (wrap64 (c0 - self_loop_wt)) in
  let ax := of_int (wrap64 (Comm.degree_wt csc - degree_wt)) in
  match cluster_local_map with
  | [] => None
  | _ => do_all (mm_step counter c_info degree_wt sc constant eix ax)
                cluster_local_map (sc, of_int 0)
  end.

Definition maxModularity (cluster_local_map : std_map) (counter : list Z)
    (self_loop_wt : Z) (c_info : CommArray) (degree_wt sc : Z) (constant : double)
  : option Z :=
  '(max_index, _) ← mm_scan cluster_local_map counter self_loop_wt c_info
                       degree_wt sc constant;
  cm ← at_ c_info max_index;
  csc ← at_ c_info sc;
  if (Comm.size cm =? 1) && (Comm.size csc =? 1) && (sc <? max_index)
  then Some sc else Some max_index.

(** ** The Louvain iteration *)

(** The four atomic updates of a migration from [x] to [t], in source order. *)
Definition atomicAdd_degree_wt (c_info : CommArray) (i v : Z) : option CommArray :=
  c ← at_ c_info i;
  set_ c_info i (Comm.mk (Comm.size c) (wrap64 (Comm.degree_wt c + v))).

Definition atomicAdd_size (c_info : CommArray) (i v : Z) : option CommArray :=
  c ← at_ c_info i;
  set_ c_info i (Comm.mk (wrap64 (Comm.size c + v)) (Comm.degree_wt c)).

Definition atomicSubtract_degree_wt (c_info : CommArray) (i v : Z) : option CommArray :=
  c ← at_ c_info i;
  set_ c_info i (Comm.mk (Comm.size c) (wrap64 (Comm.degree_wt c - v))).

Definition atomicSubtract_size (c_info : CommArray) (i v : Z) : option CommArray :=
  c ← at_ c_info i;
  set_ c_info i (Comm.mk (wrap64 (Comm.size c - v)) (Comm.degree_wt c)).

Definition migrate (c_info : CommArray) (local_target curr degree_wt : Z)
  : option CommArray :=
  c1 ← atomicAdd_degree_wt c_info local_target degree_wt;
  c2 ← atomicAdd_size c1 local_target 1;
  c3 ← atomicSubtract_degree_wt c2 curr degree_wt;
  atomicSubtract_size c3 curr 1.

(** One turn of the edge loop that fills [cluster_local_map] and [counter].
    The loop before it, which only takes the neighbours' locks, reads the same
    entries and is not repeated here. *)
Definition scan_edge (g : Graph) (nodes : NodeData) (n : Z) (ii : Z)
    (st : std_map * list Z * Z * Z) : option (std_map * list Z * Z * Z) :=
  let '(cluster_local_map, counter, num_unique_clusters, self_loop_wt) := st in
  dst ← getEdgeDst g ii;
  edge_wt ← getEdgeData g ii;
  let self_loop_wt' :=
    if dst =? n then wrap64 (self_loop_wt + edge_wt) else self_loop_wt in
  d ← at_ nodes dst;
  match map_find cluster_local_map (Node.curr_comm_ass d) with
  | Some idx =>
      c ← at_ counter idx;
      counter' ← set_ counter idx (wrap64 (c + edge_wt));
      Some (cluster_local_map, counter', num_unique_clusters, self_loop_wt')
  | None =>
      Some (map_insert cluster_local_map (Node.curr_comm_ass d) num_unique_clusters,
            counter ++ [edge_wt], wrap64 (num_unique_clusters + 1), self_loop_wt')
  end.

(** The target chosen for vertex [n]. *)
Definition local_target_of (g : Graph) (constant : double) (nodes : NodeData)
    (c_info : CommArray) (n : Z) (n_data : Node.t) : option Z :=
  degree ← distance g n;
  if 0 <? degree then
    es ← edges g n;
    '(cluster_local_map, counter, _, self_loop_wt) ←
      do_all (scan_edge g nodes n) es
             (map_insert [] (Node.curr_comm_ass n_data) 0, [0], 1, 0);
    maxModularity cluster_local_map counter self_loop_wt c_info
                  (Node.degree_wt n_data) (Node.curr_comm_ass n_data) constant
  else Some minus_one.

(** The operator of the [for_each] loop. *)
Definition louvain_op (g : Graph) (constant : double) (n : Z)
    (st : NodeData * CommArray) : option (NodeData * CommArray) :=
  let '(nodes, c_info) := st in
  n_data ← at_ nodes n;
  local_target ← local_target_of g constant nodes c_info n n_data;
  c_info' ←
    (if negb (local_target =? Node.curr_comm_ass n_data)
        && negb (local_target =? minus_one)
     then migrate c_info local_target (Node.curr_comm_ass n_data)
                  (Node.degree_wt n_data)
     else Some c_info);
  nodes' ← set_ nodes n (Node.set_curr_comm_ass n_data local_target);
  Some (nodes', c_info').

(** ** Modularity and the convergence loop *)

(** A run either returns, meets undefined behaviour, or is still running when
    the fuel (a bound on the turns of [while (true)]) is used up. *)
Inductive result (A : Type) : Type :=
  | Returned (a : A)
  | Undefined
  | Timeout.
Arguments Returned {A} a.
Arguments Undefined {A}.
Arguments Timeout {A}.

Definition defined {A B : Type} (o : option A) (k : A -> result B) : result B :=
  match o with Some a => k a | None => Undefined end.

(** [curr_comm_ass = n; prev_comm_ass = n]. *)
Definition init_comm (n : Z) (nodes : NodeData) : option NodeData :=
  d ← at_ nodes n;
  set_ nodes n (Node.set_prev_comm_ass (Node.set_curr_comm_ass d n) n).

(** [cluster_wt_internal[n] += getEdgeData(ii)] when the edge stays inside the
    community of [n]. *)
Definition internal_edge (g : Graph) (nodes : NodeData) (comm : Z) (ii : Z)
    (w : Z) : option Z :=
  dst ← getEdgeDst g ii;
  d ← at_ nodes dst;
  if Node.curr_comm_ass d =? comm then
    edge_wt ← getEdgeData g ii; Some (wrap64 (w + edge_wt))
  else Some w.

Definition internal_op (g : Graph) (nodes : NodeData) (n : Z)
    (cluster_wt_internal : largeArray) : option largeArray :=
  n_data ← at_ nodes n;
  es ← edges g n;
  w0 ← at_ cluster_wt_internal n;
  w ← do_all (internal_edge g nodes (Node.curr_comm_ass n_data)) es w0;
  set_ cluster_wt_internal n w.

(** [e_xx += cluster_wt_internal[n]; a2_x += degree_wt * degree_wt], the
    product being taken on 64-bit integers. *)
Definition mod_op (c_info : CommArray) (cluster_wt_internal : largeArray)
    (n : Z) (st : double * double) : option (double * double) :=
  let '(e_xx, a2_x) := st in
  w ← at_ cluster_wt_internal n;
  c ← at_ c_info n;
  Some (dadd e_xx (of_int w),
        dadd a2_x (of_int (wrap64 (Comm.degree_wt c * Comm.degree_wt c)))).

(** [curr_mod] as computed after the [for_each] loop. *)
Definition calModularity (g : Graph) (nodes : NodeData) (c_info : CommArray)
    (constant : double) : option double :=
  cwi ← do_all (internal_op g nodes) (iterate g)
               (replicate (length (edgeIndData g)) 0);
  '(e_xx, a2_x) ← do_all (mod_op c_info cwi) (iterate g) (of_int 0, of_int 0);
  Some (dsub (dmul e_xx constant) (dmul (dmul a2_x constant) constant)).

Record LouvainRun := {
  run_mod : double;       (* the returned [prev_mod] *)
  run_num_iter : Z;       (* [num_iter] at the [break] *)
  run_nodes : NodeData;
  run_c_info : CommArray
}.

(** [while (true)].  [sched k] is the order in which the [for_each] of turn
    [k] runs its operator: a sequential schedule.  The array [c_update] is
    reset at the top of each turn and never read; it is left out, as is the
    first reset of [cluster_wt_internal], which [calModularity] repeats. *)
Fixpoint louvain_loop (fuel : nat) (sched : Z -> list Z) (g : Graph)
    (constant threshold_mod : double) (nodes : NodeData) (c_info : CommArray)
    (prev_mod : double) (num_iter : Z) : result LouvainRun :=
  match fuel with
  | O => Timeout
  | S fuel' =>
      let num_iter := (num_iter + 1) mod 2 ^ 32 in
      defined (do_all (louvain_op g constant) (sched num_iter) (nodes, c_info))
        (fun st =>
      defined (calModularity g st.1 st.2 constant) (fun curr_mod =>
        if dlt (dsub curr_mod prev_mod) threshold_mod
        then Returned (Build_LouvainRun prev_mod num_iter st.1 st.2)
        else louvain_loop fuel' sched g constant threshold_mod st.1 st.2
                          curr_mod num_iter))
  end.

Definition algoLouvainWithLocking (fuel : nat) (sched : Z -> list Z)
    (g : Graph) (nodes : NodeData) (clusters : largeArray)
    (lower threshold : double) : result LouvainRun :=
  let c_info := replicate (length (edgeIndData g)) (Comm.mk 0 0) in
  defined (do_all init_comm (iterate g) nodes) (fun nodes1 =>
  defined (sumVertexDegreeWeight g nodes1 c_info) (fun st =>
  (* gPrint("c_info[5] : ", c_info[5].degree_wt.load(), "\n") *)
  defined (at_ st.2 5) (fun _ =>
  defined (calConstantForSecondTerm g st.1) (fun constant_for_second_term =>
    louvain_loop fuel sched g constant_for_second_term threshold
                 st.1 st.2 lower 0)))).

(** ** The multi-phase driver *)

(** What a run of the driver does that can be observed: the line
    ["Starting Phase : "] it prints at the top of each turn of its
    [while (true)], and its calls of the engine, with the [lower] and
    [threshold] arguments. *)
Inductive Event : Type :=
  | StartPhase (phase : Z)
  | CallEngine (lower threshold : double).

Record DriverRun := {
  events : list Event;
  engine_result : option (result LouvainRun)
}.

Definition is_call (e : Event) : bool :=
  match e with CallEngine _ _ => true | StartPhase _ => false end.

Definition is_start (e : Event) : bool :=
  match e with StartPhase _ => true | CallEngine _ _ => false end.

Definition engine_calls (r : DriverRun) : nat := length (filter is_call (events r)).

Definition phases_started (r : DriverRun) : nat :=
  length (filter is_start (events r)).

(** How a turn of [while (true)] ends: at a [break], at the closing brace,
    or inside a call that does not return. *)
Inductive Control : Type := Break | Continue | Halt.

(** The locals [prev_mod], [curr_mod] and [phase] of the driver, what it has
    done so far, and the state [W] of whatever the engine acts on. *)
Record DriverState (W : Type) := {
  d_prev_mod : double;
  d_curr_mod : double;
  d_phase : Z;
  d_run : DriverRun;
  d_world : W
}.
Arguments d_prev_mod {W} _.
Arguments d_curr_mod {W} _.
Arguments d_phase {W} _.
Arguments d_run {W} _.
Arguments d_world {W} _.

Section Driver.
Context {W : Type}.

(** The engine as the driver sees it: a callee with effects on [W]. *)
Variable algo : Graph -> NodeData -> largeArray -> double -> double ->
                W -> result LouvainRun * W.

Definition log (e : Event) (s : DriverState W) : DriverState W :=
  {| d_prev_mod := d_prev_mod s; d_curr_mod := d_curr_mod s;
     d_phase := d_phase s;
     d_run := {| events := events (d_run s) ++ [e];
                 engine_result := engine_result (d_run s) |};
     d_world := d_world s |}.

(** [curr_mod = algoLouvainWithLocking(graph, clusters_local, curr_mod,
    c_threshold)]: the assignment takes place when the call returns. *)
Definition call_engine (g : Graph) (nodes : NodeData)
    (clusters_local : largeArray) (c_threshold : double) (s : DriverState W)
  : Control * DriverState W :=
  let s := log (CallEngine (d_curr_mod s) c_threshold) s in
  let '(r, w) :=
    algo g nodes clusters_local (d_curr_mod s) c_threshold (d_world s) in
  let after (curr_mod : double) :=
    {| d_prev_mod := d_prev_mod s; d_curr_mod := curr_mod;
       d_phase := d_phase s;
       d_run := {| events := events (d_run s); engine_result := Some r |};
       d_world := w |} in
  match r with
  | Returned ret => (Continue, after (run_mod ret))
  | _ => (Halt, after (d_curr_mod s))
  end.

(** The body of [while (true)]. *)
Definition driver_turn (g : Graph) (nodes : NodeData)
    (clusters_local : largeArray) (min_graph_size : Z) (c_threshold : double)
    (s : DriverState W) : Control * DriverState W :=
  (* gPrint("Starting Phase : ", phase, "\n") *)
  let s := log (StartPhase (d_phase s)) s in
  (* prev_mod = curr_mod *)
  let s := {| d_prev_mod := d_curr_mod s; d_curr_mod := d_curr_mod s;
              d_phase := d_phase s; d_run := d_run s; d_world := d_world s |} in
  let '(ctl, s) :=
    if min_graph_size <? graph_size g
    then call_engine g nodes clusters_local c_threshold s
    else (Continue, s) in
  match ctl with
  | Continue => (* break *) (Break, s)
  | _ => (ctl, s)
  end.

(** [while (true)], for at most [turns] turns: [Continue] is returned when
    they are used up. *)
Fixpoint driver_loop (turns : nat) (g : Graph) (nodes : NodeData)
    (clusters_local : largeArray) (min_graph_size : Z) (c_threshold : double)
    (s : DriverState W) : Control * DriverState W :=
  match turns with
  | O => (Continue, s)
  | S turns' =>
      match driver_turn g nodes clusters_local min_graph_size c_threshold s with
      | (Continue, s') =>
          driver_loop turns' g nodes clusters_local min_graph_size c_threshold s'
      | stop => stop
      end
  end.

(** [prev_mod = -1; curr_mod = -1; phase = 1], [clusters_local] filled with
    [INF_VAL], then the loop. *)
Definition runMultiPhaseLouvainAlgorithm_with (turns : nat) (g : Graph)
    (nodes : NodeData) (clusters_orig : largeArray) (min_graph_size : Z)
    (c_threshold : double) (w : W) : Control * DriverState W :=
  let clusters_local := replicate (length (edgeIndData g)) INF_VAL in
  driver_loop turns g nodes clusters_local min_graph_size c_threshold
    {| d_prev_mod := of_int (-1); d_curr_mod := of_int (-1); d_phase := 1;
       d_run := {| events := []; engine_result := None |};
       d_world := w |}.
End Driver.

(** An engine without effects, and the same engine counting its calls. *)
Definition pure_engine
    (algo : Graph -> NodeData -> largeArray -> double -> double ->
            result LouvainRun)
    (g : Graph) (nodes : NodeData) (clusters : largeArray)
    (lower threshold : double) (w : unit) : result LouvainRun * unit :=
  (algo g nodes clusters lower threshold, w).

Definition counting
    (algo : Graph -> NodeData -> largeArray -> double -> double ->
            result LouvainRun)
    (g : Graph) (nodes : NodeData) (clusters : largeArray)
    (lower threshold : double) (calls : nat) : result LouvainRun * nat :=
  (algo g nodes clusters lower threshold, S calls).

(** The driver over [algoLouvainWithLocking].  [fuel] bounds the turns of the
    loop of the engine; the loop of the driver may take one turn more. *)
Definition runMultiPhaseLouvainAlgorithm (fuel : nat) (sched : Z -> list Z)
    (g : Graph) (nodes : NodeData) (clusters_orig : largeArray)
    (min_graph_size : Z) (c_threshold : double) : DriverRun :=
  d_run (runMultiPhaseLouvainAlgorithm_with
           (pure_engine (algoLouvainWithLocking fuel sched)) (S fuel) g nodes
           clusters_orig min_graph_size c_threshold tt).2.

(** ** main *)

Definition main_min_graph_size : Z := 100.

(** [curr_comm_ass = INF_VAL] for every vertex ([clusters_orig[n] = INF_VAL]
    fills an array local to [main]). *)
Definition reset_comm (n : Z) (nodes : NodeData) : option NodeData :=
  d ← at_ nodes n; set_ nodes n (Node.set_curr_comm_ass d INF_VAL).

(** [clusters] is the uninitialised array handed to [vertexFollowing]. *)
Definition main (fuel : nat) (sched : Z -> list Z) (g : Graph) (nodes : NodeData)
    (enable_VF : bool) (clusters : largeArray) (c_threshold : double)
  : option DriverRun :=
  nodes1 ← (if enable_VF
            then r ← vertexFollowing g nodes clusters; Some r.1.1
            else Some nodes);
  nodes2 ← do_all reset_comm (iterate g) nodes1;
  Some (runMultiPhaseLouvainAlgorithm fuel sched g nodes2
          (replicate (length (edgeIndData g)) INF_VAL)
          main_min_graph_size c_threshold).

(** ** The worklists of namespace [Alt]

    One worker runs the operations, so a [CAS] succeeds at its first attempt
    and the head lock of a stack is always free when it is asked for; a
    [PerCPU] value is the slot of that worker.  [T0] is the value [T()]. *)

Module Chunk.
Section Chunk.
Context {T : Type}.
Variable T0 : T.
Variable chunksize : nat.

(** [ChunkHeader::next] and the members [data] and [num] of [Chunk]. *)
#[warnings="-register-all"]
Inductive t : Type := mk { data : list T; num : nat; next : option t }.

Definition set_next (c : t) (nx : option t) : t := mk (data c) (num c) nx.

(** The constructor [Chunk()]. *)
Definition new : t := mk (replicate chunksize T0) 0 None.

(** [data[--num]]; the index is inside the array for every chunk made by
    [new] and [push] (see [wf]). *)
Definition pop (c : t) : (bool * T) * t :=
  match num c with
  | O => ((false, T0), c)
  | S k => ((true, default T0 (data c !! k)), mk (data c) k (next c))
  end.

Definition push (val : T) (c : t) : bool * t :=
  if decide (num c < chunksize)%nat
  then (true, mk (<[num c := val]> (data c)) (S (num c)) (next c))
  else (false, c).

(** [push(Iter b, Iter e)]: returns the part of the range not copied. *)
Fixpoint push_range (b : list T) (c : t) : list T * t :=
  match b with
  | [] => ([], c)
  | x :: b' =>
      if decide (num c < chunksize)%nat
      then push_range b' (mk (<[num c := x]> (data c)) (S (num c)) (next c))
      else (b, c)
  end.

Definition empty (c : t) : bool := Nat.eqb (num c) 0.
Definition full (c : t) : bool := Nat.eqb (num c) chunksize.

(** The array has [chunksize] cells and [num] of them are in use. *)
Definition wf (c : t) : Prop :=
  length (data c) = chunksize ∧ (num c ≤ chunksize)%nat.

(** The items of a chunk, the one [pop] returns first. *)
Definition items (c : t) : list T := reverse (take (num c) (data c)).

(** The chunks linked from [c] through [next], [c] first. *)
Fixpoint chain (c : t) : list t :=
  c :: match next c with Some c' => chain c' | None => [] end.
End Chunk.
Arguments t : clear implicits.
End Chunk.

(** The interface a [ChunkedAdaptor] asks of its template argument [gWL]. *)
Class WorkList (T W : Type) := {
  wl_push : Chunk.t T -> W -> W;
  wl_pushi : Chunk.t T -> W -> W;
  wl_pop : W -> option (Chunk.t T) * W
}.

Module LIFO_SB.
Section LIFO_SB.
Context {T : Type}.

Record t : Type := mk { head : option (Chunk.t T) }.

Definition init : t := mk None.

Definition empty (s : t) : bool :=
  match head s with None => true | Some _ => false end.

(** [val->next = oldhead; head.CAS(oldhead, val)]. *)
Definition push (val : Chunk.t T) (s : t) : t :=
  mk (Some (Chunk.set_next val (head s))).

Definition pushi (val : Chunk.t T) (s : t) : t := push val s.

Definition pop (s : t) : option (Chunk.t T) * t :=
  if empty s then (None, s)
  else match head s with
       | None => (None, s)
       | Some C => (Some (Chunk.set_next C None), mk (Chunk.next C))
       end.

(** [me.steal(victim)]: the chunk taken and the victim afterwards. *)
Definition steal (victim : t) : option (Chunk.t T) * t :=
  if empty victim then (None, victim)
  else match head victim with
       | None => (None, victim)
       | Some C => (Some (Chunk.set_next C None), mk (Chunk.next C))
       end.
End LIFO_SB.
Arguments t : clear implicits.
End LIFO_SB.

#[global] Instance LIFO_SB_WorkList (T : Type) : WorkList T (LIFO_SB.t T) := {
  wl_push := LIFO_SB.push;
  wl_pushi := LIFO_SB.pushi;
  wl_pop := LIFO_SB.pop
}.

Module InitialQueue.
Section InitialQueue.
Context {T InitWl RunningWl : Type}.
Context `{!WorkList T InitWl, !WorkList T RunningWl}.

Record t : Type := mk { global : InitWl; local : RunningWl }.

Definition push (val : Chunk.t T) (s : t) : t :=
  mk (global s) (wl_push val (local s)).

Definition pushi (val : Chunk.t T) (s : t) : t :=
  mk (wl_pushi val (global s)) (local s).

Definition pop (s : t) : option (Chunk.t T) * t :=
  match wl_pop (local s) with
  | (Some ret, l') => (Some ret, mk (global s) l')
  | (None, l') =>
      let '(ret, g') := wl_pop (global s) in (ret, mk g' l')
  end.
End InitialQueue.
Arguments t : clear implicits.
End InitialQueue.

#[global] Instance InitialQueue_WorkList (T InitWl RunningWl : Type)
  `{!WorkList T InitWl, !WorkList T RunningWl}
  : WorkList T (InitialQueue.t InitWl RunningWl) := {
  wl_push := InitialQueue.push;
  wl_pushi := InitialQueue.pushi;
  wl_pop := InitialQueue.pop
}.

Module ChunkedAdaptor.
Section ChunkedAdaptor.
Context {T gWL : Type} `{!WorkList T gWL}.
Variable T0 : T.
Variable chunksize : nat.

(** [data] is the current chunk of the worker (null is [None]). *)
Record t : Type := mk { data : option (Chunk.t T); worklist : gWL }.

Definition mkChunk : Chunk.t T := Chunk.new T0 chunksize.

Definition push (val : T) (s : t) : bool * t :=
  let fresh (wl : gWL) :=
    (true, mk (Some (Chunk.push chunksize val mkChunk).2) wl) in
  match data s with
  | Some n =>
      let '(ok, n') := Chunk.push chunksize val n in
      if ok then (true, mk (Some n') (worklist s))
      else fresh (wl_push n (worklist s))
  | None => fresh (worklist s)
  end.

Definition pushi (val : T) (s : t) : bool * t := push val s.

(** [push(Iter b, Iter e)]; [fuel] bounds the turns of its loop. *)
Fixpoint push_range (fuel : nat) (b : list T) (s : t) : option (bool * t) :=
  match b with
  | [] => Some (true, s)
  | _ =>
      match fuel with
      | O => None
      | S fuel' =>
          let n := match data s with Some n => n | None => mkChunk end in
          let '(b', n') := Chunk.push_range chunksize b n in
          match b' with
          | [] => Some (true, mk (Some n') (worklist s))
          | _ => push_range fuel' b' (mk None (wl_push n' (worklist s)))
          end
      end
  end.

(** [pushi(Iter b, Iter e)]. *)
Fixpoint pushi_range (fuel : nat) (b : list T) (s : t) : option t :=
  match b with
  | [] => Some s
  | _ =>
      match fuel with
      | O => None
      | S fuel' =>
          let '(b', n') := Chunk.push_range chunksize b mkChunk in
          pushi_range fuel' b' (mk (data s) (wl_pushi n' (worklist s)))
      end
  end.

Definition pop (s : t) : (bool * T) * t :=
  let fetch :=
    match wl_pop (worklist s) with
    | (Some n, wl') =>
        let '(retval, n') := Chunk.pop T0 n in (retval, mk (Some n') wl')
    | (None, wl') => ((false, T0), mk None wl')
    end in
  match data s with
  | Some n =>
      let '(retval, n') := Chunk.pop T0 n in
      if retval.1 then (retval, mk (Some n') (worklist s)) else fetch
  | None => fetch
  end.

(** The constructor: every slot null, the worklist as constructed. *)
Definition init (wl : gWL) : t := mk None wl.
End ChunkedAdaptor.
Arguments t : clear implicits.
End ChunkedAdaptor.

(** ** Statements about [maxModularity] *)

(** The invariant of [std::map]: keys strictly increasing. *)
Definition map_sorted (m : std_map) : Prop :=
  StronglySorted (fun a b : Z * Z => a.1 < b.1) m.

(** Every community and every dense index of the map is inside its array. *)
Definition map_in_range (m : std_map) (counter : list Z) (c_info : CommArray)
  : Prop :=
  Forall (fun e : Z * Z => in_range c_info e.1 = true
                           ∧ in_range counter e.2 = true) m.

Section Choice.
Variables (cluster_local_map : std_map) (counter : list Z) (self_loop_wt : Z)
          (c_info : CommArray) (degree_wt sc : Z) (constant : double).

(** [eix] and [ax] as [maxModularity] computes them. *)
Definition eix_of : option double :=
  c0 ← at_ counter 0; Some (of_int (wrap64 (c0 - self_loop_wt))).

Definition ax_of : option double :=
  csc ← at_ c_info sc; Some (of_int (wrap64 (Comm.degree_wt csc - degree_wt))).

(** The gain of a map entry. *)
Definition Delta (e : Z * Z) : option double :=
  eix ← eix_of; ax ← ax_of;
  entry_gain counter c_info degree_wt constant eix ax e.

(** What the loop of [maxModularity] selects, with its gain: [sc] with gain
    0 when no other key has a gain above 0; otherwise a key other than [sc]
    of gain above 0 that no other key exceeds, every smaller key having a
    strictly smaller gain (or none that compares). *)
Definition selected (r : Z) (gr : double) : Prop :=
  (r = sc ∧ gr = dzero ∧
   ∀ e g, e ∈ cluster_local_map → e.1 ≠ sc → Delta e = Some g →
          dgt g dzero = false)
  ∨ (r ≠ sc ∧ dgt gr dzero = true ∧
     (∃ i, (r, i) ∈ cluster_local_map ∧ Delta (r, i) = Some gr) ∧
     ∀ e g, e ∈ cluster_local_map → e.1 ≠ sc → Delta e = Some g →
            dgt g gr = false ∧ (e.1 < r → dle gr g = false)).

(** The last test of [maxModularity]: two singleton communities. *)
Definition singleton_swap (r : Z) : bool :=
  match at_ c_info r, at_ c_info sc with
  | Some cm, Some csc =>
      (Comm.size cm =? 1) && (Comm.size csc =? 1) && (sc <? r)
  | _, _ => false
  end.

(** The choice in the words of the specification: every key is a
    candidate, [sc] with gain 0; the result has maximal gain, and the
    smallest id among the keys of that gain. *)
Definition spec_gain (e : Z * Z) : option double :=
  if e.1 =? sc then Some (of_int 0) else Delta e.

Definition spec_selected (r : Z) : Prop :=
  ∃ er gr, er ∈ cluster_local_map ∧ er.1 = r ∧ spec_gain er = Some gr ∧
    ∀ e g, e ∈ cluster_local_map → spec_gain e = Some g →
           dle g gr = true ∧ (deq g gr = true → r ≤ e.1).

Definition spec_maxModularity (res : Z) : Prop :=
  ∃ r, spec_selected r ∧ res = if singleton_swap r then sc else r.
End Choice.

(** A call in which community 3 ties with [sc = 5] at gain 0. *)
Definition tie_map : std_map := [(3, 1); (5, 0)].
Definition tie_counter : list Z := [1; 1].
Definition tie_c_info : CommArray :=
  [Comm.mk 0 0; Comm.mk 0 0; Comm.mk 0 0; Comm.mk 1 2; Comm.mk 0 0; Comm.mk 2 4].
Definition one_eighth : double := ddiv (of_int 1) (of_int 8).

(** The state [(mi, mg)] of the loop of [maxModularity] once it has visited
    the entries [P]. *)
Definition scanned (counter : list Z) (c_info : CommArray) (degree_wt sc : Z)
    (constant eix ax : double) (P : std_map) (mi : Z) (mg : double) : Prop :=
  let G := entry_gain counter c_info degree_wt constant eix ax in
  (mi = sc ∧ mg = dzero ∧
   ∀ e g, e ∈ P → e.1 ≠ sc → G e = Some g → dgt g dzero = false)
  ∨ (mi ≠ sc ∧ dgt mg dzero = true ∧
     (∃ i, (mi, i) ∈ P ∧ G (mi, i) = Some mg) ∧
     ∀ e g, e ∈ P → e.1 ≠ sc → G e = Some g →
            dgt g mg = false ∧ (e.1 < mi → dle mg g = false)).

(** ** Sample graphs *)


(** The path 0 - 1 with one edge of weight 1, stored in both directions. *)
Definition path01 : Graph :=
  {| edgeIndData := [1; 2]; edgeDst := [1; 0]; edgeData := [1; 1] |}.

(** Vertex 0 hangs on vertex 1 of the triangle 1, 2, 3:
    0 - 1, 1 - 2, 1 - 3, 2 - 3, all of weight 1. *)
Definition pendant : Graph :=
  {| edgeIndData := [1; 4; 6; 8];
     edgeDst := [1; 0; 2; 3; 1; 3; 1; 2];
     edgeData := [1; 1; 1; 1; 1; 1; 1; 1] |}.

(** The edge 0 - 1 of weight 1 and the isolated vertex 2. *)
Definition edge_and_isolated : Graph :=
  {| edgeIndData := [1; 2; 2]; edgeDst := [1; 0]; edgeData := [1; 1] |}.

(** Vertex 1 has one edge, to vertex 0; vertices 0 and 2 have two edges
    each and vertex 3 has none.  The edge stored after that of vertex 1
    leads to vertex 0 as well. *)
Definition followed_and_isolated : Graph :=
  {| edgeIndData := [2; 3; 5; 5];
     edgeDst := [1; 2; 0; 0; 1];
     edgeData := [1; 1; 1; 1; 1] |}.

(** The edge 0 - 1 of weight 1 and the isolated vertices 2 to 100: 101
    vertices, one more than [main] asks for before it calls the engine. *)
Definition edge_and_99_isolated : Graph :=
  {| edgeIndData := [1; 2] ++ replicate 99 2;
     edgeDst := [1; 0]; edgeData := [1; 1] |}.


(** [n] payloads with every field 0. *)
Definition blank_nodes (n : nat) : NodeData := replicate n (Node.mk 0 0 0 0).

(** The schedule that runs every [for_each] in vertex order. *)
Definition in_order (g : Graph) : Z -> list Z := fun _ => iterate g.

(** The out-neighbours of a vertex, for stating what the code should do. *)
Definition neighbours (g : Graph) (n : Z) : option (list Z) :=
  es ← edges g n; mapM (getEdgeDst g) es.

(** ** One worker on a [ChunkedAdaptor] over [LIFO_SB] *)

Section SingleWorker.
Context {T : Type}.
Variable T0 : T.
Variable chunksize : nat.

(** The calls a worker makes and what they return. *)
Inductive Op : Type :=
| Push (x : T)
| Pop.

Inductive Out : Type :=
| PushRet (b : bool)
| PopRet (r : bool * T).

Fixpoint run_adaptor (ops : list Op) (s : ChunkedAdaptor.t T (LIFO_SB.t T))
  : list Out :=
  match ops with
  | [] => []
  | Push x :: ops' =>
      let '(b, s') := ChunkedAdaptor.push T0 chunksize x s in
      PushRet b :: run_adaptor ops' s'
  | Pop :: ops' =>
      let '(r, s') := ChunkedAdaptor.pop T0 s in
      PopRet r :: run_adaptor ops' s'
  end.

(** The single stack of the specification: [push] puts an item on top and
    succeeds, [pop] takes the most recent item left, or fails when none is. *)
Definition stack_push (x : T) (l : list T) : bool * list T := (true, x :: l).

Definition stack_pop (l : list T) : (bool * T) * list T :=
  match l with
  | [] => ((false, T0), [])
  | x :: l' => ((true, x), l')
  end.

Fixpoint run_stack (ops : list Op) (l : list T) : list Out :=
  match ops with
  | [] => []
  | Push x :: ops' =>
      let '(b, l') := stack_push x l in PushRet b :: run_stack ops' l'
  | Pop :: ops' =>
      let '(r, l') := stack_pop l in PopRet r :: run_stack ops' l'
  end.

(** The items held by a chain of chunks, the most recent first. *)
Fixpoint chain_items (c : Chunk.t T) : list T :=
  Chunk.items c ++
  match Chunk.next c with Some c' => chain_items c' | None => [] end.

Definition stack_items (s : LIFO_SB.t T) : list T :=
  match LIFO_SB.head s with Some c => chain_items c | None => [] end.

(** The items held by an adaptor: those of the current chunk, then those of
    the published chunks. *)
Definition contents (s : ChunkedAdaptor.t T (LIFO_SB.t T)) : list T :=
  match ChunkedAdaptor.data s with Some n => Chunk.items n | None => [] end
  ++ stack_items (ChunkedAdaptor.worklist s).

(** Published chunks are full. *)
Fixpoint chain_full (c : Chunk.t T) : Prop :=
  Chunk.wf chunksize c ∧ Chunk.num c = chunksize ∧
  match Chunk.next c with Some c' => chain_full c' | None => True end.

Definition adaptor_inv (s : ChunkedAdaptor.t T (LIFO_SB.t T)) : Prop :=
  match ChunkedAdaptor.data s with
  | Some n => Chunk.wf chunksize n
  | None => True
  end ∧
  match LIFO_SB.head (ChunkedAdaptor.worklist s) with
  | Some c => chain_full c
  | None => True
  end.
End SingleWorker.

Arguments Op : clear implicits.
Arguments Out : clear implicits.

(** An adaptor over an [InitialQueue] of two [LIFO_SB], items of type [Z],
    chunks of two cells. *)
Definition IQ : Type := InitialQueue.t (LIFO_SB.t Z) (LIFO_SB.t Z).

Definition iq_adaptor : ChunkedAdaptor.t Z IQ :=
  ChunkedAdaptor.init (InitialQueue.mk LIFO_SB.init LIFO_SB.init).

(** ** Community aggregates *)

Fixpoint sumZ {A : Type} (f : A -> Z) (l : list A) : Z :=
  match l with
  | [] => 0
  | x :: l' => f x + sumZ f l'
  end.

(** The sums of [c_info[c].degree_wt] and of [c_info[c].size] over all
    communities [c]. *)
Definition total_degree_wt (c_info : CommArray) : Z := sumZ Comm.degree_wt c_info.
Definition total_size (c_info : CommArray) : Z := sumZ Comm.size c_info.

(** The elements of an array with their indices, from index [k]. *)
Fixpoint indexed_from {A : Type} (k : Z) (l : list A) : list (Z * A) :=
  match l with
  | [] => []
  | x :: l' => (k, x) :: indexed_from (k + 1) l'
  end.

Definition indexed {A : Type} (l : list A) : list (Z * A) := indexed_from 0 l.

(** A vertex without out-edge. *)
Definition isolated (g : Graph) (n : Z) : bool :=
  match distance g n with Some k => k =? 0 | None => false end.

(** Vertex [p.1], of payload [p.2], has edges and is assigned to [c]. *)
Definition is_member (g : Graph) (c : Z) (p : Z * Node.t) : bool :=
  negb (isolated g p.1) && (Node.curr_comm_ass p.2 =? c).

(** The number of vertices with edges whose [curr_comm_ass] is [c], and the
    sum of their [degree_wt]. *)
Definition member_count (g : Graph) (nodes : NodeData) (c : Z) : Z :=
  sumZ (fun p => if is_member g c p then 1 else 0) (indexed nodes).

Definition member_weight (g : Graph) (nodes : NodeData) (c : Z) : Z :=
  sumZ (fun p => if is_member g c p then Node.degree_wt p.2 else 0)
       (indexed nodes).

(** 1 when vertex [c] is isolated: its record keeps the size it was given. *)
Definition own_isolated (g : Graph) (c : Z) : Z :=
  if isolated g c then 1 else 0.

(** The number of vertices whose [curr_comm_ass] is [c], isolated or not, and
    the number of vertices with edges: the counts the specification uses. *)
Definition assigned_count (nodes : NodeData) (c : Z) : Z :=
  sumZ (fun d => if Node.curr_comm_ass d =? c then 1 else 0) nodes.

Definition non_isolated_count (g : Graph) : Z :=
  sumZ (fun n => if isolated g n then 0 else 1) (iterate g).

(** ** Well-formed graphs *)

Fixpoint nondecreasing (lo : Z) (l : list Z) : bool :=
  match l with
  | [] => true
  | x :: l' => (lo <=? x) && nondecreasing x l'
  end.

(** The row ends are ordered and inside the edge arrays, which have the same
    length; there are fewer than [2^64 - 1] vertices; every edge leads to a
    vertex of the graph that has edges itself (as in a symmetric graph). *)
Definition wf_graph (g : Graph) : bool :=
  nondecreasing 0 (edgeIndData g)
  && forallb (fun e => e <=? Z.of_nat (length (edgeDst g))) (edgeIndData g)
  && (length (edgeData g) =? length (edgeDst g))%nat
  && (Z.of_nat (length (edgeDst g)) <? two64)
  && (graph_size g <? minus_one)
  && forallb (fun d => in_range (edgeIndData g) d && negb (isolated g d))
             (edgeDst g).

(** ** The state at an iteration boundary *)

(** [k] turns of [while (true)], seen from the arrays only. *)
Fixpoint louvain_passes (g : Graph) (constant : double) (sched : Z -> list Z)
    (k : nat) (num_iter : Z) (st : NodeData * CommArray)
  : option (NodeData * CommArray) :=
  match k with
  | O => Some st
  | S k' =>
      let num_iter := (num_iter + 1) mod 2 ^ 32 in
      st' ← do_all (louvain_op g constant) (sched num_iter) st;
      louvain_passes g constant sched k' num_iter st'
  end.

(** The node data and [c_info] after the initialisation and [k] turns. *)
Definition louvain_boundary (g : Graph) (sched : Z -> list Z) (nodes : NodeData)
    (k : nat) : option (NodeData * CommArray) :=
  nodes1 ← do_all init_comm (iterate g) nodes;
  st ← sumVertexDegreeWeight g nodes1
         (replicate (length (edgeIndData g)) (Comm.mk 0 0));
  _ ← at_ st.2 5;
  constant ← calConstantForSecondTerm g st.1;
  louvain_passes g constant sched k 0 st.

(** The invariant of the iteration. *)
Definition louvain_inv (g : Graph) (nodes : NodeData) (c_info : CommArray)
  : Prop :=
  length nodes = length (edgeIndData g) ∧
  length c_info = length (edgeIndData g) ∧
  (∀ n d, at_ nodes n = Some d → isolated g n = false →
          in_range c_info (Node.curr_comm_ass d) = true) ∧
  (∀ c ci, at_ c_info c = Some ci →
           Comm.size ci = wrap64 (member_count g nodes c + own_isolated g c) ∧
           Comm.degree_wt ci = wrap64 (member_weight g nodes c)).

(** The sum of the weights of the out-edges of a vertex, as
    [sumVertexDegreeWeight] computes it. *)
Definition vertex_weight (g : Graph) (n : Z) : Z :=
  default 0 (es ← edges g n; do_all (add_edge_weight g) es 0).

(** The state of [edge_and_isolated] after the initialisation of the engine,
    and after the operator has run on vertex 1, which moves to community 0. *)
Definition one_half : double := ddiv (of_int 1) (of_int 2).

Definition eai_nodes : NodeData :=
  [Node.mk 0 0 1 0; Node.mk 1 1 1 0; Node.mk 2 2 0 0].

Definition eai_c_info : CommArray := [Comm.mk 1 1; Comm.mk 1 1; Comm.mk 1 0].

Definition eai_nodes' : NodeData :=
  [Node.mk 0 0 1 0; Node.mk 1 0 1 0; Node.mk 2 2 0 0].

Definition eai_c_info' : CommArray := [Comm.mk 2 2; Comm.mk 0 0; Comm.mk 1 0].

(** The state of [edge_and_99_isolated] after the initialisation of the
    engine. *)
Definition e99_nodes : NodeData :=
  (fun j => Node.mk j j (if j <? 2 then 1 else 0) 0) <$> seqZ 0 101.

Definition e99_c_info : CommArray :=
  (fun j => Comm.mk 1 (if j <? 2 then 1 else 0)) <$> seqZ 0 101.

(** And after a turn in vertex order: vertex 1 has joined community 0, the
    isolated vertices are assigned to -1. *)
Definition e99_nodes' : NodeData :=
  (fun j => Node.mk j (if j <? 2 then 0 else minus_one)
                    (if j <? 2 then 1 else 0) 0) <$> seqZ 0 101.

Definition e99_c_info' : CommArray :=
  (fun j => Comm.mk (if j =? 0 then 2 else if j =? 1 then 0 else 1)
                    (if j =? 0 then 2 else 0)) <$> seqZ 0 101.

(** The invariant of the edge loop that fills [cluster_local_map] and
    [counter]. *)
Definition scan_ok (c_info : CommArray) (st : std_map * list Z * Z * Z) : Prop :=
  let '(cluster_local_map, counter, num_unique_clusters, _) := st in
  map_sorted cluster_local_map ∧ cluster_local_map ≠ [] ∧
  map_in_range cluster_local_map counter c_info ∧
  in_range counter 0 = true ∧
  0 ≤ num_unique_clusters ≤ Z.of_nat (length counter).

(** The sum of [degree_wt] over the vertices whose [curr_comm_ass] is [c],
    and the invariant in the words of the specification: each record holds
    the count and the weight of the vertices assigned to it, and the sizes
    add up to the number of vertices with edges. *)
Definition assigned_weight (nodes : NodeData) (c : Z) : Z :=
  sumZ (fun d => if Node.curr_comm_ass d =? c then Node.degree_wt d else 0) nodes.

Definition spec_boundary_invariant (g : Graph) (nodes : NodeData)
    (c_info : CommArray) : Prop :=
  (∀ c ci, at_ c_info c = Some ci →
           Comm.size ci = assigned_count nodes c ∧
           Comm.degree_wt ci = assigned_weight nodes c) ∧
  total_size c_info = non_isolated_count g.

(** The state right after the initialisation of the engine. *)
Definition initialised (g : Graph) (nodes : NodeData) (c_info : CommArray)
  : Prop :=
  length nodes = length (edgeIndData g) ∧
  length c_info = length (edgeIndData g) ∧
  (∀ j d, at_ nodes j = Some d →
          Node.curr_comm_ass d = j ∧ Node.degree_wt d = vertex_weight g j) ∧
  (∀ j c, at_ c_info j = Some c → c = Comm.mk 1 (vertex_weight g j)).

(** ** The per-level worklists

    Modelled from the spec: the class [PerLevel] is declared outside this
    tree.  The spec (3, 4.3) describes it as an array of stacks, one per
    scheduling locality, addressed by the effective id of the calling worker,
    which is fixed for the life of the worker.  Here it is the list [local]
    and the id [me] of the caller; [get] is [local.get(id)], defined for the
    ids below [local.size()]. *)

Module LevelLocalAlt.
Section LevelLocalAlt.
Context {T : Type}.

Record t : Type := mk { local : list (LIFO_SB.t T) }.

Definition get (s : t) (id : nat) : LIFO_SB.t T :=
  default LIFO_SB.init (local s !! id).

Definition put (s : t) (id : nat) (st : LIFO_SB.t T) : t :=
  mk (<[id := st]> (local s)).

Definition push (me : nat) (val : Chunk.t T) (s : t) : t :=
  put s me (LIFO_SB.push val (get s me)).

Definition pushi (me : nat) (val : Chunk.t T) (s : t) : t := push me val s.

Definition pop (me : nat) (s : t) : option (Chunk.t T) * t :=
  let '(ret, st) := LIFO_SB.pop (get s me) in (ret, put s me st).
End LevelLocalAlt.
Arguments t : clear implicits.
End LevelLocalAlt.

Module LevelStealingAlt.
Section LevelStealingAlt.
Context {T : Type}.

Record t : Type := mk { local : list (LIFO_SB.t T) }.

Definition get (s : t) (id : nat) : LIFO_SB.t T :=
  default LIFO_SB.init (local s !! id).

Definition put (s : t) (id : nat) (st : LIFO_SB.t T) : t :=
  mk (<[id := st]> (local s)).

Definition size (s : t) : nat := length (local s).

Definition push (me : nat) (val : Chunk.t T) (s : t) : t :=
  put s me (LIFO_SB.push val (get s me)).

Definition pushi (me : nat) (val : Chunk.t T) (s : t) : t := push me val s.

(** The [for] loop of [pop], with [turns] turns left:
    [++id; id %= local.size(); ret = me.steal(local.get(id)); if (ret) break]. *)
Fixpoint steal_loop (turns : nat) (id : nat) (s : t) : option (Chunk.t T) * t :=
  match turns with
  | O => (None, s)
  | S turns' =>
      let id := ((id + 1) mod size s)%nat in
      match LIFO_SB.steal (get s id) with
      | (Some ret, victim) => (Some ret, put s id victim)
      | (None, _) => steal_loop turns' id s
      end
  end.

Definition pop (me : nat) (s : t) : option (Chunk.t T) * t :=
  match LIFO_SB.pop (get s me) with
  | (Some ret, st) => (Some ret, put s me st)
  | (None, _) => steal_loop (size s) me s
  end.
End LevelStealingAlt.
Arguments t : clear implicits.
End LevelStealingAlt.

(** ** Chunks held by a stack *)

Section StackChunks.
Context {T : Type}.

(** A chunk as it is handed out: its [next] pointer cleared. *)
Definition unlinked (c : Chunk.t T) : Chunk.t T := Chunk.set_next c None.

(** The chunks of a stack, the one [pop] returns first. *)
Definition stack_chunks (s : LIFO_SB.t T) : list (Chunk.t T) :=
  match LIFO_SB.head s with
  | Some c => unlinked <$> Chunk.chain c
  | None => []
  end.

(** The chunks of an [InitialQueue] of two stacks: those of the running
    queue, then those of the initial queue. *)
Definition iq_chunks (s : InitialQueue.t (LIFO_SB.t T) (LIFO_SB.t T))
  : list (Chunk.t T) :=
  stack_chunks (InitialQueue.local s) ++ stack_chunks (InitialQueue.global s).

(** The number of chunks held by all the stacks of a stealing worklist. *)
Definition stealing_count (s : LevelStealingAlt.t T) : nat :=
  sum_list (length ∘ stack_chunks <$> LevelStealingAlt.local s).
End StackChunks.

(** ** An adaptor after any of its operations *)

Section AdaptorStates.
Context {T : Type}.
Variable T0 : T.
Variable chunksize : nat.

(** Published chunks hold at least one item. *)
Fixpoint chain_nonempty (c : Chunk.t T) : Prop :=
  Chunk.wf chunksize c ∧ (0 < Chunk.num c)%nat ∧
  match Chunk.next c with Some c' => chain_nonempty c' | None => True end.

Definition adaptor_ok (s : ChunkedAdaptor.t T (LIFO_SB.t T)) : Prop :=
  match ChunkedAdaptor.data s with
  | Some n => Chunk.wf chunksize n
  | None => True
  end ∧
  match LIFO_SB.head (ChunkedAdaptor.worklist s) with
  | Some c => chain_nonempty c
  | None => True
  end.

(** The items of the current chunk of the worker. *)
Definition current_items (s : ChunkedAdaptor.t T (LIFO_SB.t T)) : list T :=
  match ChunkedAdaptor.data s with Some n => Chunk.items n | None => [] end.

(** The states a worker reaches from the constructed adaptor with [push],
    [pop] and the two range operations. *)
Inductive reachable : ChunkedAdaptor.t T (LIFO_SB.t T) -> Prop :=
| reach_init : reachable (ChunkedAdaptor.init LIFO_SB.init)
| reach_push s val :
    reachable s -> reachable (ChunkedAdaptor.push T0 chunksize val s).2
| reach_pop s :
    reachable s -> reachable (ChunkedAdaptor.pop T0 s).2
| reach_push_range s fuel b r :
    reachable s ->
    ChunkedAdaptor.push_range T0 chunksize fuel b s = Some r ->
    reachable r.2
| reach_pushi_range s fuel b s' :
    reachable s ->
    ChunkedAdaptor.pushi_range T0 chunksize fuel b s = Some s' ->
    reachable s'.
End AdaptorStates.

(** A stealing worklist of three stacks, the last of which holds one chunk
    with the item 7. *)
Definition sample_chunk : Chunk.t Z := (Chunk.push 2 7 (Chunk.new 0 2)).2.

Definition sample_stealing : LevelStealingAlt.t Z :=
  LevelStealingAlt.mk
    [LIFO_SB.init; LIFO_SB.init; LIFO_SB.push sample_chunk LIFO_SB.init].

(** ** More statements about the Louvain driver *)

(** The sum of the weights stored for the row of a vertex. *)
Definition row_weight (g : Graph) (n : Z) : Z :=
  sumZ (fun ii => default 0 (getEdgeData g ii)) (default [] (edges g n)).

(** The sum of the weighted degrees of all vertices (twice the weight of the
    edges of a symmetric graph). *)
Definition graph_weight (g : Graph) : Z :=
  sumZ (fun n => wrap64 (row_weight g n)) (iterate g).

(** The normaliser the engine computes before its loop. *)
Definition louvain_constant (g : Graph) (nodes : NodeData) : option double :=
  nodes1 ← do_all init_comm (iterate g) nodes;
  st ← sumVertexDegreeWeight g nodes1
         (replicate (length (edgeIndData g)) (Comm.mk 0 0));
  _ ← at_ st.2 5;
  calConstantForSecondTerm g st.1.

(** What the iteration keeps of a payload: [prev_comm_ass] and the weighted
    degree computed at initialisation, and for an isolated vertex an
    assignment that is its own id or -1. *)
Definition node_inv (g : Graph) (nodes : NodeData) : Prop :=
  ∀ n d, at_ nodes n = Some d →
    Node.prev_comm_ass d = n ∧
    Node.degree_wt d = vertex_weight g n ∧
    (isolated g n = true →
     Node.curr_comm_ass d = n ∨ Node.curr_comm_ass d = minus_one).

(** [c] is the community of the head of an out-edge of [n]. *)
Definition neighbour_comm (g : Graph) (nodes : NodeData) (n c : Z) : Prop :=
  ∃ es ii dst d,
    edges g n = Some es ∧ ii ∈ es ∧ getEdgeDst g ii = Some dst ∧
    at_ nodes dst = Some d ∧ Node.curr_comm_ass d = c.

(** ** The modularity in closed form *)

(** The weight the edge [ii] adds to [cluster_wt_internal]: its own weight
    when its head is in community [comm]. *)
Definition edge_in (g : Graph) (nodes : NodeData) (comm : Z) (ii : Z) : Z :=
  match dst ← getEdgeDst g ii; at_ nodes dst with
  | Some d =>
      if Node.curr_comm_ass d =? comm then default 0 (getEdgeData g ii) else 0
  | None => 0
  end.

(** The weight of the edges of [n] that stay inside the community of [n]. *)
Definition internal_weight (g : Graph) (nodes : NodeData) (n : Z) : Z :=
  match at_ nodes n with
  | Some d => sumZ (edge_in g nodes (Node.curr_comm_ass d)) (default [] (edges g n))
  | None => 0
  end.

(** A sum of doubles, accumulated from 0 in the order of the list. *)
Definition dsum (f : Z -> double) (l : list Z) : double :=
  fold_left (fun acc n => dadd acc (f n)) l (of_int 0).

(** [e_xx] and [a2_x] as sums over the vertices. *)
Definition e_xx_of (g : Graph) (nodes : NodeData) : double :=
  dsum (fun n => of_int (wrap64 (internal_weight g nodes n))) (iterate g).

Definition a2_x_of (g : Graph) (c_info : CommArray) : double :=
  dsum (fun n =>
          let w := default 0 (Comm.degree_wt <$> at_ c_info n) in
          of_int (wrap64 (w * w)))
       (iterate g).

(** * The thread-safe priority queue

    [threadsafe::ts_pqueue<_Tp, _Lock>] wraps a [std::priority_queue<_Tp>]
    and a lock.  The container is the standard library's: it is modelled by
    what the C++ standard says of it when [operator<] is a strict weak
    ordering, which the standard requires: the list of its elements with a
    greatest one first; [top] and [pop] are undefined on an empty container.
    For another [operator<] the standard says nothing of the order, and the
    statements that depend on the order assume a strict weak ordering.  The
    lock is a template parameter: what the methods do with it is recorded as
    the sequence of the calls they make. *)

Module ts_pqueue.

Inductive LockCall : Type :=
  | read_lock | read_unlock | write_lock | write_unlock | promote.

Section ts_pqueue.
Context {T : Type}.
Variable lt : T -> T -> bool.

(** [std::priority_queue]: [push], [top], [pop], [empty] and [size].  [push]
    puts the element before the first one that is less than it. *)
Fixpoint c_push (x : T) (c : list T) : list T :=
  match c with
  | [] => [x]
  | y :: c' => if lt y x then x :: c else y :: c_push x c'
  end.

Definition c_top (c : list T) : option T := head c.

Definition c_pop (c : list T) : option (list T) :=
  match c with [] => None | _ :: c' => Some c' end.

Definition c_empty (c : list T) : bool :=
  match c with [] => true | _ => false end.

Definition c_size (c : list T) : Z := Z.of_nat (length c).

(** The members [c] and [lock]; the calls made on the lock so far, the
    oldest first. *)
Record t : Type := mk { c : list T; lock : list LockCall }.

(** [ts_pqueue()]. *)
Definition new : t := mk [] [].

Definition empty (q : t) : bool * t :=
  let lock1 := lock q ++ [read_lock] in
  let retval := c_empty (c q) in
  (retval, mk (c q) (lock1 ++ [read_unlock])).

Definition size (q : t) : Z * t :=
  let lock1 := lock q ++ [read_lock] in
  let retval := c_size (c q) in
  (retval, mk (c q) (lock1 ++ [read_unlock])).

Definition push (x : T) (q : t) : t :=
  let lock1 := lock q ++ [write_lock] in
  mk (c_push x (c q)) (lock1 ++ [write_unlock]).

(** [pop(bool& suc)]: the value returned, [suc], and the queue.  On the
    empty queue [retval] is returned as it was declared, without a value
    assigned to it: [None]. *)
Definition pop (q : t) : option ((option T * bool) * t) :=
  let lock1 := lock q ++ [read_lock] in
  if negb (c_empty (c q)) then
    let lock2 := lock1 ++ [promote] in
    retval ← c_top (c q);
    c' ← c_pop (c q);
    Some ((Some retval, true), mk c' (lock2 ++ [write_unlock]))
  else
    Some ((None, false), mk (c q) (lock1 ++ [read_unlock])).

(** A caller's requests, and the queue after a sequence of them. *)
Inductive Op : Type := Empty | Size | Push (x : T) | Pop.

Definition step (o : Op) (q : t) : option t :=
  match o with
  | Empty => Some (empty q).2
  | Size => Some (size q).2
  | Push x => Some (push x q)
  | Pop => r ← pop q; Some r.2
  end.

Fixpoint run (ops : list Op) (q : t) : option t :=
  match ops with
  | [] => Some q
  | o :: ops' => q' ← step o q; run ops' q'
  end.
End ts_pqueue.

(** Every acquisition of the lock is followed by its release: the calls
    are a sequence of read sections, write sections and read sections
    promoted to write sections. *)
Fixpoint balanced (l : list LockCall) : bool :=
  match l with
  | [] => true
  | read_lock :: l1 =>
      match l1 with
      | read_unlock :: l2 => balanced l2
      | promote :: l2 =>
          match l2 with
          | write_unlock :: l3 => balanced l3
          | _ => false
          end
      | _ => false
      end
  | write_lock :: l1 =>
      match l1 with
      | write_unlock :: l2 => balanced l2
      | _ => false
      end
  | _ => false
  end.

Arguments t : clear implicits.
Arguments Op : clear implicits.

(** No element of the container is less than one that comes after it. *)
Definition ordered {T : Type} (lt : T -> T -> bool) (c : list T) : Prop :=
  StronglySorted (fun a b => lt a b = false) c.
End ts_pqueue.

(** * Properties *)

(** ** Order on doubles *)

Lemma Pos_compare_cont_Eq (p q : positive) :
  Pos.compare_cont Eq p q = Pos.compare p q.
Proof. reflexivity. Qed.

Ltac cmp_cases :=
  repeat match goal with
  | H : context [Z.compare ?a ?b] |- _ =>
      destruct (Z.compare_spec a b); subst
  | |- context [Z.compare ?a ?b] =>
      destruct (Z.compare_spec a b); subst
  | H : context [Pos.compare ?a ?b] |- _ =>
      destruct (Pos.compare_spec a b); subst
  | |- context [Pos.compare ?a ?b] =>
      destruct (Pos.compare_spec a b); subst
  end.

Ltac sf_cases :=
  simpl; try congruence; intros;
  repeat match goal with
  | H : context [Pos.compare_cont Eq ?p ?q] |- _ =>
      change (Pos.compare_cont Eq p q) with (Pos.compare p q) in H
  | |- context [Pos.compare_cont Eq ?p ?q] =>
      change (Pos.compare_cont Eq p q) with (Pos.compare p q)
  end;
  cmp_cases; simpl in *; try congruence; try lia.

Lemma SFcompare_lt_trans (a b c : spec_float) :
  SFcompare a b = Some Lt -> SFcompare b c = Some Lt -> SFcompare a c = Some Lt.
Proof.
  destruct a as [[]|[]| |[] ma ea], b as [[]|[]| |[] mb eb],
           c as [[]|[]| |[] mc ec]; sf_cases.
Qed.

Lemma SFcompare_lt_eq_trans (a b c : spec_float) :
  SFcompare a b = Some Lt -> SFcompare b c = Some Eq -> SFcompare a c = Some Lt.
Proof.
  destruct a as [[]|[]| |[] ma ea], b as [[]|[]| |[] mb eb],
           c as [[]|[]| |[] mc ec]; sf_cases.
Qed.

Lemma SFcompare_refl (a : spec_float) :
  SFcompare a a = Some Eq \/ SFcompare a a = None.
Proof.
  destruct a as [[]|[]| |[] ma ea]; simpl; auto; left;
    rewrite Z.compare_refl; change (Pos.compare_cont Eq ma ma) with (Pos.compare ma ma);
    rewrite Pos.compare_refl; reflexivity.
Qed.

Lemma dlt_trans (a b c : double) :
  dlt a b = true -> dlt b c = true -> dlt a c = true.
Proof.
  unfold dlt, SFltb. intros H1 H2.
  destruct (SFcompare a b) as [[]|] eqn:E1; try discriminate.
  destruct (SFcompare b c) as [[]|] eqn:E2; try discriminate.
  rewrite (SFcompare_lt_trans _ _ _ E1 E2). reflexivity.
Qed.

Lemma dlt_dle_trans (a b c : double) :
  dlt a b = true -> dle b c = true -> dlt a c = true.
Proof.
  unfold dlt, dle, SFltb, SFleb. intros H1 H2.
  destruct (SFcompare a b) as [[]|] eqn:E1; try discriminate.
  destruct (SFcompare b c) as [[]|] eqn:E2; try discriminate.
  - rewrite (SFcompare_lt_eq_trans _ _ _ E1 E2). reflexivity.
  - rewrite (SFcompare_lt_trans _ _ _ E1 E2). reflexivity.
Qed.

Lemma dlt_irrefl (a : double) : dlt a a = false.
Proof.
  unfold dlt, SFltb. destruct (SFcompare_refl a) as [-> | ->]; reflexivity.
Qed.

Lemma deq_zero_not_dne (a : double) :
  deq a dzero = true -> dne a (of_int 0) = false.
Proof. change (of_int 0) with dzero. unfold deq, dne. intros ->. reflexivity. Qed.

(** ** Arrays *)

Lemma in_range_spec {A} (a : list A) (i : Z) :
  in_range a i = true <-> 0 <= i < Z.of_nat (length a).
Proof. unfold in_range. rewrite andb_true_iff, Z.leb_le, Z.ltb_lt. tauto. Qed.

Lemma at_Some {A} (a : list A) (i : Z) (x : A) :
  at_ a i = Some x <-> 0 <= i /\ a !! Z.to_nat i = Some x.
Proof.
  unfold at_. destruct (in_range a i) eqn:E.
  - apply in_range_spec in E. intuition lia.
  - split; [discriminate|]. intros [H0 H].
    apply lookup_lt_Some in H.
    assert (in_range a i = true) by (apply in_range_spec; lia). congruence.
Qed.

Lemma at_is_Some {A} (a : list A) (i : Z) :
  in_range a i = true -> exists x, at_ a i = Some x.
Proof.
  intros H. unfold at_. rewrite H. apply in_range_spec in H.
  destruct (lookup_lt_is_Some_2 a (Z.to_nat i)) as [x Hx]; [lia|]. eauto.
Qed.

Lemma at_in_range {A} (a : list A) (i : Z) (x : A) :
  at_ a i = Some x -> in_range a i = true.
Proof. unfold at_. destruct (in_range a i); [reflexivity|discriminate]. Qed.

Lemma at_range {A} (a : list A) (i : Z) (x : A) :
  at_ a i = Some x -> 0 <= i < Z.of_nat (length a).
Proof. intros H. apply in_range_spec. eapply at_in_range; eauto. Qed.

Lemma set_Some {A} (a : list A) (i : Z) (x : A) :
  in_range a i = true -> set_ a i x = Some (<[Z.to_nat i := x]> a).
Proof. unfold set_. intros ->. reflexivity. Qed.

Lemma set_inv {A} (a a' : list A) (i : Z) (x : A) :
  set_ a i x = Some a' ->
  0 <= i < Z.of_nat (length a) /\ a' = <[Z.to_nat i := x]> a.
Proof.
  unfold set_. destruct (in_range a i) eqn:E; [|discriminate].
  apply in_range_spec in E. intros [= <-]. auto.
Qed.

Lemma in_range_insert {A} (a : list A) (k : nat) (x : A) (i : Z) :
  in_range (<[k := x]> a) i = in_range a i.
Proof. unfold in_range. rewrite length_insert. reflexivity. Qed.

Lemma at_insert_eq {A} (a : list A) (i : Z) (x : A) :
  in_range a i = true -> at_ (<[Z.to_nat i := x]> a) i = Some x.
Proof.
  intros H. unfold at_. rewrite in_range_insert, H.
  apply in_range_spec in H. apply list_lookup_insert_eq. lia.
Qed.

Lemma at_insert_ne {A} (a : list A) (i j : Z) (x : A) :
  0 <= i -> i <> j -> at_ (<[Z.to_nat i := x]> a) j = at_ a j.
Proof.
  intros Hi Hne. unfold at_. rewrite in_range_insert.
  destruct (in_range a j) eqn:E; [|reflexivity].
  apply in_range_spec in E. apply list_lookup_insert_ne. lia.
Qed.

(** ** The loop of [maxModularity] *)

Section Scan.
Variables (counter : list Z) (c_info : CommArray) (degree_wt sc : Z)
          (constant eix ax : double).

Let G := entry_gain counter c_info degree_wt constant eix ax.
Let step := mm_step counter c_info degree_wt sc constant eix ax.
Let inv := scanned counter c_info degree_wt sc constant eix ax.

Lemma entry_gain_defined (e : Z * Z) :
  in_range c_info e.1 = true -> in_range counter e.2 = true ->
  exists g, G e = Some g.
Proof.
  intros H1 H2. unfold G, entry_gain.
  destruct (at_is_Some _ _ H1) as [cy ->].
  destruct (at_is_Some _ _ H2) as [cnt ->]. simpl. eauto.
Qed.

Lemma mm_step_scanned (P : std_map) (e : Z * Z) (mi : Z) (mg : double) :
  in_range c_info e.1 = true -> in_range counter e.2 = true ->
  (forall p, p ∈ P -> p.1 < e.1) ->
  inv P mi mg ->
  exists mi' mg', step e (mi, mg) = Some (mi', mg') /\
                  inv (P ++ [e]) mi' mg'.
Proof.
  unfold inv, scanned. cbv zeta. fold G.
  intros H1 H2 Hlt Hinv. unfold step, mm_step.
  destruct (Z.eqb_spec sc e.1) as [Heq|Hne]; cbn [negb].
  { exists mi, mg. split; [reflexivity|].
    destruct Hinv as [(-> & -> & Hall)|(Hmi & Hpos & (i & Hi & HGi) & Hall)].
    - left. repeat split; try reflexivity. intros p g Hp Hpsc HG.
      apply elem_of_app in Hp as [Hp|Hp]; [eauto|].
      apply list_elem_of_singleton in Hp. subst p. congruence.
    - right. repeat split; try assumption.
      + exists i. split; [apply elem_of_app; auto|assumption].
      + apply elem_of_app in H as [Hp|Hp]; [eapply Hall; eauto|].
        apply list_elem_of_singleton in Hp. subst e0. congruence.
      + apply elem_of_app in H as [Hp|Hp]; [eapply Hall; eauto|].
        apply list_elem_of_singleton in Hp. subst e0. congruence. }
  destruct (entry_gain_defined e H1 H2) as [cg HG].
  fold G. rewrite HG. cbn [mbind option_bind].
  destruct Hinv as [(-> & -> & Hall)|(Hmi & Hpos & (i & Hi & HGi) & Hall)].
  - destruct (dgt cg dzero) eqn:Hgt; cbn [orb].
    + exists e.1, cg. split; [reflexivity|]. right.
      split; [congruence|]. split; [assumption|]. split.
      { exists e.2. rewrite <- surjective_pairing.
        split; [apply elem_of_app; right; apply list_elem_of_singleton; reflexivity
               |assumption]. }
      intros p g Hp Hpsc HGp.
      apply elem_of_app in Hp as [Hp|Hp].
      * pose proof (Hall p g Hp Hpsc HGp) as Hp0. split.
        -- destruct (dgt g cg) eqn:E; [|reflexivity].
           pose proof (dlt_trans _ _ _ Hgt E). unfold dgt, dlt in *. congruence.
        -- intros _. destruct (dle cg g) eqn:E; [|reflexivity].
           pose proof (dlt_dle_trans _ _ _ Hgt E). unfold dgt, dlt in *.
           congruence.
      * apply list_elem_of_singleton in Hp. subst p.
        assert (g = cg) by congruence. subst g. split.
        -- apply dlt_irrefl.
        -- lia.
    + destruct (deq cg dzero) eqn:Heq0.
      * rewrite (deq_zero_not_dne _ Heq0). cbn [andb].
        exists sc, dzero. split; [reflexivity|]. left.
        repeat split; try reflexivity. intros p g Hp Hpsc HGp.
        apply elem_of_app in Hp as [Hp|Hp]; [eauto|].
        apply list_elem_of_singleton in Hp. subst p. congruence.
      * cbn [andb]. exists sc, dzero. split; [reflexivity|]. left.
        repeat split; try reflexivity. intros p g Hp Hpsc HGp.
        apply elem_of_app in Hp as [Hp|Hp]; [eauto|].
        apply list_elem_of_singleton in Hp. subst p. congruence.
  - destruct (dgt cg mg) eqn:Hgt; cbn [orb].
    + exists e.1, cg. split; [reflexivity|]. right.
      split; [congruence|]. split.
      { exact (dlt_trans _ _ _ Hpos Hgt). }
      split.
      { exists e.2. rewrite <- surjective_pairing.
        split; [apply elem_of_app; right; apply list_elem_of_singleton; reflexivity
               |assumption]. }
      intros p g Hp Hpsc HGp.
      apply elem_of_app in Hp as [Hp|Hp].
      * destruct (Hall p g Hp Hpsc HGp) as [Hp0 _]. split.
        -- destruct (dgt g cg) eqn:E; [|reflexivity].
           pose proof (dlt_trans _ _ _ Hgt E). unfold dgt, dlt in *. congruence.
        -- intros _. destruct (dle cg g) eqn:E; [|reflexivity].
           pose proof (dlt_dle_trans _ _ _ Hgt E). unfold dgt, dlt in *.
           congruence.
      * apply list_elem_of_singleton in Hp. subst p.
        assert (g = cg) by congruence. subst g. split.
        -- apply dlt_irrefl.
        -- lia.
    + assert (Hord : (e.1 <? mi) = false).
      { apply Z.ltb_ge. specialize (Hlt _ Hi). simpl in Hlt. lia. }
      rewrite Hord, andb_false_r.
      exists mi, mg. split; [reflexivity|]. right.
      split; [assumption|]. split; [assumption|]. split.
      { exists i. split; [apply elem_of_app; auto|assumption]. }
      intros p g Hp Hpsc HGp.
      apply elem_of_app in Hp as [Hp|Hp]; [eauto|].
      apply list_elem_of_singleton in Hp. subst p.
      assert (g = cg) by congruence. subst g. split; [assumption|].
      specialize (Hlt _ Hi). simpl in Hlt. lia.
Qed.

Lemma mm_loop_scanned (m P : std_map) (mi : Z) (mg : double) :
  map_sorted m ->
  map_in_range m counter c_info ->
  (forall p e, p ∈ P -> e ∈ m -> p.1 < e.1) ->
  inv P mi mg ->
  exists mi' mg', do_all step m (mi, mg) = Some (mi', mg') /\
                  inv (P ++ m) mi' mg'.
Proof.
  revert P mi mg. induction m as [|e m IH]; intros P mi mg Hs Hr Hlt Hinv.
  - exists mi, mg. rewrite app_nil_r. auto.
  - apply StronglySorted_inv in Hs as [Hs He].
    apply Forall_cons in Hr as [[Hr1 Hr2] Hr].
    destruct (mm_step_scanned P e mi mg Hr1 Hr2) as (mi1 & mg1 & Hstep & Hinv1);
      [|assumption|].
    { intros p Hp. apply Hlt; [assumption|left]. }
    destruct (IH (P ++ [e]) mi1 mg1 Hs Hr) as (mi2 & mg2 & Hloop & Hinv2);
      [|assumption|].
    { intros p e' Hp He'. apply elem_of_app in Hp as [Hp|Hp].
      - apply Hlt; [assumption|right; assumption].
      - apply list_elem_of_singleton in Hp. subst p.
        rewrite Forall_forall in He. apply He. assumption. }
    exists mi2, mg2. cbn [do_all]. rewrite Hstep. cbn [mbind option_bind].
    rewrite <- app_assoc in Hinv2. auto.
Qed.
End Scan.

Lemma scanned_selected (m : std_map) (counter : list Z) (self_loop_wt : Z)
    (c_info : CommArray) (degree_wt sc : Z) (constant eix ax : double)
    (r : Z) (gr : double) :
  eix_of counter self_loop_wt = Some eix ->
  ax_of c_info degree_wt sc = Some ax ->
  scanned counter c_info degree_wt sc constant eix ax m r gr ->
  selected m counter self_loop_wt c_info degree_wt sc constant r gr.
Proof.
  intros He Ha. unfold scanned, selected, Delta. rewrite He, Ha.
  cbn [mbind option_bind]. tauto.
Qed.

(** The loop of [maxModularity] ends, on a state described by [scanned]. *)
Lemma mm_scan_scanned (m : std_map) (counter : list Z) (self_loop_wt : Z)
    (c_info : CommArray) (degree_wt sc : Z) (constant : double) :
  map_sorted m -> m <> [] -> map_in_range m counter c_info ->
  in_range counter 0 = true -> in_range c_info sc = true ->
  exists eix ax r gr,
    eix_of counter self_loop_wt = Some eix /\
    ax_of c_info degree_wt sc = Some ax /\
    mm_scan m counter self_loop_wt c_info degree_wt sc constant = Some (r, gr) /\
    scanned counter c_info degree_wt sc constant eix ax m r gr.
Proof.
  intros Hs Hne Hr H0 Hsc. unfold mm_scan, eix_of, ax_of.
  destruct (at_is_Some _ _ H0) as [c0 ->].
  destruct (at_is_Some _ _ Hsc) as [csc ->]. cbn [mbind option_bind].
  set (eix := of_int (wrap64 (c0 - self_loop_wt))).
  set (ax := of_int (wrap64 (Comm.degree_wt csc - degree_wt))).
  destruct (mm_loop_scanned counter c_info degree_wt sc constant eix ax m [] sc dzero)
    as (r & gr & Hloop & Hinv); try assumption.
  - intros p e Hp. apply elem_of_nil in Hp. contradiction.
  - left. repeat split; try reflexivity. intros e g He.
    apply elem_of_nil in He. contradiction.
  - exists eix, ax, r, gr. repeat split; try reflexivity; [|exact Hinv].
    destruct m; [congruence|]. exact Hloop.
Qed.

(** The community selected is [sc] or a key of the map. *)
Lemma scanned_key (counter : list Z) (c_info : CommArray) (degree_wt sc : Z)
    (constant eix ax : double) (m : std_map) (r : Z) (gr : double) :
  scanned counter c_info degree_wt sc constant eix ax m r gr ->
  r = sc \/ exists i, (r, i) ∈ m.
Proof.
  intros [(-> & _)|(_ & _ & (i & Hi & _) & _)]; [left; reflexivity|right; eauto].
Qed.

(** [maxModularity] returns, and returns [sc] or a key of the map. *)
Lemma maxModularity_defined (m : std_map) (counter : list Z) (self_loop_wt : Z)
    (c_info : CommArray) (degree_wt sc : Z) (constant : double) :
  map_sorted m -> m <> [] -> map_in_range m counter c_info ->
  in_range counter 0 = true -> in_range c_info sc = true ->
  exists r gr,
    mm_scan m counter self_loop_wt c_info degree_wt sc constant = Some (r, gr) /\
    (r = sc \/ exists i, (r, i) ∈ m) /\
    maxModularity m counter self_loop_wt c_info degree_wt sc constant
    = Some (if singleton_swap c_info sc r then sc else r).
Proof.
  intros Hs Hne Hr H0 Hsc.
  destruct (mm_scan_scanned m counter self_loop_wt c_info degree_wt sc constant)
    as (eix & ax & r & gr & He & Ha & Hscan & Hinv); try assumption.
  pose proof (scanned_key _ _ _ _ _ _ _ _ _ _ Hinv) as Hkey.
  exists r, gr. split; [assumption|]. split; [assumption|].
  assert (Hrr : in_range c_info r = true).
  { destruct Hkey as [->|[i Hi]]; [assumption|].
    unfold map_in_range in Hr. rewrite Forall_forall in Hr.
    apply (Hr _ Hi). }
  unfold maxModularity, singleton_swap. rewrite Hscan. cbn [mbind option_bind].
  destruct (at_is_Some _ _ Hrr) as [cm ->].
  destruct (at_is_Some _ _ Hsc) as [csc ->]. cbn [mbind option_bind].
  destruct ((Comm.size cm =? 1) && (Comm.size csc =? 1) && (sc <? r));
    reflexivity.
Qed.

(** C1 (as amended).  For a call of [maxModularity] on a non-empty map whose
    keys and dense indices lie inside [c_info] and [counter], the loop ends
    with a community [r] of gain [gr] such that: [r] is [sc] and [gr] is 0
    when no key other than [sc] has a gain above 0 (a key whose gain equals
    0 never replaces [sc], whatever its id); otherwise [r] is a key other
    than [sc] whose gain is above 0 and is exceeded by no key, and every
    smaller key other than [sc] has a strictly smaller gain.  The value
    returned is [r], except that it is [sc] when [c_info[r]] and [c_info[sc]]
    both have size 1 and [r > sc]. *)
Theorem maxModularity_selects (m : std_map) (counter : list Z) (self_loop_wt : Z)
    (c_info : CommArray) (degree_wt sc : Z) (constant : double) :
  map_sorted m -> m <> [] -> map_in_range m counter c_info ->
  in_range counter 0 = true -> in_range c_info sc = true ->
  exists r gr,
    mm_scan m counter self_loop_wt c_info degree_wt sc constant = Some (r, gr) /\
    selected m counter self_loop_wt c_info degree_wt sc constant r gr /\
    maxModularity m counter self_loop_wt c_info degree_wt sc constant
    = Some (if singleton_swap c_info sc r then sc else r).
Proof.
  intros Hs Hne Hr H0 Hsc.
  destruct (mm_scan_scanned m counter self_loop_wt c_info degree_wt sc constant)
    as (eix & ax & r & gr & He & Ha & Hscan & Hinv); try assumption.
  destruct (maxModularity_defined m counter self_loop_wt c_info degree_wt sc constant)
    as (r' & gr' & Hscan' & _ & Hres); try assumption.
  assert (r' = r) by congruence. subst r'.
  exists r, gr. split; [assumption|]. split; [|assumption].
  eapply scanned_selected; eauto.
Qed.

Lemma tie_map_sorted : map_sorted tie_map.
Proof.
  unfold map_sorted, tie_map.
  repeat (constructor; simpl; try lia).
Qed.

Lemma tie_map_in_range : map_in_range tie_map tie_counter tie_c_info.
Proof. unfold map_in_range, tie_map. repeat constructor. Qed.

Lemma maxModularity_selects_witness :
  exists r gr,
    mm_scan tie_map tie_counter 0 tie_c_info 2 5 one_eighth = Some (r, gr) /\
    selected tie_map tie_counter 0 tie_c_info 2 5 one_eighth r gr /\
    maxModularity tie_map tie_counter 0 tie_c_info 2 5 one_eighth
    = Some (if singleton_swap tie_c_info 5 r then 5 else r).
Proof.
  apply maxModularity_selects.
  - exact tie_map_sorted.
  - discriminate.
  - exact tie_map_in_range.
  - reflexivity.
  - reflexivity.
Defined.

(** C1, counterexample.  With [sc = 5] and a neighbouring community 3 whose
    gain is exactly 0, the two keys tie on the maximal gain; the smaller id
    is 3, and [maxModularity] returns 5. *)
Lemma maxModularity_tie_keeps_sc :
  maxModularity tie_map tie_counter 0 tie_c_info 2 5 one_eighth = Some 5 /\
  ~ spec_maxModularity tie_map tie_counter 0 tie_c_info 2 5 one_eighth 5.
Proof.
  split; [vm_compute; reflexivity|].
  intros (r & (er & gr & Her & Hkey & Hg & Hall) & Hres).
  assert (Hsw : singleton_swap tie_c_info 5 r = false).
  { unfold singleton_swap. destruct (at_ tie_c_info r); [|reflexivity].
    change (at_ tie_c_info 5) with (Some (Comm.mk 2 4)). cbn [Comm.size].
    change (2 =? 1) with false. rewrite andb_false_r. reflexivity. }
  rewrite Hsw in Hres. rewrite <- Hres in Hkey, Hall. clear Hres Hsw r.
  assert (er = (5, 0)).
  { unfold tie_map in Her. apply elem_of_cons in Her as [->|Her].
    - simpl in Hkey. lia.
    - apply list_elem_of_singleton in Her. assumption. }
  subst er.
  assert (gr = dzero) by (vm_compute in Hg; unfold dzero; congruence). subst gr.
  destruct (Hall (3, 1) dzero) as [_ H3].
  - unfold tie_map. left.
  - vm_compute. reflexivity.
  - specialize (H3 eq_refl). simpl in H3. lia.
Qed.

(** ** vertexFollowing *)

(** C5 (code at the failing input).  In [pendant], vertex 0 has degree 1, its
    only neighbour is vertex 1 and vertex 1 has degree 3, so vertex 0 is to
    follow vertex 1.  The operator reads the destination at [edge_end(0)],
    which is the first edge of vertex 1 and leads back to 0: it finds degree
    1 and [0 > 0] false, leaves [clusters] as it was and counts nothing. *)
Theorem vertexFollowing_pendant_not_followed (d0 d1 d2 d3 : Node.t)
    (c0 c1 c2 c3 : Z) :
  neighbours pendant 0 = Some [1] /\
  distance pendant 0 = Some 1 /\
  distance pendant 1 = Some 3 /\
  exists nodes',
    vertexFollowing pendant [d0; d1; d2; d3] [c0; c1; c2; c3]
    = Some (nodes', [c0; c1; c2; c3], 0) /\
    (Node.curr_comm_ass <$> at_ nodes' 1) = Some 1.
Proof.
  repeat split; try reflexivity.
  eexists. split; reflexivity.
Qed.

(** C6 (as amended).  On the path 0 - 1 the operator of [vertexFollowing],
    run on vertex 0 after the initialisation pass, leaves [clusters] as it
    was and counts nothing: no vertex has a degree above 1 and [0 > dst] is
    false. *)
Theorem vertexFollowing_path01_keeps_0 (d0 d1 : Node.t) (clusters : largeArray)
    (isolatedNodes : Z) :
  exists nodes1,
    do_all init_curr (iterate path01) [d0; d1] = Some nodes1 /\
    vf_op path01 nodes1 0 (clusters, isolatedNodes)
    = Some (clusters, isolatedNodes).
Proof. eexists. split; reflexivity. Qed.

(** C6, counterexample.  From [clusters = [7; 7]] the operator leaves
    [clusters[0] = 7] on vertex 0, and the whole pass does not return
    [clusters[0] = 1] with count 1: on vertex 1 it reads the edge array at
    index 2, outside its two cells. *)
Lemma vertexFollowing_path01_not_collapsed :
  vf_op path01 [Node.mk 0 0 0 0; Node.mk 0 1 0 0] 0 ([7; 7], 0) = Some ([7; 7], 0) /\
  ~ (exists nodes' clusters',
       vertexFollowing path01 [Node.mk 0 0 0 0; Node.mk 0 0 0 0] [7; 7]
       = Some (nodes', clusters', 1) /\ at_ clusters' 0 = Some 1).
Proof.
  split; [reflexivity|].
  intros (nodes' & clusters' & H & _). vm_compute in H. discriminate.
Qed.

(** ** The iteration on an isolated vertex *)


(** ** Chunks *)

Section ChunkFacts.
Context {T : Type}.
Variable T0 : T.
Variable chunksize : nat.

Lemma Chunk_new_wf : Chunk.wf chunksize (Chunk.new T0 chunksize).
Proof. unfold Chunk.wf, Chunk.new. cbn. rewrite length_replicate. lia. Qed.

Lemma Chunk_new_items : Chunk.items (Chunk.new T0 chunksize) = [].
Proof. reflexivity. Qed.

(** A push into a chunk with room puts the value on top. *)
Lemma Chunk_push_room (val : T) (c : Chunk.t T) :
  Chunk.wf chunksize c -> (Chunk.num c < chunksize)%nat ->
  exists c', Chunk.push chunksize val c = (true, c') /\
             Chunk.wf chunksize c' /\
             Chunk.items c' = val :: Chunk.items c /\
             Chunk.next c' = Chunk.next c /\
             Chunk.num c' = S (Chunk.num c).
Proof.
  intros [Hlen Hnum] Hroom. unfold Chunk.push.
  destruct (decide (Chunk.num c < chunksize)%nat) as [_|]; [|contradiction].
  eexists. split; [reflexivity|]. unfold Chunk.wf, Chunk.items. cbn.
  rewrite length_insert. repeat split; try lia.
  rewrite (take_S_r _ _ val) by (apply list_lookup_insert_eq; lia).
  rewrite take_insert_ge by lia. apply reverse_snoc.
Qed.

(** A push into a chunk without room fails and changes nothing. *)
Lemma Chunk_push_full (val : T) (c : Chunk.t T) :
  ~ (Chunk.num c < chunksize)%nat -> Chunk.push chunksize val c = (false, c).
Proof.
  intros H. unfold Chunk.push.
  destruct (decide (Chunk.num c < chunksize)%nat); [contradiction|reflexivity].
Qed.

Lemma Chunk_pop_empty (c : Chunk.t T) :
  Chunk.num c = 0%nat ->
  Chunk.pop T0 c = ((false, T0), c) /\ Chunk.items c = [].
Proof.
  intros H. unfold Chunk.pop, Chunk.items. rewrite H. auto.
Qed.

(** A pop from a chunk that holds something takes its top item. *)
Lemma Chunk_pop_some (c : Chunk.t T) :
  Chunk.wf chunksize c -> (0 < Chunk.num c)%nat ->
  exists x c', Chunk.pop T0 c = ((true, x), c') /\
               Chunk.wf chunksize c' /\
               Chunk.items c = x :: Chunk.items c' /\
               Chunk.next c' = Chunk.next c.
Proof.
  intros [Hlen Hnum] Hpos. unfold Chunk.pop, Chunk.items, Chunk.wf.
  destruct (Chunk.num c) as [|k] eqn:Hk; [lia|].
  destruct (lookup_lt_is_Some_2 (Chunk.data c) k) as [x Hx]; [lia|].
  exists x. eexists. rewrite Hx. split; [reflexivity|]. cbn.
  repeat split; try lia.
  rewrite (take_S_r _ _ x Hx). apply reverse_snoc.
Qed.

Lemma Chunk_items_set_next (c : Chunk.t T) (nx : option (Chunk.t T)) :
  Chunk.items (Chunk.set_next c nx) = Chunk.items c.
Proof. reflexivity. Qed.

Lemma Chunk_wf_set_next (c : Chunk.t T) (nx : option (Chunk.t T)) :
  Chunk.wf chunksize (Chunk.set_next c nx) <-> Chunk.wf chunksize c.
Proof. reflexivity. Qed.

(** ** The adaptor over one stack *)

Let adaptor : Type := ChunkedAdaptor.t T (LIFO_SB.t T).

Lemma chain_full_unfold (c : Chunk.t T) :
  chain_full chunksize c <->
  Chunk.wf chunksize c /\ Chunk.num c = chunksize /\
  match Chunk.next c with Some c' => chain_full chunksize c' | None => True end.
Proof. destruct c. reflexivity. Qed.

Lemma chain_items_unfold (c : Chunk.t T) :
  chain_items c = Chunk.items c ++
  match Chunk.next c with Some c' => chain_items c' | None => [] end.
Proof. destruct c. reflexivity. Qed.

Lemma init_inv : adaptor_inv chunksize (ChunkedAdaptor.init LIFO_SB.init : adaptor).
Proof. split; exact I. Qed.

Lemma init_contents : contents (ChunkedAdaptor.init LIFO_SB.init : adaptor) = [].
Proof. reflexivity. Qed.

Lemma push_refines (val : T) (s : adaptor) :
  (0 < chunksize)%nat -> adaptor_inv chunksize s ->
  exists s', ChunkedAdaptor.push T0 chunksize val s = (true, s') /\
             adaptor_inv chunksize s' /\
             contents s' = val :: contents s.
Proof.
  intros Hcs [Hcur Hwl]. unfold ChunkedAdaptor.push.
  destruct (Chunk_push_room val (Chunk.new T0 chunksize) Chunk_new_wf)
    as (f & Hf & Hfwf & Hfitems & Hfnext & _); [exact Hcs|].
  destruct s as [[n|] wl]; cbn [ChunkedAdaptor.data ChunkedAdaptor.worklist] in *.
  - destruct (decide (Chunk.num n < chunksize)%nat) as [Hroom|Hfull].
    + destruct (Chunk_push_room val n Hcur Hroom) as (n' & Hn' & Hwf' & Hitems & _).
      rewrite Hn'. eexists. split; [reflexivity|]. split.
      * split; assumption.
      * unfold contents. cbn. rewrite Hitems. reflexivity.
    + rewrite (Chunk_push_full val n Hfull).
      unfold ChunkedAdaptor.mkChunk. rewrite Hf. cbn [snd].
      eexists. split; [reflexivity|]. split.
      * split; [exact Hfwf|]. cbn [ChunkedAdaptor.worklist wl_push LIFO_SB_WorkList
          LIFO_SB.push LIFO_SB.head]. apply chain_full_unfold.
        cbn [Chunk.set_next Chunk.next Chunk.num]. split; [exact Hcur|]. split.
        -- destruct Hcur as [_ Hle]. lia.
        -- exact Hwl.
      * unfold contents, stack_items. cbn. rewrite Hfitems. reflexivity.
  - unfold ChunkedAdaptor.mkChunk. rewrite Hf. cbn [snd].
    eexists. split; [reflexivity|]. split.
    + split; assumption.
    + unfold contents. cbn. rewrite Hfitems. reflexivity.
Qed.

(** Fetching a chunk from the stack when the current chunk holds nothing. *)
Lemma fetch_refines (wl : LIFO_SB.t T) :
  (0 < chunksize)%nat ->
  match LIFO_SB.head wl with Some c => chain_full chunksize c | None => True end ->
  exists s',
    match LIFO_SB.pop wl with
    | (Some n, wl') =>
        let '(retval, n') := Chunk.pop T0 n in
        (retval, ChunkedAdaptor.mk (Some n') wl')
    | (None, wl') => ((false, T0), ChunkedAdaptor.mk None wl')
    end = ((stack_pop T0 (stack_items wl)).1, s') /\
    adaptor_inv chunksize s' /\
    contents s' = (stack_pop T0 (stack_items wl)).2.
Proof.
  intros Hcs Hwl. unfold LIFO_SB.pop, LIFO_SB.empty, stack_items.
  destruct wl as [[C|]]; cbn [LIFO_SB.head] in *.
  - apply chain_full_unfold in Hwl. destruct Hwl as (Hwf & Hnum & Hrest).
    destruct (Chunk_pop_some (Chunk.set_next C None)) as (x & c' & Hpop & Hwf' & Hitems & Hnext).
    { exact Hwf. }
    { cbn. lia. }
    rewrite Hpop. rewrite chain_items_unfold. rewrite Chunk_items_set_next in Hitems.
    rewrite Hitems. cbn [stack_pop app fst snd].
    eexists. split; [reflexivity|]. split.
    + split; cbn; [exact Hwf'|]. destruct (Chunk.next C); [exact Hrest|exact I].
    + unfold contents, stack_items. cbn. reflexivity.
  - eexists. split; [reflexivity|]. split; [split; exact I|reflexivity].
Qed.

Lemma pop_refines (s : adaptor) :
  (0 < chunksize)%nat -> adaptor_inv chunksize s ->
  exists s', ChunkedAdaptor.pop T0 s = ((stack_pop T0 (contents s)).1, s') /\
             adaptor_inv chunksize s' /\
             contents s' = (stack_pop T0 (contents s)).2.
Proof.
  intros Hcs [Hcur Hwl]. unfold ChunkedAdaptor.pop.
  change (@wl_pop T (LIFO_SB.t T) _) with (@LIFO_SB.pop T).
  destruct s as [[n|] wl]; cbn [ChunkedAdaptor.data ChunkedAdaptor.worklist] in *.
  - destruct (Nat.eq_dec (Chunk.num n) 0%nat) as [Hz|Hnz].
    + destruct (Chunk_pop_empty n Hz) as [Hpop Hitems]. rewrite Hpop. cbn [fst].
      assert (Hc : contents (ChunkedAdaptor.mk (Some n) wl) = stack_items wl).
      { unfold contents. cbn [ChunkedAdaptor.data ChunkedAdaptor.worklist].
        rewrite Hitems. reflexivity. }
      rewrite Hc. apply fetch_refines; assumption.
    + destruct (Chunk_pop_some n Hcur) as (x & n' & Hpop & Hwf' & Hitems & _);
        [lia|].
      rewrite Hpop. cbn [fst]. unfold contents.
      cbn [ChunkedAdaptor.data ChunkedAdaptor.worklist]. rewrite Hitems.
      cbn [stack_pop app fst snd]. eexists. split; [reflexivity|]. split.
      * split; assumption.
      * reflexivity.
  - change (contents (ChunkedAdaptor.mk None wl)) with (stack_items wl).
    apply fetch_refines; assumption.
Qed.

Lemma run_refines (ops : list (Op T)) (s : adaptor) :
  (0 < chunksize)%nat -> adaptor_inv chunksize s ->
  run_adaptor T0 chunksize ops s = run_stack T0 ops (contents s).
Proof.
  intros Hcs. revert s. induction ops as [|[x|] ops IH]; intros s Hinv.
  - reflexivity.
  - destruct (push_refines x s Hcs Hinv) as (s' & Hpush & Hinv' & Hc).
    cbn [run_adaptor run_stack stack_push]. rewrite Hpush, <- Hc.
    f_equal. apply IH. assumption.
  - destruct (pop_refines s Hcs Hinv) as (s' & Hpop & Hinv' & Hc).
    cbn [run_adaptor run_stack]. rewrite Hpop.
    destruct (stack_pop T0 (contents s)) as [r l'] eqn:E. cbn [fst snd] in *.
    f_equal. rewrite <- Hc. apply IH. assumption.
Qed.
End ChunkFacts.

(** C3.  For one worker and chunks of at least one cell, every sequence of
    [push] and [pop] calls on a [ChunkedAdaptor] over a [LIFO_SB], started
    from the constructed adaptor, returns call by call what the same sequence
    returns on a single stack: each [pop] returns the most recently pushed
    item not yet popped, and [(false, T())] exactly when no such item is
    left. *)
Theorem single_worker_lifo {T : Type} (T0 : T) (chunksize : nat)
    (ops : list (Op T)) :
  (0 < chunksize)%nat ->
  run_adaptor T0 chunksize ops (ChunkedAdaptor.init LIFO_SB.init)
  = run_stack T0 ops [].
Proof.
  intros Hcs.
  rewrite (run_refines T0 chunksize ops _ Hcs (init_inv chunksize)).
  reflexivity.
Qed.

Lemma single_worker_lifo_witness :
  run_adaptor 0 2 [Push 1; Push 2; Push 3; Pop; Pop; Push 4; Pop; Pop; Pop]
              (ChunkedAdaptor.init LIFO_SB.init)
  = run_stack 0 [Push 1; Push 2; Push 3; Pop; Pop; Push 4; Pop; Pop; Pop] [].
Proof. apply single_worker_lifo. lia. Defined.

(** ** [push] and [pushi] over any worklist *)

Section AdaptorFacts.
Context {T gWL : Type} `{!WorkList T gWL}.
Variable T0 : T.
Variable chunksize : nat.

(** The three cases of [push]. *)
Lemma push_cases (val : T) (s : ChunkedAdaptor.t T gWL) :
  (0 < chunksize)%nat ->
  (forall n, ChunkedAdaptor.data s = Some n -> Chunk.wf chunksize n) ->
  exists n' wl',
    ChunkedAdaptor.push T0 chunksize val s
    = (true, ChunkedAdaptor.mk (Some n') wl') /\
    Chunk.wf chunksize n' /\
    match ChunkedAdaptor.data s with
    | Some n =>
        if decide (Chunk.num n < chunksize)%nat
        then Chunk.items n' = val :: Chunk.items n /\
             wl' = ChunkedAdaptor.worklist s
        else Chunk.items n' = [val] /\
             wl' = wl_push n (ChunkedAdaptor.worklist s)
    | None => Chunk.items n' = [val] /\ wl' = ChunkedAdaptor.worklist s
    end.
Proof.
  intros Hcs Hwf. unfold ChunkedAdaptor.push.
  destruct (Chunk_push_room chunksize val (Chunk.new T0 chunksize)
              (Chunk_new_wf T0 chunksize))
    as (f & Hf & Hfwf & Hfitems & _); [exact Hcs|].
  destruct s as [[n|] wl]; cbn [ChunkedAdaptor.data ChunkedAdaptor.worklist] in *.
  - destruct (decide (Chunk.num n < chunksize)%nat) as [Hroom|Hfull].
    + destruct (Chunk_push_room chunksize val n (Hwf n eq_refl) Hroom)
        as (n' & Hn' & Hwf' & Hitems & _).
      rewrite Hn'. exists n', wl. auto.
    + rewrite (Chunk_push_full chunksize val n Hfull).
      unfold ChunkedAdaptor.mkChunk. rewrite Hf. cbn [snd].
      exists f, (wl_push n wl). auto.
  - unfold ChunkedAdaptor.mkChunk. rewrite Hf. cbn [snd].
    exists f, wl. auto.
Qed.

(** A bulk push into a chunk with room takes at least one item. *)
Lemma Chunk_push_range_length (b : list T) (c : Chunk.t T) :
  (length (Chunk.push_range chunksize b c).1 <= length b)%nat /\
  (b <> [] -> (Chunk.num c < chunksize)%nat ->
   (length (Chunk.push_range chunksize b c).1 < length b)%nat).
Proof.
  revert c. induction b as [|x b IH]; intros c.
  - cbn. split; [lia|congruence].
  - cbn [Chunk.push_range].
    destruct (decide (Chunk.num c < chunksize)%nat) as [Hroom|Hfull].
    + destruct (IH (Chunk.mk (<[Chunk.num c := x]> (Chunk.data c))
                             (S (Chunk.num c)) (Chunk.next c))) as [Hle _].
      cbn [length]. split; [lia|]. intros _ _. lia.
    + cbn [fst length]. split; [lia|]. intros _ Hroom. contradiction.
Qed.
End AdaptorFacts.

(** C10.  With chunks of at least one cell, [push] returns [true] in every
    state of the adaptor, and the value is then the top item of the current
    chunk: of the chunk that was current when it had room (the worklist is
    unchanged), of a fresh chunk when the current one was full (and has been
    published with [worklist.push]) or absent. *)
Theorem push_total {T gWL : Type} `{!WorkList T gWL} (T0 : T) (chunksize : nat)
    (val : T) (s : ChunkedAdaptor.t T gWL) :
  (0 < chunksize)%nat ->
  (forall n, ChunkedAdaptor.data s = Some n -> Chunk.wf chunksize n) ->
  exists n' wl',
    ChunkedAdaptor.push T0 chunksize val s
    = (true, ChunkedAdaptor.mk (Some n') wl') /\
    Chunk.wf chunksize n' /\
    match ChunkedAdaptor.data s with
    | Some n =>
        if decide (Chunk.num n < chunksize)%nat
        then Chunk.items n' = val :: Chunk.items n /\
             wl' = ChunkedAdaptor.worklist s
        else Chunk.items n' = [val] /\
             wl' = wl_push n (ChunkedAdaptor.worklist s)
    | None => Chunk.items n' = [val] /\ wl' = ChunkedAdaptor.worklist s
    end.
Proof. apply push_cases. Qed.

Lemma push_total_witness :
  exists n' wl',
    ChunkedAdaptor.push 0 2 7 (ChunkedAdaptor.init (LIFO_SB.init (T := Z)))
    = (true, ChunkedAdaptor.mk (Some n') wl') /\
    Chunk.wf 2 n' /\
    Chunk.items n' = [7] /\ wl' = LIFO_SB.init.
Proof.
  apply (push_total 0 2 7 (ChunkedAdaptor.init (LIFO_SB.init (T := Z)))).
  - lia.
  - intros n Hn. discriminate Hn.
Defined.

(** ** [pushi] *)

(** C9, counterexample.  On a fresh adaptor over an [InitialQueue],
    [pushi(7)] makes a current chunk holding 7 and leaves the initial queue
    empty: the item went into the worker's chunk, not through
    [worklist.pushi]. *)
Lemma pushi_single_changes_chunk :
  let s' := (ChunkedAdaptor.pushi 0 2 7 iq_adaptor).2 in
  ChunkedAdaptor.data s' <> ChunkedAdaptor.data iq_adaptor /\
  (Chunk.items <$> ChunkedAdaptor.data s') = Some [7] /\
  InitialQueue.global (ChunkedAdaptor.worklist s') = LIFO_SB.init.
Proof.
  cbv zeta. split; [|split; reflexivity].
  intros H. vm_compute in H. discriminate H.
Qed.

(** ** Sums over arrays *)

Lemma sumZ_insert {A : Type} (f : A -> Z) (l : list A) (i : nat) (x y : A) :
  l !! i = Some x -> sumZ f (<[i := y]> l) = sumZ f l - f x + f y.
Proof.
  revert i. induction l as [|a l IH]; intros [|i] H; try discriminate.
  - injection H as ->. cbn. lia.
  - change (<[S i := y]> (a :: l)) with (a :: <[i := y]> l).
    change ((a :: l) !! S i) with (l !! i) in H.
    cbn [sumZ]. rewrite (IH i H). lia.
Qed.

Lemma sumZ_ext {A : Type} (f h : A -> Z) (l : list A) :
  (forall x, x ∈ l -> f x = h x) -> sumZ f l = sumZ h l.
Proof.
  induction l as [|a l IH]; intros H; [reflexivity|].
  cbn. rewrite (H a) by left. rewrite IH; [reflexivity|].
  intros x Hx. apply H. right. assumption.
Qed.

Lemma sumZ_add {A : Type} (f h : A -> Z) (l : list A) :
  sumZ (fun x => f x + h x) l = sumZ f l + sumZ h l.
Proof. induction l as [|a l IH]; cbn; lia. Qed.

Lemma sumZ_bounds {A : Type} (f : A -> Z) (l : list A) :
  (forall x, x ∈ l -> 0 <= f x <= 1) ->
  0 <= sumZ f l <= Z.of_nat (length l).
Proof.
  induction l as [|a l IH]; intros H; cbn [sumZ length]; [lia|].
  assert (0 <= f a <= 1) by (apply H; left).
  assert (0 <= sumZ f l <= Z.of_nat (length l))
    by (apply IH; intros x Hx; apply H; right; assumption).
  lia.
Qed.

Lemma sumZ_const_one {A : Type} (f : A -> Z) (l : list A) :
  (forall x, x ∈ l -> f x = 1) -> sumZ f l = Z.of_nat (length l).
Proof.
  induction l as [|a l IH]; intros H; cbn [sumZ length]; [lia|].
  rewrite (H a) by left. rewrite IH; [lia|].
  intros x Hx. apply H. right. assumption.
Qed.

(** ** wrap64 *)

Lemma wrap64_range (z : Z) : 0 <= wrap64 z < two64.
Proof. unfold wrap64. apply Z.mod_pos_bound. reflexivity. Qed.

Lemma wrap64_small (z : Z) : 0 <= z < two64 -> wrap64 z = z.
Proof. unfold wrap64. apply Z.mod_small. Qed.

Lemma wrap64_add_l (a b : Z) : wrap64 (wrap64 a + b) = wrap64 (a + b).
Proof. unfold wrap64. apply Zplus_mod_idemp_l. Qed.

Lemma wrap64_sub_l (a b : Z) : wrap64 (wrap64 a - b) = wrap64 (a - b).
Proof. unfold wrap64. apply Zminus_mod_idemp_l. Qed.

Lemma wrap64_le (z : Z) : 0 <= z -> wrap64 z <= z.
Proof. intros H. unfold wrap64. apply Z.mod_le; [assumption|reflexivity]. Qed.

Lemma wrap64_shift (a k : Z) : wrap64 (a + k * two64) = wrap64 a.
Proof. unfold wrap64. apply Z_mod_plus_full. Qed.

(** ** A migration *)

Lemma migrate_Some (c_info : CommArray) (t x w : Z) (ct cx : Comm.t) :
  t <> x -> at_ c_info t = Some ct -> at_ c_info x = Some cx ->
  migrate c_info t x w
  = Some (<[Z.to_nat x := Comm.mk (wrap64 (Comm.size cx - 1))
                                  (wrap64 (Comm.degree_wt cx - w))]>
          (<[Z.to_nat t := Comm.mk (wrap64 (Comm.size ct + 1))
                                   (wrap64 (Comm.degree_wt ct + w))]> c_info)).
Proof.
  intros Hne Ht Hx.
  pose proof (at_in_range _ _ _ Ht) as Hrt.
  pose proof (at_in_range _ _ _ Hx) as Hrx.
  pose proof (at_range _ _ _ Ht) as Hbt.
  unfold migrate, atomicAdd_degree_wt, atomicAdd_size,
    atomicSubtract_degree_wt, atomicSubtract_size.
  rewrite Ht. cbn [mbind option_bind]. rewrite (set_Some _ _ _ Hrt).
  cbn [mbind option_bind]. rewrite (at_insert_eq _ _ _ Hrt).
  cbn [mbind option_bind Comm.size Comm.degree_wt].
  rewrite set_Some by (rewrite in_range_insert; exact Hrt).
  cbn [mbind option_bind]. rewrite list_insert_insert_eq.
  rewrite at_insert_ne by lia. rewrite Hx. cbn [mbind option_bind].
  rewrite set_Some by (rewrite in_range_insert; exact Hrx).
  cbn [mbind option_bind]. rewrite at_insert_eq by (rewrite in_range_insert; exact Hrx).
  cbn [mbind option_bind Comm.size Comm.degree_wt].
  rewrite set_Some by (rewrite !in_range_insert; exact Hrx).
  rewrite list_insert_insert_eq. reflexivity.
Qed.

(** A migration that returns found both records. *)
Lemma migrate_inv (c_info c_info' : CommArray) (t x w : Z) :
  migrate c_info t x w = Some c_info' ->
  exists ct cx, at_ c_info t = Some ct /\ at_ c_info x = Some cx.
Proof.
  unfold migrate, atomicAdd_degree_wt, atomicAdd_size. intros H.
  destruct (at_ c_info t) as [ct|] eqn:Ht; [|discriminate].
  exists ct. pose proof (at_in_range _ _ _ Ht) as Hrt.
  assert (in_range c_info x = true) as Hrx.
  { cbn [mbind option_bind] in H. rewrite (set_Some _ _ _ Hrt) in H.
    cbn [mbind option_bind] in H. rewrite (at_insert_eq _ _ _ Hrt) in H.
    cbn [mbind option_bind] in H.
    rewrite set_Some in H by (rewrite in_range_insert; exact Hrt).
    cbn [mbind option_bind] in H. unfold atomicSubtract_degree_wt in H.
    match type of H with
    | context [at_ ?l x] => destruct (at_ l x) as [c|] eqn:E; [|discriminate]
    end.
    apply at_in_range in E. rewrite !in_range_insert in E. exact E. }
  destruct (at_is_Some _ _ Hrx) as [cx Hx]. exists cx. auto.
Qed.

Lemma total_degree_wt_migrate (c_info : CommArray) (t x w : Z) (ct cx : Comm.t) :
  t <> x -> at_ c_info t = Some ct -> at_ c_info x = Some cx ->
  total_degree_wt
    (<[Z.to_nat x := Comm.mk (wrap64 (Comm.size cx - 1))
                             (wrap64 (Comm.degree_wt cx - w))]>
     (<[Z.to_nat t := Comm.mk (wrap64 (Comm.size ct + 1))
                              (wrap64 (Comm.degree_wt ct + w))]> c_info))
  = total_degree_wt c_info
    - Comm.degree_wt ct + wrap64 (Comm.degree_wt ct + w)
    - Comm.degree_wt cx + wrap64 (Comm.degree_wt cx - w).
Proof.
  intros Hne Ht Hx. unfold total_degree_wt.
  apply at_Some in Ht as [Ht0 Ht]. apply at_Some in Hx as [Hx0 Hx].
  rewrite (sumZ_insert _ _ _ cx).
  - rewrite (sumZ_insert _ _ _ ct _ Ht). cbn [Comm.degree_wt]. lia.
  - rewrite list_lookup_insert_ne by lia. exact Hx.
Qed.

Lemma set_curr_same (d : Node.t) :
  Node.set_curr_comm_ass d (Node.curr_comm_ass d) = d.
Proof. destruct d. reflexivity. Qed.

(** What a run of the operator on vertex [n] did. *)
Lemma louvain_op_inv (g : Graph) (constant : double) (n : Z)
    (nodes nodes' : NodeData) (c_info c_info' : CommArray) :
  louvain_op g constant n (nodes, c_info) = Some (nodes', c_info') ->
  exists d t,
    at_ nodes n = Some d /\
    local_target_of g constant nodes c_info n d = Some t /\
    nodes' = <[Z.to_nat n := Node.set_curr_comm_ass d t]> nodes /\
    (if negb (t =? Node.curr_comm_ass d) && negb (t =? minus_one)
     then migrate c_info t (Node.curr_comm_ass d) (Node.degree_wt d) = Some c_info'
     else c_info' = c_info).
Proof.
  unfold louvain_op. intros H.
  destruct (at_ nodes n) as [d|] eqn:Hd; [|discriminate].
  cbn [mbind option_bind] in H.
  destruct (local_target_of g constant nodes c_info n d) as [t|] eqn:Ht;
    [|discriminate].
  cbn [mbind option_bind] in H. exists d, t.
  split; [reflexivity|]. split; [exact Ht|].
  destruct (negb (t =? Node.curr_comm_ass d) && negb (t =? minus_one)).
  - destruct (migrate c_info t (Node.curr_comm_ass d) (Node.degree_wt d))
      as [c1|]; [|discriminate].
    cbn [mbind option_bind] in H.
    destruct (set_ nodes n (Node.set_curr_comm_ass d t)) as [n1|] eqn:Hs;
      [|discriminate].
    cbn [mbind option_bind] in H. injection H as <- <-.
    apply set_inv in Hs as [_ ->]. auto.
  - cbn [mbind option_bind] in H.
    destruct (set_ nodes n (Node.set_curr_comm_ass d t)) as [n1|] eqn:Hs;
      [|discriminate].
    cbn [mbind option_bind] in H. injection H as <- <-.
    apply set_inv in Hs as [_ ->]. auto.
Qed.

(** C4.  When the operator of the iteration has run on a vertex whose
    community was [x] and is [t] afterwards: if [t = x] or [t = -1] it left
    [c_info] alone; otherwise it added [(degree_wt, 1)] to [c_info[t]],
    subtracted the same from [c_info[x]] (on 64 bits) and touched no other
    record, so that the sum of [c_info[c].degree_wt] over all communities is
    the same modulo [2^64], and the same outright when neither update
    wraps. *)
Theorem migration_conserves_degree_wt (g : Graph) (constant : double) (n : Z)
    (nodes nodes' : NodeData) (c_info c_info' : CommArray) (d d' : Node.t) :
  louvain_op g constant n (nodes, c_info) = Some (nodes', c_info') ->
  at_ nodes n = Some d -> at_ nodes' n = Some d' ->
  let x := Node.curr_comm_ass d in
  let t := Node.curr_comm_ass d' in
  let w := Node.degree_wt d in
  (t = x \/ t = minus_one -> c_info' = c_info) /\
  (t <> x -> t <> minus_one ->
   exists ct cx,
     at_ c_info t = Some ct /\ at_ c_info x = Some cx /\
     at_ c_info' t = Some (Comm.mk (wrap64 (Comm.size ct + 1))
                                   (wrap64 (Comm.degree_wt ct + w))) /\
     at_ c_info' x = Some (Comm.mk (wrap64 (Comm.size cx - 1))
                                   (wrap64 (Comm.degree_wt cx - w))) /\
     (forall c, c <> t -> c <> x -> at_ c_info' c = at_ c_info c) /\
     wrap64 (total_degree_wt c_info') = wrap64 (total_degree_wt c_info) /\
     (0 <= w <= Comm.degree_wt cx -> Comm.degree_wt cx < two64 ->
      0 <= Comm.degree_wt ct -> Comm.degree_wt ct + w < two64 ->
      total_degree_wt c_info' = total_degree_wt c_info)).
Proof.
  intros Hop Hd Hd'.
  destruct (louvain_op_inv _ _ _ _ _ _ _ Hop) as (d0 & t0 & Hd0 & _ & Hn' & Hc).
  assert (d0 = d) by congruence. subst d0.
  assert (Hr : in_range nodes n = true) by (eapply at_in_range; eauto).
  rewrite Hn', (at_insert_eq _ _ _ Hr) in Hd'. injection Hd' as <-.
  cbn [Node.set_curr_comm_ass Node.curr_comm_ass]. cbv zeta.
  destruct (Z.eqb_spec t0 (Node.curr_comm_ass d)) as [Heq|Hne];
    cbn [negb andb] in Hc.
  { split; [intros _; exact Hc|]. intros Hne. contradiction. }
  destruct (Z.eqb_spec t0 minus_one) as [Heq1|Hne1]; cbn [negb] in Hc.
  { split; [intros _; exact Hc|]. intros _ Hne1. contradiction. }
  split; [intros [?|?]; contradiction|]. intros _ _.
  destruct (migrate_inv _ _ _ _ _ Hc) as (ct & cx & Ht & Hx).
  rewrite (migrate_Some _ _ _ _ _ _ Hne Ht Hx) in Hc. injection Hc as <-.
  pose proof (at_in_range _ _ _ Ht) as Hrt.
  pose proof (at_in_range _ _ _ Hx) as Hrx.
  pose proof (at_range _ _ _ Ht) as Hbt.
  pose proof (at_range _ _ _ Hx) as Hbx.
  exists ct, cx. split; [assumption|]. split; [assumption|]. split.
  { rewrite at_insert_ne by lia. apply at_insert_eq. assumption. }
  split.
  { apply at_insert_eq. rewrite in_range_insert. assumption. }
  split.
  { intros c Hct Hcx. rewrite !at_insert_ne by lia. reflexivity. }
  rewrite (total_degree_wt_migrate _ _ _ _ _ _ Hne Ht Hx). split.
  - unfold wrap64 at 2 3.
    rewrite (Z.mod_eq (Comm.degree_wt ct + Node.degree_wt d) two64)
      by (unfold two64; lia).
    rewrite (Z.mod_eq (Comm.degree_wt cx - Node.degree_wt d) two64)
      by (unfold two64; lia).
    match goal with
    | |- wrap64 ?a = wrap64 ?b =>
        replace a with
          (b + (- ((Comm.degree_wt ct + Node.degree_wt d) / two64)
                - ((Comm.degree_wt cx - Node.degree_wt d) / two64)) * two64)
          by lia
    end.
    apply wrap64_shift.
  - intros H1 H2 H3 H4. rewrite !wrap64_small by lia. lia.
Qed.

Lemma migration_conserves_degree_wt_witness :
  (0 = 1 \/ 0 = minus_one -> eai_c_info' = eai_c_info) /\
  (0 <> 1 -> 0 <> minus_one ->
   exists ct cx,
     at_ eai_c_info 0 = Some ct /\ at_ eai_c_info 1 = Some cx /\
     at_ eai_c_info' 0 = Some (Comm.mk (wrap64 (Comm.size ct + 1))
                                       (wrap64 (Comm.degree_wt ct + 1))) /\
     at_ eai_c_info' 1 = Some (Comm.mk (wrap64 (Comm.size cx - 1))
                                       (wrap64 (Comm.degree_wt cx - 1))) /\
     (forall c, c <> 0 -> c <> 1 -> at_ eai_c_info' c = at_ eai_c_info c) /\
     wrap64 (total_degree_wt eai_c_info') = wrap64 (total_degree_wt eai_c_info) /\
     (0 <= 1 <= Comm.degree_wt cx -> Comm.degree_wt cx < two64 ->
      0 <= Comm.degree_wt ct -> Comm.degree_wt ct + 1 < two64 ->
      total_degree_wt eai_c_info' = total_degree_wt eai_c_info)).
Proof.
  apply (migration_conserves_degree_wt edge_and_isolated one_half 1
           eai_nodes eai_nodes' eai_c_info eai_c_info'
           (Node.mk 1 1 1 0) (Node.mk 1 0 1 0)).
  - vm_compute. reflexivity.
  - reflexivity.
  - reflexivity.
Defined.

(** ** Loops *)

Lemma do_all_inv {E S : Type} (op : E -> S -> option S) (I : S -> Prop)
    (l : list E) (s : S) :
  (forall x s, x ∈ l -> I s -> exists s', op x s = Some s' /\ I s') ->
  I s -> exists s', do_all op l s = Some s' /\ I s'.
Proof.
  revert s. induction l as [|x l IH]; intros s Hstep Hs.
  - exists s. auto.
  - destruct (Hstep x s) as (s1 & Hop & Hs1); [left|assumption|].
    destruct (IH s1) as (s2 & Hloop & Hs2); [|assumption|].
    { intros y s0 Hy. apply Hstep. right. assumption. }
    exists s2. cbn [do_all]. rewrite Hop. auto.
Qed.

(** A loop over [lo, lo + len) whose invariant follows the index. *)
Lemma do_all_seqZ_inv {St : Type} (op : Z -> St -> option St)
    (I : Z -> St -> Prop) (len : nat) (lo : Z) (s : St) :
  (forall i s, lo <= i < lo + Z.of_nat len -> I i s ->
               exists s', op i s = Some s' /\ I (i + 1) s') ->
  I lo s ->
  exists s', do_all op (seqZ lo (Z.of_nat len)) s = Some s' /\
             I (lo + Z.of_nat len) s'.
Proof.
  revert lo s. induction len as [|len IH]; intros lo s Hstep Hs.
  - exists s. rewrite Z.add_0_r. auto.
  - rewrite seqZ_cons by lia.
    destruct (Hstep lo s) as (s1 & Hop & Hs1); [lia|assumption|].
    replace (Z.pred (Z.of_nat (S len))) with (Z.of_nat len) by lia.
    destruct (IH (Z.succ lo) s1) as (s2 & Hloop & Hs2).
    { intros i s0 Hi. apply Hstep. lia. }
    { replace (Z.succ lo) with (lo + 1) by lia. assumption. }
    exists s2. cbn [do_all]. rewrite Hop. cbn [mbind option_bind].
    split; [assumption|].
    replace (lo + Z.of_nat (S len)) with (Z.succ lo + Z.of_nat len) by lia.
    assumption.
Qed.

(** ** Well-formed graphs *)

Lemma nondecreasing_lookup (lo : Z) (l : list Z) (i : nat) (x : Z) :
  nondecreasing lo l = true -> l !! i = Some x -> lo <= x.
Proof.
  revert lo i. induction l as [|a l IH]; intros lo i H Hx; [discriminate|].
  cbn in H. apply andb_true_iff in H as [Ha Hl]. apply Z.leb_le in Ha.
  destruct i as [|i].
  - injection Hx as <-. assumption.
  - specialize (IH a i Hl Hx). lia.
Qed.

Lemma nondecreasing_step (lo : Z) (l : list Z) (i : nat) (x y : Z) :
  nondecreasing lo l = true -> l !! i = Some x -> l !! S i = Some y -> x <= y.
Proof.
  revert lo i. induction l as [|a l IH]; intros lo i H Hx Hy; [discriminate|].
  cbn in H. apply andb_true_iff in H as [Ha Hl].
  destruct i as [|i].
  - injection Hx as <-. eapply nondecreasing_lookup; eauto.
  - eapply IH; eauto.
Qed.

Section WfGraph.
Variable g : Graph.
Hypothesis Hwf : wf_graph g = true.

Lemma wf_parts :
  nondecreasing 0 (edgeIndData g) = true /\
  (forall e, e ∈ edgeIndData g -> e <= Z.of_nat (length (edgeDst g))) /\
  length (edgeData g) = length (edgeDst g) /\
  Z.of_nat (length (edgeDst g)) < two64 /\
  graph_size g < minus_one /\
  (forall d, d ∈ edgeDst g ->
             in_range (edgeIndData g) d = true /\ isolated g d = false).
Proof.
  unfold wf_graph in Hwf. rewrite !andb_true_iff in Hwf.
  destruct Hwf as (((((H1 & H2) & H3) & H4) & H5) & H6).
  split; [assumption|]. split.
  { rewrite forallb_forall in H2. intros e He.
    apply Z.leb_le. apply H2. apply list_elem_of_In. assumption. }
  split; [apply Nat.eqb_eq; assumption|].
  split; [apply Z.ltb_lt; assumption|].
  split; [apply Z.ltb_lt; assumption|].
  rewrite forallb_forall in H6. intros d Hd.
  specialize (H6 d (proj1 (list_elem_of_In _ _) Hd)).
  apply andb_true_iff in H6 as [Ha Hb]. split; [assumption|].
  apply negb_true_iff. assumption.
Qed.

(** The row of a vertex of the graph. *)
Lemma wf_row (n : Z) :
  in_range (edgeIndData g) n = true ->
  exists b e, edge_begin g n = Some b /\ edge_end g n = Some e /\
              0 <= b <= e /\ e <= Z.of_nat (length (edgeDst g)).
Proof.
  intros Hn. destruct wf_parts as (Hmono & Hle & _).
  destruct (at_is_Some _ _ Hn) as [e He].
  pose proof (proj1 (in_range_spec _ _) Hn) as Hb.
  pose proof (proj1 (at_Some _ _ _) He) as [_ Hel].
  assert (e <= Z.of_nat (length (edgeDst g))).
  { apply Hle. apply list_elem_of_lookup. eauto. }
  unfold edge_begin, edge_end. destruct (Z.eqb_spec n 0) as [->|Hn0].
  - exists 0, e. repeat split; try assumption; try lia.
    eapply nondecreasing_lookup; eauto.
  - assert (Hp : in_range (edgeIndData g) (n - 1) = true)
      by (apply in_range_spec; lia).
    destruct (at_is_Some _ _ Hp) as [b Hbv].
    pose proof (proj1 (at_Some _ _ _) Hbv) as [_ Hbl].
    exists b, e. repeat split; try assumption.
    + eapply nondecreasing_lookup; eauto.
    + eapply (nondecreasing_step 0 _ (Z.to_nat (n - 1))); eauto.
      replace (S (Z.to_nat (n - 1))) with (Z.to_nat n) by lia. assumption.
Qed.

Lemma wf_distance (n b e : Z) :
  edge_begin g n = Some b -> edge_end g n = Some e ->
  0 <= b <= e -> e <= Z.of_nat (length (edgeDst g)) ->
  distance g n = Some (e - b) /\
  edges g n = Some (seqZ b (e - b)) /\
  isolated g n = (e - b =? 0).
Proof.
  intros Hb He Hbe Hel. destruct wf_parts as (_ & _ & _ & Hlt & _).
  unfold isolated, distance, edges. rewrite Hb, He. cbn [mbind option_bind].
  rewrite wrap64_small by lia.
  destruct (Z.leb_spec b e); [|lia]. auto.
Qed.

(** The edges of a row lead to vertices with edges and carry a weight. *)
Lemma wf_edge (ii : Z) :
  0 <= ii < Z.of_nat (length (edgeDst g)) ->
  exists dst w, getEdgeDst g ii = Some dst /\ getEdgeData g ii = Some w /\
                in_range (edgeIndData g) dst = true /\ isolated g dst = false.
Proof.
  intros Hii. destruct wf_parts as (_ & _ & Hlen & _ & _ & Hdst).
  assert (H1 : in_range (edgeDst g) ii = true) by (apply in_range_spec; lia).
  assert (H2 : in_range (edgeData g) ii = true) by (apply in_range_spec; lia).
  destruct (at_is_Some _ _ H1) as [dst Hd].
  destruct (at_is_Some _ _ H2) as [w Hw].
  exists dst, w. unfold getEdgeDst, getEdgeData.
  split; [assumption|]. split; [assumption|].
  apply Hdst. apply at_Some in Hd as [_ Hd].
  apply list_elem_of_lookup. eauto.
Qed.

Lemma wf_minus_one_outside : in_range (edgeIndData g) minus_one = false.
Proof.
  destruct wf_parts as (_ & _ & _ & _ & Hn & _). unfold graph_size in Hn.
  destruct (in_range (edgeIndData g) minus_one) eqn:E; [|reflexivity].
  apply in_range_spec in E. lia.
Qed.
End WfGraph.

(** ** std::map *)

Lemma elem_of_map_insert (m : std_map) (k v : Z) (e : Z * Z) :
  e ∈ map_insert m k v -> e = (k, v) \/ e ∈ m.
Proof.
  induction m as [|[k' v'] m IH]; cbn [map_insert].
  - intros H. apply list_elem_of_singleton in H. auto.
  - destruct (k <? k').
    + intros H. apply elem_of_cons in H as [H|H]; auto.
    + destruct (k =? k').
      * intros H. apply elem_of_cons in H as [H|H]; [auto|].
        right. right. assumption.
      * intros H. apply elem_of_cons in H as [H|H].
        -- right. subst e. left.
        -- destruct (IH H) as [?|?]; [auto|]. right. right. assumption.
Qed.

Lemma map_insert_sorted (m : std_map) (k v : Z) :
  map_sorted m -> map_sorted (map_insert m k v).
Proof.
  unfold map_sorted. induction m as [|[k' v'] m IH]; intros Hs; cbn [map_insert].
  - repeat constructor.
  - apply StronglySorted_inv in Hs as [Hs Hall].
    destruct (Z.ltb_spec k k') as [Hlt|Hge].
    + constructor; [constructor; assumption|].
      constructor; [exact Hlt|].
      eapply Forall_impl; [exact Hall|]. intros [a b] Hab. cbn in *. lia.
    + destruct (Z.eqb_spec k k') as [->|Hne].
      * constructor; assumption.
      * constructor; [apply IH; assumption|].
        apply Forall_forall. intros e He.
        apply elem_of_map_insert in He as [->|He].
        -- cbn. lia.
        -- rewrite Forall_forall in Hall. apply Hall. assumption.
Qed.

Lemma map_insert_nonempty (m : std_map) (k v : Z) : map_insert m k v <> [].
Proof.
  destruct m as [|[k' v'] m]; cbn [map_insert]; [discriminate|].
  destruct (k <? k'); [discriminate|]. destruct (k =? k'); discriminate.
Qed.

Lemma map_find_Some (m : std_map) (k v : Z) :
  map_find m k = Some v -> (k, v) ∈ m.
Proof.
  induction m as [|[k' v'] m IH]; cbn [map_find]; [discriminate|].
  destruct (Z.eqb_spec k k') as [->|Hne].
  - intros [= ->]. left.
  - intros H. right. apply IH. assumption.
Qed.

(** ** The choice of a target *)

Section Target.
Variable g : Graph.
Hypothesis Hwf : wf_graph g = true.
Variables (constant : double) (nodes : NodeData) (c_info : CommArray).
Hypothesis Hnodes : length nodes = length (edgeIndData g).
Hypothesis Hcomm :
  forall n d, at_ nodes n = Some d -> isolated g n = false ->
              in_range c_info (Node.curr_comm_ass d) = true.

Lemma scan_edge_ok (n ii : Z) (st : std_map * list Z * Z * Z) :
  0 <= ii < Z.of_nat (length (edgeDst g)) ->
  scan_ok c_info st ->
  exists st', scan_edge g nodes n ii st = Some st' /\ scan_ok c_info st'.
Proof.
  intros Hii. destruct st as [[[m counter] num] slw].
  intros (Hs & Hne & Hr & H0 & Hnum).
  destruct (wf_edge g Hwf ii Hii) as (dst & w & Hdst & Hw & Hdr & Hiso).
  unfold scan_edge. rewrite Hdst, Hw. cbn [mbind option_bind].
  assert (Hdn : in_range nodes dst = true).
  { apply in_range_spec. apply in_range_spec in Hdr. lia. }
  destruct (at_is_Some _ _ Hdn) as [d Hd]. rewrite Hd.
  cbn [mbind option_bind].
  pose proof (Hcomm dst d Hd Hiso) as Hcd.
  destruct (map_find m (Node.curr_comm_ass d)) as [idx|] eqn:Hfind.
  - apply map_find_Some in Hfind.
    unfold map_in_range in Hr. rewrite Forall_forall in Hr.
    destruct (Hr _ Hfind) as [_ Hidx]. cbn [snd] in Hidx.
    destruct (at_is_Some _ _ Hidx) as [c Hc]. rewrite Hc.
    cbn [mbind option_bind]. rewrite (set_Some _ _ _ Hidx).
    cbn [mbind option_bind]. eexists. split; [reflexivity|].
    split; [assumption|]. split; [assumption|]. split.
    { apply Forall_forall. intros e He. destruct (Hr e He) as [H1 H2].
      split; [assumption|]. rewrite in_range_insert. assumption. }
    split.
    { rewrite in_range_insert. assumption. }
    rewrite length_insert. assumption.
  - eexists. split; [reflexivity|].
    split; [apply map_insert_sorted; assumption|].
    split; [apply map_insert_nonempty|]. split.
    { apply Forall_forall. intros e He.
      apply elem_of_map_insert in He as [->|He].
      - cbn [fst snd]. split; [assumption|].
        apply in_range_spec. rewrite length_app. cbn [length]. lia.
      - unfold map_in_range in Hr. rewrite Forall_forall in Hr.
        destruct (Hr e He) as [H1 H2]. split; [assumption|].
        apply in_range_spec. apply in_range_spec in H2.
        rewrite length_app. lia. }
    split.
    { apply in_range_spec. apply in_range_spec in H0.
      rewrite length_app. lia. }
    rewrite length_app. cbn [length].
    pose proof (wrap64_range (num + 1)).
    pose proof (wrap64_le (num + 1)). lia.
Qed.

(** The target is [-1] for an isolated vertex and a community of [c_info]
    otherwise. *)
Lemma local_target_of_defined (n : Z) (d : Node.t) :
  at_ nodes n = Some d ->
  exists t, local_target_of g constant nodes c_info n d = Some t /\
            (if isolated g n then t = minus_one
             else in_range c_info t = true).
Proof.
  intros Hd.
  assert (Hn : in_range (edgeIndData g) n = true).
  { apply at_range in Hd. apply in_range_spec. lia. }
  destruct (wf_row g Hwf n Hn) as (b & e & Hb & He & Hbe & Hel).
  destruct (wf_distance g Hwf n b e Hb He Hbe Hel) as (Hdist & Hedges & Hiso).
  unfold local_target_of. rewrite Hdist. cbn [mbind option_bind].
  rewrite Hiso. destruct (Z.eqb_spec (e - b) 0) as [Hz|Hnz].
  - rewrite Hz. change (0 <? 0) with false. exists minus_one. auto.
  - destruct (Z.ltb_spec 0 (e - b)) as [Hpos|]; [|lia].
    rewrite Hedges. cbn [mbind option_bind].
    pose proof (Hcomm n d Hd Hiso) as Hsc.
    destruct (do_all_inv (scan_edge g nodes n) (scan_ok c_info)
                (seqZ b (e - b))
                (map_insert [] (Node.curr_comm_ass d) 0, [0], 1, 0))
      as ([[[m counter] num] slw] & Hscan & Hok).
    { intros ii st Hii Hst. apply scan_edge_ok; [|assumption].
      apply elem_of_seqZ in Hii. lia. }
    { cbn [map_insert]. split.
      - repeat constructor.
      - split; [discriminate|]. split.
        + repeat constructor. assumption.
        + split; [reflexivity|]. cbn [length]. lia. }
    rewrite Hscan. cbn [mbind option_bind].
    destruct Hok as (Hs & Hne & Hr & H0 & _).
    destruct (maxModularity_defined m counter slw c_info (Node.degree_wt d)
                (Node.curr_comm_ass d) constant Hs Hne Hr H0 Hsc)
      as (r & gr & _ & Hkey & Hres).
    rewrite Hres. eexists. split; [reflexivity|].
    destruct (singleton_swap c_info (Node.curr_comm_ass d) r); [assumption|].
    destruct Hkey as [->|[i Hi]]; [assumption|].
    unfold map_in_range in Hr. rewrite Forall_forall in Hr.
    apply (Hr _ Hi).
Qed.
End Target.

(** ** Indexed arrays *)

Lemma indexed_from_lookup {A : Type} (k : Z) (l : list A) (i : nat) :
  indexed_from k l !! i = (fun x => (k + Z.of_nat i, x)) <$> l !! i.
Proof.
  revert k i. induction l as [|a l IH]; intros k i; [reflexivity|].
  destruct i as [|i].
  - cbn. rewrite Z.add_0_r. reflexivity.
  - cbn [indexed_from]. change ((a :: l) !! S i) with (l !! i).
    change (((k, a) :: indexed_from (k + 1) l) !! S i)
      with (indexed_from (k + 1) l !! i).
    rewrite IH. destruct (l !! i); [|reflexivity]. cbn. f_equal. f_equal. lia.
Qed.

Lemma indexed_from_insert {A : Type} (k : Z) (l : list A) (i : nat) (y : A) :
  indexed_from k (<[i := y]> l) = <[i := (k + Z.of_nat i, y)]> (indexed_from k l).
Proof.
  revert k i. induction l as [|a l IH]; intros k i; [reflexivity|].
  destruct i as [|i].
  - cbn. rewrite Z.add_0_r. reflexivity.
  - change (<[S i := y]> (a :: l)) with (a :: <[i := y]> l).
    cbn [indexed_from].
    change (<[S i := (k + Z.of_nat (S i), y)]> ((k, a) :: indexed_from (k + 1) l))
      with ((k, a) :: <[i := (k + Z.of_nat (S i), y)]> (indexed_from (k + 1) l)).
    rewrite IH. do 3 f_equal. lia.
Qed.

Lemma length_indexed_from {A : Type} (k : Z) (l : list A) :
  length (indexed_from k l) = length l.
Proof. revert k. induction l as [|a l IH]; intros k; cbn; [|rewrite IH]; reflexivity. Qed.

Lemma elem_of_indexed {A : Type} (l : list A) (i : Z) (x : A) :
  (i, x) ∈ indexed l -> at_ l i = Some x.
Proof.
  intros H. apply list_elem_of_lookup in H as [j Hj].
  unfold indexed in Hj. rewrite indexed_from_lookup in Hj.
  destruct (l !! j) as [y|] eqn:E; [|discriminate].
  cbn in Hj. injection Hj as <- <-.
  apply at_Some. split; [lia|].
  replace (Z.to_nat (0 + Z.of_nat j)) with j by lia. assumption.
Qed.

(** A sum over the indexed array after a write at [n]. *)
Lemma sumZ_indexed_insert {A : Type} (F : Z * A -> Z) (l : list A) (n : Z)
    (x y : A) :
  at_ l n = Some x ->
  sumZ F (indexed (<[Z.to_nat n := y]> l)) = sumZ F (indexed l) - F (n, x) + F (n, y).
Proof.
  intros H. apply at_Some in H as [Hn H]. unfold indexed.
  rewrite indexed_from_insert.
  rewrite (sumZ_insert F _ _ (n, x)).
  - rewrite Z2Nat.id by assumption. reflexivity.
  - rewrite indexed_from_lookup, H. cbn. rewrite Z2Nat.id by assumption.
    reflexivity.
Qed.

(** ** The operator keeps the invariant *)

Lemma member_count_update (g : Graph) (nodes : NodeData) (n : Z) (d d' : Node.t)
    (c : Z) :
  at_ nodes n = Some d ->
  member_count g (<[Z.to_nat n := d']> nodes) c
  = member_count g nodes c
    - (if is_member g c (n, d) then 1 else 0)
    + (if is_member g c (n, d') then 1 else 0).
Proof.
  intros H. unfold member_count.
  rewrite (sumZ_indexed_insert _ _ _ d d' H). reflexivity.
Qed.

Lemma member_weight_update (g : Graph) (nodes : NodeData) (n : Z) (d d' : Node.t)
    (c : Z) :
  at_ nodes n = Some d ->
  member_weight g (<[Z.to_nat n := d']> nodes) c
  = member_weight g nodes c
    - (if is_member g c (n, d) then Node.degree_wt d else 0)
    + (if is_member g c (n, d') then Node.degree_wt d' else 0).
Proof.
  intros H. unfold member_weight.
  rewrite (sumZ_indexed_insert _ _ _ d d' H). reflexivity.
Qed.

Lemma louvain_op_preserves (g : Graph) (constant : double) (n : Z)
    (nodes : NodeData) (c_info : CommArray) :
  wf_graph g = true -> louvain_inv g nodes c_info ->
  in_range (edgeIndData g) n = true ->
  exists nodes' c_info',
    louvain_op g constant n (nodes, c_info) = Some (nodes', c_info') /\
    louvain_inv g nodes' c_info'.
Proof.
  intros Hwf (Hlen & Hclen & Hcomm & Htally) Hn.
  assert (Hnn : in_range nodes n = true).
  { apply in_range_spec. apply in_range_spec in Hn. lia. }
  destruct (at_is_Some _ _ Hnn) as [d Hd].
  destruct (local_target_of_defined g Hwf constant nodes c_info Hlen Hcomm n d Hd)
    as (t & Ht & Hcase).
  unfold louvain_op. rewrite Hd. cbn [mbind option_bind].
  rewrite Ht. cbn [mbind option_bind].
  rewrite (set_Some _ _ _ Hnn).
  assert (Hcomm' : forall c_info' : CommArray,
             length c_info' = length c_info ->
             (isolated g n = false -> in_range c_info t = true) ->
             forall j dj,
               at_ (<[Z.to_nat n := Node.set_curr_comm_ass d t]> nodes) j = Some dj ->
               isolated g j = false ->
               in_range c_info' (Node.curr_comm_ass dj) = true).
  { intros c_info' Hl Hin j dj Hj Hisoj.
    assert (Hsame : forall z, in_range c_info' z = in_range c_info z)
      by (intros z; unfold in_range; rewrite Hl; reflexivity).
    rewrite Hsame. destruct (Z.eq_dec j n) as [->|Hjn].
    - rewrite (at_insert_eq _ _ _ Hnn) in Hj. injection Hj as <-.
      cbn [Node.set_curr_comm_ass Node.curr_comm_ass]. auto.
    - apply in_range_spec in Hnn.
      rewrite at_insert_ne in Hj by lia. eauto. }
  destruct (isolated g n) eqn:Hiso.
  - (* an isolated vertex *)
    subst t. rewrite Z.eqb_refl. cbn [negb]. rewrite andb_false_r.
    cbn [mbind option_bind]. eexists _, _. split; [reflexivity|].
    split; [rewrite length_insert; assumption|]. split; [assumption|]. split.
    { apply Hcomm'; [reflexivity|discriminate]. }
    intros c ci Hc. destruct (Htally c ci Hc) as [Hs Hw].
    rewrite (member_count_update g nodes n d _ c Hd).
    rewrite (member_weight_update g nodes n d _ c Hd).
    unfold is_member. cbn [fst]. rewrite Hiso. cbn [negb andb].
    rewrite Hs, Hw. split; f_equal; lia.
  - destruct (Z.eqb_spec t (Node.curr_comm_ass d)) as [Heq|Hne]; cbn [negb andb].
    + (* the vertex stays *)
      cbn [mbind option_bind]. subst t. rewrite set_curr_same.
      apply at_Some in Hd as [_ Hd]. rewrite (list_insert_id _ _ _ Hd).
      eexists _, _. split; [reflexivity|].
      exact (conj Hlen (conj Hclen (conj Hcomm Htally))).
    + (* a migration *)
      assert (Hm1 : t <> minus_one).
      { intros ->. pose proof (wf_minus_one_outside g Hwf) as Hout.
        unfold in_range in Hcase, Hout. rewrite Hclen in Hcase. congruence. }
      destruct (Z.eqb_spec t minus_one) as [|_]; [contradiction|]. cbn [negb].
      pose proof (Hcomm n d Hd Hiso) as Hx.
      destruct (at_is_Some _ _ Hcase) as [ct Hct].
      destruct (at_is_Some _ _ Hx) as [cx Hcx].
      rewrite (migrate_Some _ _ _ _ _ _ Hne Hct Hcx). cbn [mbind option_bind].
      eexists _, _. split; [reflexivity|].
      split; [rewrite length_insert; assumption|].
      split; [rewrite !length_insert; assumption|]. split.
      { apply Hcomm'; [rewrite !length_insert; reflexivity|auto]. }
      pose proof (at_range _ _ _ Hct) as Hbt.
      pose proof (at_range _ _ _ Hcx) as Hbx.
      destruct (Htally _ _ Hct) as [Hst Hwt].
      destruct (Htally _ _ Hcx) as [Hsx Hwx].
      intros c ci Hc.
      rewrite (member_count_update g nodes n d _ c Hd).
      rewrite (member_weight_update g nodes n d _ c Hd).
      unfold is_member. cbn [fst snd Node.set_curr_comm_ass Node.curr_comm_ass
                              Node.degree_wt].
      rewrite Hiso. cbn [negb andb].
      destruct (Z.eq_dec c (Node.curr_comm_ass d)) as [->|Hcx'].
      * rewrite (at_insert_eq _ _ _) in Hc
          by (rewrite in_range_insert; assumption).
        injection Hc as <-. cbn [Comm.size Comm.degree_wt].
        rewrite Z.eqb_refl. destruct (Z.eqb_spec t (Node.curr_comm_ass d));
          [contradiction|].
        rewrite Hsx, Hwx, wrap64_sub_l, wrap64_sub_l. split; f_equal; lia.
      * rewrite at_insert_ne in Hc by lia.
        destruct (Z.eqb_spec (Node.curr_comm_ass d) c) as [|_]; [congruence|].
        destruct (Z.eq_dec c t) as [->|Hct'].
        -- rewrite (at_insert_eq _ _ _ Hcase) in Hc. injection Hc as <-.
           cbn [Comm.size Comm.degree_wt]. rewrite Z.eqb_refl.
           rewrite Hst, Hwt, wrap64_add_l, wrap64_add_l. split; f_equal; lia.
        -- rewrite at_insert_ne in Hc by lia.
           destruct (Z.eqb_spec t c) as [|_]; [congruence|].
           destruct (Htally c ci Hc) as [Hs Hw]. rewrite Hs, Hw.
           split; f_equal; lia.
Qed.

(** ** Passes of the [for_each] loop *)

Lemma louvain_pass_preserves (g : Graph) (constant : double) (order : list Z)
    (st : NodeData * CommArray) :
  wf_graph g = true ->
  (forall v, v ∈ order -> in_range (edgeIndData g) v = true) ->
  louvain_inv g st.1 st.2 ->
  exists st', do_all (louvain_op g constant) order st = Some st' /\
              louvain_inv g st'.1 st'.2.
Proof.
  intros Hwf Ho Hinv.
  apply (do_all_inv (louvain_op g constant)
           (fun s => louvain_inv g s.1 s.2)); [|assumption].
  intros v [nodes c_info] Hv Hs. cbn [fst snd] in Hs.
  destruct (louvain_op_preserves g constant v nodes c_info Hwf Hs (Ho v Hv))
    as (nodes' & c_info' & Hop & Hinv').
  exists (nodes', c_info'). auto.
Qed.

Lemma louvain_passes_preserve (g : Graph) (constant : double)
    (sched : Z -> list Z) (k : nat) (num_iter : Z) (st : NodeData * CommArray) :
  wf_graph g = true ->
  (forall i v, v ∈ sched i -> in_range (edgeIndData g) v = true) ->
  louvain_inv g st.1 st.2 ->
  exists st', louvain_passes g constant sched k num_iter st = Some st' /\
              louvain_inv g st'.1 st'.2.
Proof.
  intros Hwf Hs. revert num_iter st.
  induction k as [|k IH]; intros num_iter st Hinv.
  - exists st. auto.
  - cbn [louvain_passes].
    destruct (louvain_pass_preserves g constant
                (sched ((num_iter + 1) mod 2 ^ 32)) st Hwf) as (st1 & Hp & Hinv1);
      [apply Hs|assumption|].
    rewrite Hp. cbn [mbind option_bind]. apply IH. assumption.
Qed.

(** ** The initialisation *)

Section Init.
Variable g : Graph.
Hypothesis Hwf : wf_graph g = true.

Lemma init_comm_loop (nodes : NodeData) :
  length nodes = length (edgeIndData g) ->
  exists nodes1,
    do_all init_comm (iterate g) nodes = Some nodes1 /\
    length nodes1 = length (edgeIndData g) /\
    forall j d, at_ nodes1 j = Some d -> Node.curr_comm_ass d = j.
Proof.
  intros Hlen. unfold iterate, graph_size.
  destruct (do_all_seqZ_inv init_comm
              (fun i l => length l = length (edgeIndData g) /\
                          forall j d, at_ l j = Some d -> j < i ->
                                      Node.curr_comm_ass d = j)
              (length (edgeIndData g)) 0 nodes) as (nodes1 & Hloop & Hl & Hc).
  - intros i l Hi [Hll Hlc].
    assert (Hr : in_range l i = true) by (apply in_range_spec; lia).
    destruct (at_is_Some _ _ Hr) as [d Hd].
    unfold init_comm. rewrite Hd. cbn [mbind option_bind].
    rewrite (set_Some _ _ _ Hr). eexists. split; [reflexivity|].
    split; [rewrite length_insert; assumption|].
    intros j dj Hj Hji. destruct (Z.eq_dec j i) as [->|Hne].
    + rewrite (at_insert_eq _ _ _ Hr) in Hj. injection Hj as <-. reflexivity.
    + rewrite at_insert_ne in Hj by lia. apply (Hlc j dj Hj). lia.
  - split; [assumption|]. intros j d Hj Hneg. apply at_range in Hj. lia.
  - exists nodes1. split; [assumption|]. split; [assumption|].
    intros j d Hj. apply (Hc j d Hj). apply at_range in Hj. lia.
Qed.

(** The weights of a row add up, on 64 bits. *)
Lemma edge_weights_defined (es : list Z) (acc : Z) :
  (forall ii, ii ∈ es -> 0 <= ii < Z.of_nat (length (edgeDst g))) ->
  0 <= acc < two64 ->
  exists tw, do_all (add_edge_weight g) es acc = Some tw /\ 0 <= tw < two64.
Proof.
  intros Hes Hacc.
  apply (do_all_inv (add_edge_weight g) (fun a => 0 <= a < two64));
    [|assumption].
  intros ii a Hii Ha.
  destruct (wf_edge g Hwf ii (Hes ii Hii)) as (dst & w & _ & Hw & _).
  unfold add_edge_weight. rewrite Hw. cbn [mbind option_bind].
  eexists. split; [reflexivity|]. apply wrap64_range.
Qed.

Lemma vertex_weight_spec (n : Z) :
  in_range (edgeIndData g) n = true ->
  exists es, edges g n = Some es /\
             do_all (add_edge_weight g) es 0 = Some (vertex_weight g n) /\
             0 <= vertex_weight g n < two64 /\
             (isolated g n = true -> vertex_weight g n = 0).
Proof.
  intros Hn. destruct (wf_row g Hwf n Hn) as (b & e & Hb & He & Hbe & Hel).
  destruct (wf_distance g Hwf n b e Hb He Hbe Hel) as (_ & Hedges & Hiso).
  destruct (edge_weights_defined (seqZ b (e - b)) 0) as (tw & Htw & Hr).
  { intros ii Hii. apply elem_of_seqZ in Hii. lia. }
  { unfold two64. lia. }
  exists (seqZ b (e - b)). unfold vertex_weight. rewrite Hedges.
  cbn [mbind option_bind]. rewrite Htw. cbn [default].
  split; [reflexivity|]. split; [reflexivity|]. split; [assumption|].
  intros Hi. rewrite Hiso in Hi. apply Z.eqb_eq in Hi.
  rewrite Hi, seqZ_nil in Htw by lia. cbn [do_all] in Htw.
  injection Htw as <-. reflexivity.
Qed.

Lemma sum_loop (nodes1 : NodeData) (c_info : CommArray) :
  length nodes1 = length (edgeIndData g) ->
  length c_info = length (edgeIndData g) ->
  (forall j d, at_ nodes1 j = Some d -> Node.curr_comm_ass d = j) ->
  exists nodes2 c_info2,
    sumVertexDegreeWeight g nodes1 c_info = Some (nodes2, c_info2) /\
    initialised g nodes2 c_info2.
Proof.
  intros Hlen Hclen Hcurr. unfold sumVertexDegreeWeight, iterate, graph_size.
  destruct (do_all_seqZ_inv (sum_op g)
              (fun i st =>
                 length st.1 = length (edgeIndData g) /\
                 length st.2 = length (edgeIndData g) /\
                 (forall j d, at_ st.1 j = Some d ->
                    Node.curr_comm_ass d = j /\
                    (j < i -> Node.degree_wt d = vertex_weight g j)) /\
                 (forall j c, at_ st.2 j = Some c -> j < i ->
                    c = Comm.mk 1 (vertex_weight g j)))
              (length (edgeIndData g)) 0 (nodes1, c_info))
    as ([nodes2 c_info2] & Hloop & Hl & Hcl & Hn & Hc).
  - intros i [l ci] Hi (Hll & Hcil & Hln & Hlc). cbn [fst snd] in *.
    assert (Hr : in_range l i = true) by (apply in_range_spec; lia).
    assert (Hcr : in_range ci i = true) by (apply in_range_spec; lia).
    assert (Hgr : in_range (edgeIndData g) i = true) by (apply in_range_spec; lia).
    destruct (at_is_Some _ _ Hr) as [d Hd].
    destruct (vertex_weight_spec i Hgr) as (es & Hes & Htw & _).
    unfold sum_op. rewrite Hd. cbn [mbind option_bind].
    rewrite Hes. cbn [mbind option_bind]. rewrite Htw. cbn [mbind option_bind].
    rewrite (set_Some _ _ _ Hr). cbn [mbind option_bind].
    rewrite (set_Some _ _ _ Hcr). cbn [mbind option_bind].
    eexists. split; [reflexivity|]. cbn [fst snd].
    split; [rewrite length_insert; assumption|].
    split; [rewrite length_insert; assumption|]. split.
    + intros j dj Hj. destruct (Z.eq_dec j i) as [->|Hne].
      * rewrite (at_insert_eq _ _ _ Hr) in Hj. injection Hj as <-.
        cbn [Node.set_degree_wt Node.curr_comm_ass Node.degree_wt].
        split; [apply (Hln i d Hd)|reflexivity].
      * rewrite at_insert_ne in Hj by lia.
        destruct (Hln j dj Hj) as [H1 H2]. split; [assumption|].
        intros Hji. apply H2. lia.
    + intros j c Hj Hji. destruct (Z.eq_dec j i) as [->|Hne].
      * rewrite (at_insert_eq _ _ _ Hcr) in Hj. injection Hj as <-. reflexivity.
      * rewrite at_insert_ne in Hj by lia. apply (Hlc j c Hj). lia.
  - cbn [fst snd]. split; [assumption|]. split; [assumption|]. split.
    + intros j d Hj. split; [apply (Hcurr j d Hj)|].
      intros Hneg. apply at_range in Hj. lia.
    + intros j c Hj Hneg. apply at_range in Hj. lia.
  - cbn [fst snd] in *. exists nodes2, c_info2. split; [assumption|].
    split; [assumption|]. split; [assumption|]. split.
    + intros j d Hj. destruct (Hn j d Hj) as [H1 H2]. split; [assumption|].
      apply H2. apply at_range in Hj. lia.
    + intros j c Hj. apply (Hc j c Hj). apply at_range in Hj. lia.
Qed.

Lemma constant_defined (nodes : NodeData) :
  length nodes = length (edgeIndData g) ->
  exists constant, calConstantForSecondTerm g nodes = Some constant.
Proof.
  intros Hlen. unfold calConstantForSecondTerm.
  destruct (do_all_inv (weight_op nodes) (fun _ => True) (iterate g) 0)
    as (tw & Htw & _).
  - intros n acc Hn _. unfold iterate, graph_size in Hn.
    apply elem_of_seqZ in Hn.
    assert (Hr : in_range nodes n = true) by (apply in_range_spec; lia).
    destruct (at_is_Some _ _ Hr) as [d Hd].
    unfold weight_op. rewrite Hd. cbn [mbind option_bind]. eauto.
  - exact I.
  - rewrite Htw. cbn [mbind option_bind]. eauto.
Qed.
End Init.

(** ** Counting *)

Lemma sumZ_zero {A : Type} (f : A -> Z) (l : list A) :
  (forall x, x ∈ l -> f x = 0) -> sumZ f l = 0.
Proof.
  induction l as [|a l IH]; intros H; [reflexivity|].
  cbn [sumZ]. rewrite (H a) by left. rewrite IH; [reflexivity|].
  intros x Hx. apply H. right. assumption.
Qed.

Lemma sumZ_swap {A B : Type} (K : A -> B -> Z) (cs : list A) (ps : list B) :
  sumZ (fun c => sumZ (K c) ps) cs = sumZ (fun p => sumZ (fun c => K c p) cs) ps.
Proof.
  induction ps as [|p ps IH].
  - cbn [sumZ]. apply sumZ_zero. reflexivity.
  - cbn [sumZ]. rewrite sumZ_add, IH. reflexivity.
Qed.

(** Only the entry of index [c] counts. *)
Lemma sumZ_indexed_pick {A : Type} (F : Z * A -> Z) (c k : Z) (l : list A) :
  sumZ (fun p => if p.1 =? c then F p else 0) (indexed_from k l)
  = match (if k <=? c then l !! Z.to_nat (c - k) else None) with
    | Some x => F (c, x)
    | None => 0
    end.
Proof.
  revert k. induction l as [|a l IH]; intros k.
  - cbn [indexed_from sumZ]. destruct (k <=? c); reflexivity.
  - cbn [indexed_from sumZ fst]. rewrite IH.
    destruct (Z.eqb_spec k c) as [->|Hne].
    + destruct (Z.leb_spec (c + 1) c); [lia|].
      rewrite Z.leb_refl, Z.sub_diag.
      change ((a :: l) !! Z.to_nat 0) with (Some a). cbv beta iota. lia.
    + destruct (Z.leb_spec k c) as [Hle|Hgt].
      * destruct (Z.leb_spec (k + 1) c); [|lia].
        replace (Z.to_nat (c - k)) with (S (Z.to_nat (c - (k + 1)))) by lia.
        reflexivity.
      * destruct (Z.leb_spec (k + 1) c); [lia|]. reflexivity.
Qed.

Lemma sumZ_indicator (x lo : Z) (len : nat) :
  sumZ (fun c => if x =? c then 1 else 0) (seqZ lo (Z.of_nat len))
  = if (lo <=? x) && (x <? lo + Z.of_nat len) then 1 else 0.
Proof.
  revert lo. induction len as [|len IH]; intros lo.
  - rewrite seqZ_nil by lia. cbn [sumZ].
    destruct ((lo <=? x) && (x <? lo + Z.of_nat 0)) eqn:E; [|reflexivity].
    rewrite andb_true_iff, Z.leb_le, Z.ltb_lt in E. lia.
  - rewrite seqZ_cons by lia. cbn [sumZ].
    replace (Z.pred (Z.of_nat (S len))) with (Z.of_nat len) by lia.
    rewrite IH.
    destruct ((lo <=? x) && (x <? lo + Z.of_nat (S len))) eqn:E1;
      destruct ((Z.succ lo <=? x) && (x <? Z.succ lo + Z.of_nat len)) eqn:E2;
      destruct (Z.eqb_spec x lo);
      rewrite ?andb_true_iff, ?andb_false_iff, ?Z.leb_le, ?Z.ltb_lt,
        ?Z.leb_gt, ?Z.ltb_ge in *; lia.
Qed.

Lemma sumZ_by_index {A : Type} (f : A -> Z) (h : Z -> Z) (l : list A) (k : Z) :
  (forall i x, l !! i = Some x -> f x = h (k + Z.of_nat i)) ->
  sumZ f l = sumZ h (seqZ k (Z.of_nat (length l))).
Proof.
  revert k. induction l as [|a l IH]; intros k H; [reflexivity|].
  cbn [length]. rewrite seqZ_cons by lia. cbn [sumZ].
  replace (Z.pred (Z.of_nat (S (length l)))) with (Z.of_nat (length l)) by lia.
  rewrite (H 0%nat a eq_refl), Z.add_0_r. f_equal.
  apply IH. intros i x Hi. rewrite (H (S i) x Hi). f_equal. lia.
Qed.

(** ** From the invariant to the aggregates *)

Section Aggregates.
Variable g : Graph.
Hypothesis Hwf : wf_graph g = true.

(** A vertex adds one to exactly one community: its own when it is isolated,
    the one it is assigned to otherwise. *)
Let share (c : Z) (p : Z * Node.t) : Z :=
  (if is_member g c p then 1 else 0)
  + (if p.1 =? c then own_isolated g p.1 else 0).

Lemma share_bounds (c : Z) (p : Z * Node.t) : 0 <= share c p <= 1.
Proof.
  unfold share, is_member, own_isolated.
  destruct (isolated g p.1), (Node.curr_comm_ass p.2 =? c), (p.1 =? c);
    cbn; lia.
Qed.

Lemma share_sum (nodes : NodeData) (c : Z) :
  in_range nodes c = true ->
  member_count g nodes c + own_isolated g c = sumZ (share c) (indexed nodes).
Proof.
  intros Hc. unfold share. rewrite sumZ_add. unfold member_count. f_equal.
  unfold indexed. rewrite (sumZ_indexed_pick (fun p => own_isolated g p.1)).
  destruct (at_is_Some _ _ Hc) as [d Hd]. apply at_Some in Hd as [H0 Hd].
  destruct (Z.leb_spec 0 c); [|lia]. rewrite Z.sub_0_r, Hd. reflexivity.
Qed.

Lemma inv_aggregates (nodes : NodeData) (c_info : CommArray) :
  louvain_inv g nodes c_info ->
  (forall c, in_range (edgeIndData g) c = true ->
     exists ci, at_ c_info c = Some ci /\
       Comm.size ci = member_count g nodes c + own_isolated g c /\
       Comm.degree_wt ci = wrap64 (member_weight g nodes c)) /\
  total_size c_info = graph_size g.
Proof.
  intros (Hlen & Hclen & Hcomm & Htally).
  destruct (wf_parts g Hwf) as (_ & _ & _ & _ & Hsize & _).
  unfold graph_size in *.
  assert (Hsz : forall c ci, at_ c_info c = Some ci ->
            Comm.size ci = member_count g nodes c + own_isolated g c).
  { intros c ci Hc. destruct (Htally c ci Hc) as [Hs _]. rewrite Hs.
    apply wrap64_small.
    assert (Hcn : in_range nodes c = true).
    { apply at_range in Hc. apply in_range_spec. lia. }
    rewrite (share_sum nodes c Hcn).
    pose proof (sumZ_bounds (share c) (indexed nodes)
                  (fun p _ => share_bounds c p)) as Hb.
    unfold indexed in Hb. rewrite length_indexed_from in Hb.
    unfold indexed. unfold minus_one in Hsize. lia. }
  split.
  - intros c Hc.
    assert (Hcc : in_range c_info c = true).
    { apply in_range_spec. apply in_range_spec in Hc. lia. }
    destruct (at_is_Some _ _ Hcc) as [ci Hci]. exists ci.
    split; [assumption|]. split; [apply Hsz; assumption|].
    apply (Htally c ci Hci).
  - unfold total_size.
    rewrite (sumZ_by_index Comm.size
               (fun c => sumZ (share c) (indexed nodes)) c_info 0).
    + rewrite Hclen, sumZ_swap.
      rewrite (sumZ_const_one _ (indexed nodes)).
      * unfold indexed. rewrite length_indexed_from. lia.
      * intros [i d] Hp. apply elem_of_indexed in Hp.
        pose proof (at_range _ _ _ Hp) as Hi.
        rewrite (sumZ_ext _ (fun c => if (if isolated g i
                                          then i else Node.curr_comm_ass d) =? c
                                      then 1 else 0)).
        -- rewrite sumZ_indicator.
           destruct (isolated g i) eqn:Hiso.
           ++ destruct (Z.leb_spec 0 i), (Z.ltb_spec i (0 + Z.of_nat (length (edgeIndData g))));
                cbn; lia.
           ++ pose proof (Hcomm i d Hp Hiso) as Hr. apply in_range_spec in Hr.
              destruct (Z.leb_spec 0 (Node.curr_comm_ass d)),
                (Z.ltb_spec (Node.curr_comm_ass d)
                   (0 + Z.of_nat (length (edgeIndData g)))); cbn; lia.
        -- intros c _. unfold share, is_member, own_isolated. cbn [fst snd].
           destruct (isolated g i); cbn [negb andb];
             destruct (Z.eqb_spec i c), (Z.eqb_spec (Node.curr_comm_ass d) c);
             lia.
    + intros i ci Hi. rewrite Z.add_0_l.
      assert (Hat : at_ c_info (Z.of_nat i) = Some ci).
      { apply at_Some. split; [lia|]. rewrite Nat2Z.id. assumption. }
      rewrite (Hsz _ _ Hat). apply share_sum.
      apply at_range in Hat. apply in_range_spec. lia.
Qed.

(** The initialisation establishes the invariant. *)
Lemma initialised_inv (nodes : NodeData) (c_info : CommArray) :
  initialised g nodes c_info -> louvain_inv g nodes c_info.
Proof.
  intros (Hlen & Hclen & Hn & Hc).
  split; [assumption|]. split; [assumption|]. split.
  { intros n d Hd _. destruct (Hn n d Hd) as [-> _].
    apply at_range in Hd. apply in_range_spec. lia. }
  intros c ci Hci. rewrite (Hc c ci Hci). cbn [Comm.size Comm.degree_wt].
  pose proof (at_range _ _ _ Hci) as Hcr.
  assert (Hcn : in_range nodes c = true) by (apply in_range_spec; lia).
  assert (Hcg : in_range (edgeIndData g) c = true) by (apply in_range_spec; lia).
  destruct (at_is_Some _ _ Hcn) as [dc Hdc].
  destruct (Hn c dc Hdc) as [_ Hwc].
  destruct (vertex_weight_spec g Hwf c Hcg) as (_ & _ & _ & Hvr & Hv0).
  pose proof (proj1 (at_Some _ _ _) Hdc) as [_ Hdl].
  split.
  - unfold member_count.
    rewrite (sumZ_ext _ (fun p => if p.1 =? c
                                  then (if isolated g p.1 then 0 else 1) else 0)).
    + unfold indexed. rewrite (sumZ_indexed_pick (fun p => if isolated g p.1 then 0 else 1)).
      destruct (Z.leb_spec 0 c); [|lia]. rewrite Z.sub_0_r, Hdl.
      unfold own_isolated. cbn [fst]. destruct (isolated g c); reflexivity.
    + intros [i d] Hp. apply elem_of_indexed in Hp.
      destruct (Hn i d Hp) as [Hcur _]. unfold is_member. cbn [fst snd].
      rewrite Hcur. destruct (isolated g i), (i =? c); reflexivity.
  - unfold member_weight.
    rewrite (sumZ_ext _ (fun p => if p.1 =? c
                                  then (if isolated g p.1 then 0
                                        else Node.degree_wt p.2) else 0)).
    + unfold indexed.
      rewrite (sumZ_indexed_pick
                 (fun p => if isolated g p.1 then 0 else Node.degree_wt p.2)).
      destruct (Z.leb_spec 0 c); [|lia]. rewrite Z.sub_0_r, Hdl. cbn [fst snd].
      destruct (isolated g c).
      * rewrite (Hv0 eq_refl). reflexivity.
      * rewrite Hwc. symmetry. apply wrap64_small. assumption.
    + intros [i d] Hp. apply elem_of_indexed in Hp.
      destruct (Hn i d Hp) as [Hcur _]. unfold is_member. cbn [fst snd].
      rewrite Hcur. destruct (isolated g i), (i =? c); reflexivity.
Qed.
End Aggregates.

(** ** The aggregates at an iteration boundary *)

Lemma in_order_in_range (g : Graph) (i v : Z) :
  v ∈ in_order g i -> in_range (edgeIndData g) v = true.
Proof.
  unfold in_order, iterate, graph_size. intros Hv.
  apply elem_of_seqZ in Hv. apply in_range_spec. lia.
Qed.

(** The arrays with which the engine returns are those of a boundary. *)
Lemma louvain_loop_boundary (fuel : nat) (sched : Z -> list Z) (g : Graph)
    (constant threshold : double) (nodes : NodeData) (c_info : CommArray)
    (prev_mod : double) (num_iter : Z) (r : LouvainRun) :
  louvain_loop fuel sched g constant threshold nodes c_info prev_mod num_iter
  = Returned r ->
  exists k, louvain_passes g constant sched k num_iter (nodes, c_info)
            = Some (run_nodes r, run_c_info r).
Proof.
  revert nodes c_info prev_mod num_iter.
  induction fuel as [|fuel IH]; intros nodes c_info prev_mod num_iter H;
    [discriminate|].
  cbn [louvain_loop] in H.
  destruct (do_all (louvain_op g constant) (sched ((num_iter + 1) mod 2 ^ 32))
              (nodes, c_info)) as [st|] eqn:Hpass; [|discriminate].
  cbn [defined] in H.
  destruct (calModularity g st.1 st.2 constant) as [curr_mod|]; [|discriminate].
  cbn [defined] in H.
  destruct (dlt (dsub curr_mod prev_mod) threshold).
  - injection H as <-. exists 1%nat. cbn [louvain_passes].
    rewrite Hpass. cbn. destruct st; reflexivity.
  - destruct (IH _ _ _ _ H) as [k Hk]. exists (S k).
    cbn [louvain_passes]. rewrite Hpass. cbn [mbind option_bind].
    destruct st; exact Hk.
Qed.

(** The initialisation of the engine, on a graph of six vertices or more:
    on a smaller one the read of [c_info[5]] is outside the array. *)
Lemma engine_start (g : Graph) (nodes : NodeData) :
  wf_graph g = true ->
  length nodes = length (edgeIndData g) ->
  in_range (edgeIndData g) 5 = true ->
  exists nodes1 nodes2 c_info2 c5 constant,
    do_all init_comm (iterate g) nodes = Some nodes1 /\
    sumVertexDegreeWeight g nodes1
      (replicate (length (edgeIndData g)) (Comm.mk 0 0)) = Some (nodes2, c_info2) /\
    at_ c_info2 5 = Some c5 /\
    calConstantForSecondTerm g nodes2 = Some constant /\
    length nodes1 = length (edgeIndData g) /\
    initialised g nodes2 c_info2.
Proof.
  intros Hwf Hlen H5.
  destruct (init_comm_loop g nodes Hlen) as (nodes1 & Hinit & Hlen1 & Hcurr).
  destruct (sum_loop g Hwf nodes1
              (replicate (length (edgeIndData g)) (Comm.mk 0 0)) Hlen1)
    as (nodes2 & c_info2 & Hsum & Hini); [apply length_replicate|assumption|].
  destruct (constant_defined g nodes2) as [constant Hc]; [apply Hini|].
  destruct (at_is_Some c_info2 5) as [c5 Hc5].
  { destruct Hini as (_ & Hcl & _). unfold in_range in *. rewrite Hcl.
    assumption. }
  exists nodes1, nodes2, c_info2, c5, constant. auto 10.
Qed.

Lemma engine_start_small (g : Graph) (nodes nodes1 : NodeData)
    (st : NodeData * CommArray) :
  wf_graph g = true ->
  length nodes = length (edgeIndData g) ->
  in_range (edgeIndData g) 5 = false ->
  do_all init_comm (iterate g) nodes = Some nodes1 ->
  sumVertexDegreeWeight g nodes1
    (replicate (length (edgeIndData g)) (Comm.mk 0 0)) = Some st ->
  at_ st.2 5 = None.
Proof.
  intros Hwf Hlen H5 Hinit Hsum.
  destruct (init_comm_loop g nodes Hlen) as (nodes1' & Hinit' & Hlen1 & Hcurr).
  assert (nodes1' = nodes1) by congruence. subst nodes1'.
  destruct (sum_loop g Hwf nodes1
              (replicate (length (edgeIndData g)) (Comm.mk 0 0)) Hlen1)
    as (nodes2 & c_info2 & Hsum' & Hini); [apply length_replicate|assumption|].
  assert (st = (nodes2, c_info2)) by congruence. subst st. cbn [snd].
  destruct Hini as (_ & Hcl & _). unfold at_, in_range in *.
  rewrite Hcl, H5. reflexivity.
Qed.

(** C2 (as amended).  On a well-formed graph of six vertices or more, for
    every sequential schedule of the [for_each] loops and every number [k]
    of completed turns, the state at the boundary exists and, for every
    community [c]: [c_info[c].size] is the number of vertices with edges
    whose [curr_comm_ass] is [c], plus one when vertex [c] is isolated;
    [c_info[c].degree_wt] is the sum of [degree_wt] over those vertices, on
    64 bits; and the sizes add up to the number of vertices of the graph. *)
Theorem louvain_boundary_aggregates (g : Graph) (sched : Z -> list Z)
    (nodes : NodeData) (k : nat) :
  wf_graph g = true ->
  length nodes = length (edgeIndData g) ->
  in_range (edgeIndData g) 5 = true ->
  (forall i v, v ∈ sched i -> in_range (edgeIndData g) v = true) ->
  exists nodes' c_info',
    louvain_boundary g sched nodes k = Some (nodes', c_info') /\
    (forall c, in_range (edgeIndData g) c = true ->
       exists ci, at_ c_info' c = Some ci /\
         Comm.size ci = member_count g nodes' c + own_isolated g c /\
         Comm.degree_wt ci = wrap64 (member_weight g nodes' c)) /\
    total_size c_info' = graph_size g.
Proof.
  intros Hwf Hlen H5 Hs. unfold louvain_boundary.
  destruct (engine_start g nodes Hwf Hlen H5)
    as (nodes1 & nodes2 & c_info2 & c5 & constant & Hinit & Hsum & Hc5 & Hc
        & _ & Hini).
  rewrite Hinit. cbn [mbind option_bind].
  rewrite Hsum. cbn [mbind option_bind fst snd].
  rewrite Hc5. cbn [mbind option_bind].
  rewrite Hc. cbn [mbind option_bind].
  destruct (louvain_passes_preserve g constant sched k 0 (nodes2, c_info2) Hwf Hs)
    as ([nodes' c_info'] & Hp & Hinv).
  { apply initialised_inv; assumption. }
  exists nodes', c_info'. split; [assumption|].
  apply inv_aggregates; assumption.
Qed.

Lemma louvain_boundary_aggregates_witness :
  exists nodes' c_info',
    louvain_boundary edge_and_99_isolated (in_order edge_and_99_isolated)
      (blank_nodes 101) 2
    = Some (nodes', c_info') /\
    (forall c, in_range (edgeIndData edge_and_99_isolated) c = true ->
       exists ci, at_ c_info' c = Some ci /\
         Comm.size ci = member_count edge_and_99_isolated nodes' c
                        + own_isolated edge_and_99_isolated c /\
         Comm.degree_wt ci
         = wrap64 (member_weight edge_and_99_isolated nodes' c)) /\
    total_size c_info' = graph_size edge_and_99_isolated.
Proof.
  apply louvain_boundary_aggregates.
  - vm_compute. reflexivity.
  - reflexivity.
  - reflexivity.
  - apply in_order_in_range.
Defined.

(** C2, counterexample.  On the edge 0 - 1 with the isolated vertices 2 to
    100, a graph that [main] hands to the engine, after one turn in vertex
    order: vertex 2 has [curr_comm_ass = -1], so no vertex is assigned to
    community 2, and [c_info[2].size] is still 1; the sizes add up to 101,
    the number of vertices with edges is 2. *)
Lemma isolated_vertex_keeps_size :
  exists nodes' c_info',
    louvain_boundary edge_and_99_isolated (in_order edge_and_99_isolated)
      (blank_nodes 101) 1
    = Some (nodes', c_info') /\
    (Node.curr_comm_ass <$> at_ nodes' 2) = Some minus_one /\
    (Comm.size <$> at_ c_info' 2) = Some 1 /\
    assigned_count nodes' 2 = 0 /\
    total_size c_info' = 101 /\
    non_isolated_count edge_and_99_isolated = 2 /\
    ~ spec_boundary_invariant edge_and_99_isolated nodes' c_info'.
Proof.
  eexists _, _. split; [vm_compute; reflexivity|].
  split; [reflexivity|]. split; [reflexivity|]. split; [reflexivity|].
  split; [reflexivity|]. split; [reflexivity|].
  intros [_ Htotal]. vm_compute in Htotal. discriminate Htotal.
Qed.

(** When the engine returns, it returns the arrays of some boundary. *)
Lemma algoLouvainWithLocking_boundary (fuel : nat) (sched : Z -> list Z)
    (g : Graph) (nodes : NodeData) (clusters : largeArray)
    (lower threshold : double) (r : LouvainRun) :
  algoLouvainWithLocking fuel sched g nodes clusters lower threshold = Returned r ->
  exists k, louvain_boundary g sched nodes k = Some (run_nodes r, run_c_info r).
Proof.
  unfold algoLouvainWithLocking, louvain_boundary. intros H.
  destruct (do_all init_comm (iterate g) nodes) as [nodes1|]; [|discriminate].
  cbn [defined mbind option_bind] in *.
  destruct (sumVertexDegreeWeight g nodes1 _) as [st|]; [|discriminate].
  cbn [defined mbind option_bind] in *.
  destruct (at_ st.2 5) as [c5|]; [|discriminate].
  cbn [defined mbind option_bind] in *.
  destruct (calConstantForSecondTerm g st.1) as [constant|]; [|discriminate].
  cbn [defined mbind option_bind] in *.
  destruct st as [nodes2 c_info2]. cbn [fst snd] in H.
  exact (louvain_loop_boundary _ _ _ _ _ _ _ _ _ _ H).
Qed.

(** * Further properties of the worklists *)

Section ChunkMore.
Context {T : Type}.
Variable T0 : T.
Variable chunksize : nat.

(** [Chunk::push] then [Chunk::pop]: the value comes back and the chunk holds
    what it held. *)
Theorem Chunk_push_pop (val : T) (c : Chunk.t T) :
  Chunk.wf chunksize c -> (Chunk.num c < chunksize)%nat ->
  exists c' c'',
    Chunk.push chunksize val c = (true, c') /\
    Chunk.pop T0 c' = ((true, val), c'') /\
    Chunk.wf chunksize c'' /\
    Chunk.items c'' = Chunk.items c /\
    Chunk.num c'' = Chunk.num c /\
    Chunk.next c'' = Chunk.next c.
Proof.
  intros [Hlen Hnum] Hroom. unfold Chunk.push.
  destruct (decide (Chunk.num c < chunksize)%nat) as [_|]; [|contradiction].
  eexists _, _. split; [reflexivity|]. unfold Chunk.pop. cbn [Chunk.num Chunk.data Chunk.next].
  rewrite list_lookup_insert_eq by lia. cbn [default].
  split; [reflexivity|]. unfold Chunk.wf, Chunk.items.
  cbn [Chunk.num Chunk.data Chunk.next]. rewrite length_insert.
  repeat split; try lia. rewrite take_insert_ge by lia. reflexivity.
Qed.

(** [Chunk::push] fails exactly on a full chunk and [Chunk::pop] exactly on
    an empty one; a call that fails leaves the chunk as it was. *)
Theorem Chunk_failures (val : T) (c : Chunk.t T) :
  Chunk.wf chunksize c ->
  ((Chunk.push chunksize val c).1 = false <-> Chunk.full chunksize c = true) /\
  ((Chunk.push chunksize val c).1 = false -> (Chunk.push chunksize val c).2 = c) /\
  ((Chunk.pop T0 c).1.1 = false <-> Chunk.empty c = true) /\
  ((Chunk.pop T0 c).1.1 = false ->
   (Chunk.pop T0 c).1.2 = T0 /\ (Chunk.pop T0 c).2 = c) /\
  (Chunk.empty c = true <-> Chunk.items c = []).
Proof.
  intros [Hlen Hnum]. unfold Chunk.push, Chunk.pop, Chunk.full, Chunk.empty,
    Chunk.items.
  destruct (decide (Chunk.num c < chunksize)%nat) as [Hroom|Hfull]; cbn [fst snd].
  - split.
    { split; [discriminate|]. intros H. apply Nat.eqb_eq in H. lia. }
    split; [discriminate|].
    destruct (Chunk.num c) as [|k] eqn:Hk; cbn [fst snd].
    + rewrite take_0. repeat split; auto.
    + split; [split; [discriminate|intros H; apply Nat.eqb_eq in H; lia]|].
      split; [discriminate|]. split.
      * intros H. apply Nat.eqb_eq in H. lia.
      * intros H. apply (f_equal length) in H.
        rewrite length_reverse, length_take in H. cbn [length] in H. lia.
  - split.
    { split; [intros _; apply Nat.eqb_eq; lia|reflexivity]. }
    split; [reflexivity|].
    destruct (Chunk.num c) as [|k] eqn:Hk; cbn [fst snd].
    + rewrite take_0. repeat split; auto.
    + split; [split; [discriminate|intros H; apply Nat.eqb_eq in H; lia]|].
      split; [discriminate|]. split.
      * intros H. apply Nat.eqb_eq in H. lia.
      * intros H. apply (f_equal length) in H.
        rewrite length_reverse, length_take in H. cbn [length] in H. lia.
Qed.

(** The bulk push of a chunk. *)
Lemma Chunk_push_range_spec (b : list T) (c : Chunk.t T) :
  Chunk.wf chunksize c ->
  let k := Nat.min (length b) (chunksize - Chunk.num c) in
  exists c',
    Chunk.push_range chunksize b c = (drop k b, c') /\
    Chunk.wf chunksize c' /\
    Chunk.items c' = reverse (take k b) ++ Chunk.items c /\
    Chunk.num c' = (Chunk.num c + k)%nat /\
    Chunk.next c' = Chunk.next c.
Proof.
  revert c. induction b as [|x b IH]; intros c Hwf; cbv zeta.
  - exists c. cbn. rewrite Nat.add_0_r. auto.
  - cbn [Chunk.push_range].
    destruct (decide (Chunk.num c < chunksize)%nat) as [Hroom|Hfull].
    + destruct (Chunk_push_room chunksize x c Hwf Hroom)
        as (c1 & Hpush & Hwf1 & Hitems1 & Hnext1 & Hnum1).
      unfold Chunk.push in Hpush.
      destruct (decide (Chunk.num c < chunksize)%nat); [|contradiction].
      injection Hpush as Hc1. rewrite Hc1.
      destruct (IH c1 Hwf1) as (c' & Hr & Hwf' & Hitems' & Hnum' & Hnext').
      cbv zeta in Hr, Hitems', Hnum'.
      replace (Nat.min (length (x :: b)) (chunksize - Chunk.num c))
        with (S (Nat.min (length b) (chunksize - Chunk.num c1)))
        by (cbn [length]; lia).
      exists c'. cbn [drop take]. split; [assumption|]. split; [assumption|].
      split.
      { rewrite Hitems', Hitems1, reverse_cons, <- app_assoc. reflexivity. }
      split; [lia|congruence].
    + replace (Nat.min (length (x :: b)) (chunksize - Chunk.num c)) with 0%nat
        by lia.
      exists c. cbn. rewrite Nat.add_0_r. auto.
Qed.

(** [Chunk::push(b, e)] copies as many items of the range as the chunk has
    free cells, in order, and returns the rest of the range; the chunk is
    full afterwards unless the whole range went in. *)
Theorem Chunk_push_range_copies (b : list T) (c : Chunk.t T) :
  Chunk.wf chunksize c ->
  exists taken c',
    Chunk.push_range chunksize b c = (drop (length taken) b, c') /\
    taken = take (chunksize - Chunk.num c) b /\
    Chunk.wf chunksize c' /\
    Chunk.items c' = reverse taken ++ Chunk.items c /\
    (drop (length taken) b = [] \/ Chunk.full chunksize c' = true).
Proof.
  intros Hwf.
  destruct (Chunk_push_range_spec b c Hwf) as (c' & Hr & Hwf' & Hitems & Hnum & _).
  cbv zeta in *. destruct Hwf as [Hlen Hle].
  set (k := Nat.min (length b) (chunksize - Chunk.num c)) in *.
  assert (Htake : take (chunksize - Chunk.num c) b = take k b).
  { unfold k. destruct (Nat.le_ge_cases (length b) (chunksize - Chunk.num c)).
    - rewrite Nat.min_l by assumption. rewrite !take_ge by lia. reflexivity.
    - rewrite Nat.min_r by assumption. reflexivity. }
  assert (Hk : length (take k b) = k) by (rewrite length_take; lia).
  exists (take k b), c'. rewrite Hk.
  split; [assumption|]. split; [auto|]. split; [assumption|].
  split; [assumption|].
  destruct (Nat.le_ge_cases (length b) (chunksize - Chunk.num c)).
  - left. apply drop_ge. lia.
  - right. unfold Chunk.full. apply Nat.eqb_eq. lia.
Qed.
End ChunkMore.

Lemma Chunk_push_pop_witness :
  exists c' c'',
    Chunk.push 2 7 (Chunk.new 0 2) = (true, c') /\
    Chunk.pop 0 c' = ((true, 7), c'') /\
    Chunk.wf 2 c'' /\
    Chunk.items c'' = Chunk.items (Chunk.new 0 2) /\
    Chunk.num c'' = Chunk.num (Chunk.new 0 2) /\
    Chunk.next c'' = Chunk.next (Chunk.new 0 2).
Proof.
  apply (Chunk_push_pop 0 2 7 (Chunk.new 0 2)).
  - apply Chunk_new_wf.
  - cbn. lia.
Defined.

Lemma Chunk_failures_witness :
  ((Chunk.push 2 7 (Chunk.new 0 2)).1 = false <-> Chunk.full 2 (Chunk.new 0 2) = true) /\
  ((Chunk.push 2 7 (Chunk.new 0 2)).1 = false ->
   (Chunk.push 2 7 (Chunk.new 0 2)).2 = Chunk.new 0 2) /\
  ((Chunk.pop 0 (Chunk.new 0 2)).1.1 = false <-> Chunk.empty (Chunk.new 0 2) = true) /\
  ((Chunk.pop 0 (Chunk.new 0 2)).1.1 = false ->
   (Chunk.pop 0 (Chunk.new 0 2)).1.2 = 0 /\
   (Chunk.pop 0 (Chunk.new 0 2)).2 = Chunk.new 0 2) /\
  (Chunk.empty (Chunk.new 0 2) = true <-> Chunk.items (Chunk.new 0 2) = []).
Proof. apply (Chunk_failures 0 2 7 (Chunk.new 0 2)). apply Chunk_new_wf. Defined.

Lemma Chunk_push_range_copies_witness :
  exists taken c',
    Chunk.push_range 2 [1; 2; 3] (Chunk.new 0 2) = (drop (length taken) [1; 2; 3], c') /\
    taken = take (2 - Chunk.num (Chunk.new 0 2)) [1; 2; 3] /\
    Chunk.wf 2 c' /\
    Chunk.items c' = reverse taken ++ Chunk.items (Chunk.new 0 2) /\
    (drop (length taken) [1; 2; 3] = [] \/ Chunk.full 2 c' = true).
Proof. apply (Chunk_push_range_copies 2 [1; 2; 3] (Chunk.new 0 2)). apply Chunk_new_wf. Defined.

Section StackFacts.
Context {T : Type}.

Lemma chain_unfold (c : Chunk.t T) :
  Chunk.chain c = c :: match Chunk.next c with
                       | Some c' => Chunk.chain c'
                       | None => []
                       end.
Proof. destruct c. reflexivity. Qed.

Lemma stack_chunks_push (c : Chunk.t T) (s : LIFO_SB.t T) :
  stack_chunks (LIFO_SB.push c s) = unlinked c :: stack_chunks s.
Proof.
  unfold stack_chunks, LIFO_SB.push. cbn [LIFO_SB.head].
  rewrite chain_unfold. cbn [Chunk.set_next Chunk.next fmap list_fmap].
  destruct c, (LIFO_SB.head s); reflexivity.
Qed.

Lemma stack_chunks_pop (s : LIFO_SB.t T) :
  (LIFO_SB.pop s).1 = head (stack_chunks s) /\
  stack_chunks (LIFO_SB.pop s).2 = tail (stack_chunks s).
Proof.
  unfold stack_chunks, LIFO_SB.pop, LIFO_SB.empty.
  destruct s as [[C|]]; cbn [LIFO_SB.head]; [|auto].
  rewrite (chain_unfold C). cbn [fst snd fmap list_fmap head tail LIFO_SB.head].
  split; [reflexivity|]. destruct (Chunk.next C); reflexivity.
Qed.

(** [LIFO_SB]: a chunk pushed is the next chunk popped, handed out with its
    link cleared, and the stack is then exactly what it was; in general [pop]
    returns the most recently pushed chunk still on the stack, or null when
    there is none, and [empty] tells which. *)
Theorem LIFO_SB_push_pop (c : Chunk.t T) (s : LIFO_SB.t T) :
  LIFO_SB.pop (LIFO_SB.push c s) = (Some (unlinked c), s) /\
  stack_chunks (LIFO_SB.push c s) = unlinked c :: stack_chunks s /\
  (LIFO_SB.pop s).1 = head (stack_chunks s) /\
  stack_chunks (LIFO_SB.pop s).2 = tail (stack_chunks s) /\
  (LIFO_SB.empty s = true <-> stack_chunks s = []) /\
  (LIFO_SB.empty s = true -> LIFO_SB.pop s = (None, s)).
Proof.
  split.
  { unfold LIFO_SB.pop, LIFO_SB.push, LIFO_SB.empty. cbn.
    destruct s, c; reflexivity. }
  split; [apply stack_chunks_push|].
  destruct (stack_chunks_pop s) as [H1 H2].
  split; [assumption|]. split; [assumption|].
  unfold LIFO_SB.empty, stack_chunks, LIFO_SB.pop, LIFO_SB.empty.
  destruct s as [[C|]]; cbn [LIFO_SB.head].
  - rewrite (chain_unfold C). cbn. split; [split; discriminate|discriminate].
  - split; [split; reflexivity|reflexivity].
Qed.

(** [steal] takes from the victim what the victim's own [pop] would take. *)
Lemma steal_chunks (victim : LIFO_SB.t T) :
  (LIFO_SB.steal victim).1 = head (stack_chunks victim) /\
  stack_chunks (LIFO_SB.steal victim).2 = tail (stack_chunks victim).
Proof. exact (stack_chunks_pop victim). Qed.

(** ** InitialQueue *)

Let IQ2 : Type := InitialQueue.t (LIFO_SB.t T) (LIFO_SB.t T).

(** [InitialQueue] over two stacks: [push] puts a chunk in front of all the
    chunks held, [pushi] behind every chunk of the running queue, and [pop]
    takes the first chunk held: chunks of the running queue come out before
    any chunk of the initial queue, whenever they were pushed. *)
Theorem InitialQueue_order (c : Chunk.t T) (s : IQ2) :
  iq_chunks (InitialQueue.push c s) = unlinked c :: iq_chunks s /\
  iq_chunks (InitialQueue.pushi c s)
  = stack_chunks (InitialQueue.local s)
    ++ unlinked c :: stack_chunks (InitialQueue.global s) /\
  (InitialQueue.pop s).1 = head (iq_chunks s) /\
  iq_chunks (InitialQueue.pop s).2 = tail (iq_chunks s).
Proof.
  unfold iq_chunks, InitialQueue.push, InitialQueue.pushi, InitialQueue.pop.
  cbn [InitialQueue.local InitialQueue.global wl_push wl_pushi wl_pop
       LIFO_SB_WorkList LIFO_SB.pushi].
  rewrite !stack_chunks_push. split; [reflexivity|]. split; [reflexivity|].
  destruct (stack_chunks_pop (InitialQueue.local s)) as [Hl1 Hl2].
  destruct (stack_chunks_pop (InitialQueue.global s)) as [Hg1 Hg2].
  destruct (LIFO_SB.pop (InitialQueue.local s)) as [[ret|] l'] eqn:El;
    cbn [fst snd] in *.
  - cbn [fst snd InitialQueue.local InitialQueue.global].
    destruct (stack_chunks (InitialQueue.local s)) as [|x xs]; [discriminate|].
    cbn in *. rewrite Hl2. auto.
  - destruct (LIFO_SB.pop (InitialQueue.global s)) as [ret g'] eqn:Eg.
    cbn [fst snd InitialQueue.local InitialQueue.global] in *.
    destruct (stack_chunks (InitialQueue.local s)) as [|x xs]; [|discriminate].
    cbn in *. rewrite Hl2, Hg2. auto.
Qed.
End StackFacts.

(** ** LevelStealingAlt *)

Section Stealing.
Context {T : Type}.

Let wl : Type := LevelStealingAlt.t T.

Lemma LIFO_SB_pop_head (v : LIFO_SB.t T) (C : Chunk.t T) :
  LIFO_SB.head v = Some C ->
  LIFO_SB.pop v = (Some (unlinked C), LIFO_SB.mk (Chunk.next C)) /\
  LIFO_SB.steal v = (Some (unlinked C), LIFO_SB.mk (Chunk.next C)).
Proof.
  intros H. unfold LIFO_SB.pop, LIFO_SB.steal, LIFO_SB.empty. rewrite H. auto.
Qed.

Lemma LIFO_SB_pop_empty (v : LIFO_SB.t T) :
  LIFO_SB.empty v = true ->
  LIFO_SB.pop v = (None, v) /\ LIFO_SB.steal v = (None, v).
Proof.
  intros H. unfold LIFO_SB.pop, LIFO_SB.steal. rewrite H. auto.
Qed.

Lemma LIFO_SB_empty_head (v : LIFO_SB.t T) :
  LIFO_SB.empty v = false -> exists C, LIFO_SB.head v = Some C.
Proof.
  unfold LIFO_SB.empty. destruct (LIFO_SB.head v) as [C|]; [eauto|discriminate].
Qed.

Lemma steal_loop_scan (s : wl) (turns id k : nat) (C : Chunk.t T) :
  (1 <= k <= turns)%nat ->
  LIFO_SB.head (LevelStealingAlt.get s ((id + k) mod LevelStealingAlt.size s))
  = Some C ->
  (forall j, (1 <= j < k)%nat ->
     LIFO_SB.empty (LevelStealingAlt.get s ((id + j) mod LevelStealingAlt.size s))
     = true) ->
  LevelStealingAlt.steal_loop turns id s
  = (Some (unlinked C),
     LevelStealingAlt.put s ((id + k) mod LevelStealingAlt.size s)
       (LIFO_SB.mk (Chunk.next C))).
Proof.
  revert id k. induction turns as [|turns IH]; intros id k Hk Hhead Hempty;
    [lia|].
  cbn [LevelStealingAlt.steal_loop].
  destruct (Nat.eq_dec k 1%nat) as [->|Hk1].
  - destruct (LIFO_SB_pop_head _ _ Hhead) as [_ Hsteal]. rewrite Hsteal.
    reflexivity.
  - destruct (LIFO_SB_pop_empty _ (Hempty 1%nat ltac:(lia))) as [_ Hsteal].
    rewrite Hsteal.
    assert (Hmod : forall j, (j >= 1)%nat ->
              (((id + 1) mod LevelStealingAlt.size s + (j - 1))
                 mod LevelStealingAlt.size s
               = (id + j) mod LevelStealingAlt.size s)%nat).
    { intros j Hj. rewrite Nat.Div0.add_mod_idemp_l. f_equal. lia. }
    rewrite <- (Hmod k) by lia. apply IH.
    + lia.
    + rewrite Hmod by lia. assumption.
    + intros j Hj. specialize (Hmod (S j) ltac:(lia)).
      replace (S j - 1)%nat with j in Hmod by lia. rewrite Hmod.
      apply Hempty. lia.
Qed.

Lemma steal_loop_none (s : wl) (turns id : nat) :
  (forall j, (1 <= j <= turns)%nat ->
     LIFO_SB.empty (LevelStealingAlt.get s ((id + j) mod LevelStealingAlt.size s))
     = true) ->
  LevelStealingAlt.steal_loop turns id s = (None, s).
Proof.
  revert id. induction turns as [|turns IH]; intros id Hempty; [reflexivity|].
  cbn [LevelStealingAlt.steal_loop].
  destruct (LIFO_SB_pop_empty _ (Hempty 1%nat ltac:(lia))) as [_ Hsteal].
  rewrite Hsteal. apply IH. intros j Hj.
  rewrite Nat.Div0.add_mod_idemp_l.
  replace (id + 1 + j)%nat with (id + S j)%nat by lia. apply Hempty. lia.
Qed.

(** The first index below [n] at which a test succeeds, if there is one. *)
Lemma first_index_or_none (P : nat -> bool) (n : nat) :
  (exists k, (k < n)%nat /\ P k = true /\ forall j, (j < k)%nat -> P j = false)
  \/ (forall k, (k < n)%nat -> P k = false).
Proof.
  induction n as [|n [(k & Hk & HP & Hmin)|Hnone]].
  - right. intros k Hk. lia.
  - left. exists k. repeat split; auto.
  - destruct (P n) eqn:E.
    + left. exists n. repeat split; auto.
    + right. intros k Hk. destruct (Nat.eq_dec k n) as [->|]; [assumption|].
      apply Hnone. lia.
Qed.

Lemma first_index (P : nat -> bool) (n : nat) :
  (exists k, (k < n)%nat /\ P k = true) ->
  exists k, (k < n)%nat /\ P k = true /\ forall j, (j < k)%nat -> P j = false.
Proof.
  intros (k & Hk & HP).
  destruct (first_index_or_none P n) as [H|Hnone]; [assumption|].
  rewrite Hnone in HP by assumption. discriminate.
Qed.

(** [LevelStealingAlt::pop] takes the top chunk of the first stack that holds
    one, in the order: the caller's own stack, then its successors in a
    circle; only that stack changes. *)
Theorem LevelStealingAlt_pop_victim (me k : nat) (s : wl) (C : Chunk.t T) :
  (me < LevelStealingAlt.size s)%nat -> (k < LevelStealingAlt.size s)%nat ->
  LIFO_SB.head (LevelStealingAlt.get s ((me + k) mod LevelStealingAlt.size s))
  = Some C ->
  (forall j, (j < k)%nat ->
     LIFO_SB.empty (LevelStealingAlt.get s ((me + j) mod LevelStealingAlt.size s))
     = true) ->
  LevelStealingAlt.pop me s
  = (Some (unlinked C),
     LevelStealingAlt.put s ((me + k) mod LevelStealingAlt.size s)
       (LIFO_SB.mk (Chunk.next C))).
Proof.
  intros Hme Hk Hhead Hempty. unfold LevelStealingAlt.pop.
  destruct k as [|k].
  - rewrite Nat.add_0_r, Nat.mod_small in * by assumption.
    destruct (LIFO_SB_pop_head _ _ Hhead) as [Hpop _]. rewrite Hpop.
    reflexivity.
  - pose proof (Hempty 0%nat ltac:(lia)) as H0.
    rewrite Nat.add_0_r, Nat.mod_small in H0 by assumption.
    destruct (LIFO_SB_pop_empty _ H0) as [Hpop _]. rewrite Hpop.
    apply steal_loop_scan; [lia|assumption|].
    intros j Hj. apply Hempty. lia.
Qed.

(** [LevelStealingAlt::pop] returns null exactly when every stack is empty,
    and then changes nothing. *)
Theorem LevelStealingAlt_pop_none (me : nat) (s : wl) :
  (me < LevelStealingAlt.size s)%nat ->
  ((LevelStealingAlt.pop me s).1 = None <->
   forall v, (v < LevelStealingAlt.size s)%nat ->
             LIFO_SB.empty (LevelStealingAlt.get s v) = true) /\
  ((LevelStealingAlt.pop me s).1 = None -> (LevelStealingAlt.pop me s).2 = s).
Proof.
  intros Hme.
  assert (Hall : (forall v, (v < LevelStealingAlt.size s)%nat ->
                    LIFO_SB.empty (LevelStealingAlt.get s v) = true) ->
                 LevelStealingAlt.pop me s = (None, s)).
  { intros Hempty. unfold LevelStealingAlt.pop.
    destruct (LIFO_SB_pop_empty _ (Hempty me Hme)) as [Hpop _]. rewrite Hpop.
    apply steal_loop_none. intros j _. apply Hempty.
    apply Nat.mod_upper_bound. lia. }
  assert (Hsome : (exists v, (v < LevelStealingAlt.size s)%nat /\
                     LIFO_SB.empty (LevelStealingAlt.get s v) = false) ->
                  exists r, (LevelStealingAlt.pop me s).1 = Some r).
  { intros (v & Hv & Hne).
    set (N := LevelStealingAlt.size s) in *.
    destruct (first_index
                (fun k => negb (LIFO_SB.empty
                                  (LevelStealingAlt.get s ((me + k) mod N)))) N)
      as (k & Hk & HP & Hmin).
    { exists ((v + N - me) mod N)%nat. split; [apply Nat.mod_upper_bound; lia|].
      rewrite Nat.Div0.add_mod_idemp_r.
      replace (me + (v + N - me))%nat with (v + 1 * N)%nat by lia.
      rewrite Nat.Div0.mod_add, Nat.mod_small by assumption.
      rewrite Hne. reflexivity. }
    apply negb_true_iff in HP. destruct (LIFO_SB_empty_head _ HP) as [C HC].
    rewrite (LevelStealingAlt_pop_victim me k s C Hme Hk HC).
    - eauto.
    - intros j Hj. specialize (Hmin j Hj). apply negb_false_iff in Hmin.
      assumption. }
  split.
  - split.
    + intros Hnone v Hv.
      destruct (LIFO_SB.empty (LevelStealingAlt.get s v)) eqn:E; [reflexivity|].
      destruct Hsome as [r Hr]; [eauto|]. congruence.
    + intros Hempty. rewrite (Hall Hempty). reflexivity.
  - intros Hnone. rewrite Hall; [reflexivity|].
    intros v Hv.
    destruct (LIFO_SB.empty (LevelStealingAlt.get s v)) eqn:E; [reflexivity|].
    destruct Hsome as [r Hr]; [eauto|]. congruence.
Qed.
End Stealing.

Lemma LevelStealingAlt_pop_victim_witness :
  LevelStealingAlt.pop 0 sample_stealing
  = (Some (unlinked sample_chunk),
     LevelStealingAlt.put sample_stealing
       ((0 + 2) mod LevelStealingAlt.size sample_stealing)
       (LIFO_SB.mk (Chunk.next sample_chunk))).
Proof.
  apply (LevelStealingAlt_pop_victim 0 2 sample_stealing sample_chunk).
  - cbn. lia.
  - cbn. lia.
  - reflexivity.
  - intros j Hj. destruct j as [|[|j]]; [reflexivity|reflexivity|lia].
Defined.

Lemma LevelStealingAlt_pop_none_witness :
  ((LevelStealingAlt.pop 0 sample_stealing).1 = None <->
   forall v, (v < LevelStealingAlt.size sample_stealing)%nat ->
             LIFO_SB.empty (LevelStealingAlt.get sample_stealing v) = true) /\
  ((LevelStealingAlt.pop 0 sample_stealing).1 = None ->
   (LevelStealingAlt.pop 0 sample_stealing).2 = sample_stealing).
Proof. apply (LevelStealingAlt_pop_none 0 sample_stealing). cbn. lia. Defined.

(** ** The adaptor after any operation *)

Section AdaptorMore.
Context {T : Type}.
Variable T0 : T.
Variable chunksize : nat.
Hypothesis Hcs : (0 < chunksize)%nat.

Let adaptor : Type := ChunkedAdaptor.t T (LIFO_SB.t T).

Lemma chain_nonempty_unfold (c : Chunk.t T) :
  chain_nonempty chunksize c <->
  Chunk.wf chunksize c /\ (0 < Chunk.num c)%nat /\
  match Chunk.next c with
  | Some c' => chain_nonempty chunksize c'
  | None => True
  end.
Proof. destruct c. reflexivity. Qed.

Lemma init_ok : adaptor_ok chunksize (ChunkedAdaptor.init LIFO_SB.init : adaptor).
Proof. split; exact I. Qed.

(** Publishing a chunk that holds something. *)
Lemma publish_ok (n : Chunk.t T) (wl : LIFO_SB.t T) :
  Chunk.wf chunksize n -> (0 < Chunk.num n)%nat ->
  match LIFO_SB.head wl with
  | Some c => chain_nonempty chunksize c
  | None => True
  end ->
  match LIFO_SB.head (LIFO_SB.push n wl) with
  | Some c => chain_nonempty chunksize c
  | None => True
  end /\
  stack_items (LIFO_SB.push n wl) = Chunk.items n ++ stack_items wl.
Proof.
  intros Hwf Hnum Hwl. unfold LIFO_SB.push, stack_items. cbn [LIFO_SB.head].
  split.
  - apply chain_nonempty_unfold. cbn [Chunk.set_next Chunk.next Chunk.num].
    split; [exact Hwf|]. split; [exact Hnum|exact Hwl].
  - rewrite chain_items_unfold. cbn [Chunk.set_next Chunk.next].
    reflexivity.
Qed.

Lemma push_ok (val : T) (s : adaptor) :
  adaptor_ok chunksize s ->
  exists s', ChunkedAdaptor.push T0 chunksize val s = (true, s') /\
             adaptor_ok chunksize s' /\
             contents s' = val :: contents s.
Proof.
  intros [Hcur Hwl]. unfold ChunkedAdaptor.push.
  destruct (Chunk_push_room chunksize val (Chunk.new T0 chunksize)
              (Chunk_new_wf T0 chunksize))
    as (f & Hf & Hfwf & Hfitems & _); [exact Hcs|].
  destruct s as [[n|] wl]; cbn [ChunkedAdaptor.data ChunkedAdaptor.worklist] in *.
  - destruct (decide (Chunk.num n < chunksize)%nat) as [Hroom|Hfull].
    + destruct (Chunk_push_room chunksize val n Hcur Hroom)
        as (n' & Hn' & Hwf' & Hitems & _).
      rewrite Hn'. eexists. split; [reflexivity|]. split.
      * split; assumption.
      * unfold contents. cbn. rewrite Hitems. reflexivity.
    + rewrite (Chunk_push_full chunksize val n Hfull).
      unfold ChunkedAdaptor.mkChunk. rewrite Hf. cbn [snd].
      destruct (publish_ok n wl Hcur) as [Hok Hitems]; [lia|exact Hwl|].
      eexists. split; [reflexivity|]. split.
      * split; [exact Hfwf|exact Hok].
      * unfold contents.
        cbn [ChunkedAdaptor.data ChunkedAdaptor.worklist wl_push LIFO_SB_WorkList].
        rewrite Hitems, Hfitems. reflexivity.
  - unfold ChunkedAdaptor.mkChunk. rewrite Hf. cbn [snd].
    eexists. split; [reflexivity|]. split.
    + split; assumption.
    + unfold contents. cbn. rewrite Hfitems. reflexivity.
Qed.

Lemma fetch_ok (wl : LIFO_SB.t T) :
  match LIFO_SB.head wl with
  | Some c => chain_nonempty chunksize c
  | None => True
  end ->
  exists s',
    match LIFO_SB.pop wl with
    | (Some n, wl') =>
        let '(retval, n') := Chunk.pop T0 n in
        (retval, ChunkedAdaptor.mk (Some n') wl')
    | (None, wl') => ((false, T0), ChunkedAdaptor.mk None wl')
    end = ((stack_pop T0 (stack_items wl)).1, s') /\
    adaptor_ok chunksize s' /\
    contents s' = (stack_pop T0 (stack_items wl)).2.
Proof.
  intros Hwl. unfold LIFO_SB.pop, LIFO_SB.empty, stack_items.
  destruct wl as [[C|]]; cbn [LIFO_SB.head] in *.
  - apply chain_nonempty_unfold in Hwl. destruct Hwl as (Hwf & Hnum & Hrest).
    destruct (Chunk_pop_some T0 chunksize (Chunk.set_next C None))
      as (x & c' & Hpop & Hwf' & Hitems & Hnext).
    { exact Hwf. }
    { exact Hnum. }
    rewrite Hpop. rewrite chain_items_unfold.
    rewrite Chunk_items_set_next in Hitems.
    rewrite Hitems. cbn [stack_pop app fst snd].
    eexists. split; [reflexivity|]. split.
    + split; cbn; [exact Hwf'|]. destruct (Chunk.next C); [exact Hrest|exact I].
    + unfold contents, stack_items. cbn. reflexivity.
  - eexists. split; [reflexivity|]. split; [split; exact I|reflexivity].
Qed.

Lemma pop_ok (s : adaptor) :
  adaptor_ok chunksize s ->
  exists s', ChunkedAdaptor.pop T0 s = ((stack_pop T0 (contents s)).1, s') /\
             adaptor_ok chunksize s' /\
             contents s' = (stack_pop T0 (contents s)).2.
Proof.
  intros [Hcur Hwl]. unfold ChunkedAdaptor.pop.
  change (@wl_pop T (LIFO_SB.t T) _) with (@LIFO_SB.pop T).
  destruct s as [[n|] wl]; cbn [ChunkedAdaptor.data ChunkedAdaptor.worklist] in *.
  - destruct (Nat.eq_dec (Chunk.num n) 0%nat) as [Hz|Hnz].
    + destruct (Chunk_pop_empty T0 n Hz) as [Hpop Hitems]. rewrite Hpop. cbn [fst].
      assert (Hc : contents (ChunkedAdaptor.mk (Some n) wl) = stack_items wl).
      { unfold contents. cbn [ChunkedAdaptor.data ChunkedAdaptor.worklist].
        rewrite Hitems. reflexivity. }
      rewrite Hc. apply fetch_ok; assumption.
    + destruct (Chunk_pop_some T0 chunksize n Hcur)
        as (x & n' & Hpop & Hwf' & Hitems & _); [lia|].
      rewrite Hpop. cbn [fst]. unfold contents.
      cbn [ChunkedAdaptor.data ChunkedAdaptor.worklist]. rewrite Hitems.
      cbn [stack_pop app fst snd]. eexists. split; [reflexivity|]. split.
      * split; assumption.
      * reflexivity.
  - change (contents (ChunkedAdaptor.mk None wl)) with (stack_items wl).
    apply fetch_ok; assumption.
Qed.
End AdaptorMore.

Section AdaptorRanges.
Context {T : Type}.
Variable T0 : T.
Variable chunksize : nat.
Hypothesis Hcs : (0 < chunksize)%nat.

Let adaptor : Type := ChunkedAdaptor.t T (LIFO_SB.t T).

(** What a bulk push that returns has done. *)
Lemma push_range_partial (fuel : nat) (b : list T) (s : adaptor)
    (r : bool * adaptor) :
  adaptor_ok chunksize s ->
  ChunkedAdaptor.push_range T0 chunksize fuel b s = Some r ->
  r.1 = true /\ adaptor_ok chunksize r.2 /\
  contents r.2 = reverse b ++ contents s.
Proof.
  revert b s. induction fuel as [|fuel IH]; intros b s Hok Hr.
  - destruct b; [|discriminate]. cbn in Hr. injection Hr as <-. auto.
  - destruct b as [|x b]; [cbn in Hr; injection Hr as <-; auto|].
    cbn [ChunkedAdaptor.push_range] in Hr.
    set (n := match ChunkedAdaptor.data s with
              | Some n => n
              | None => ChunkedAdaptor.mkChunk T0 chunksize
              end) in *.
    assert (Hn : Chunk.wf chunksize n /\
                 contents s = Chunk.items n ++ stack_items (ChunkedAdaptor.worklist s)).
    { unfold n, contents. destruct Hok as [Hcur _].
      destruct (ChunkedAdaptor.data s) as [m|]; [auto|].
      split; [apply Chunk_new_wf|reflexivity]. }
    destruct Hn as (Hwf & Hcont).
    destruct (Chunk_push_range_spec chunksize (x :: b) n Hwf)
      as (n' & Hpr & Hwf' & Hitems & Hnum' & _). cbv zeta in *.
    set (k := Nat.min (length (x :: b)) (chunksize - Chunk.num n)) in *.
    rewrite Hpr in Hr.
    destruct (drop k (x :: b)) as [|y b'] eqn:Hdrop.
    + injection Hr as <-. cbn [fst snd]. split; [reflexivity|]. split.
      * split; [exact Hwf'|apply Hok].
      * unfold contents at 1. cbn [ChunkedAdaptor.data ChunkedAdaptor.worklist].
        rewrite Hitems, Hcont, <- app_assoc.
        rewrite <- (take_drop k (x :: b)) at 2. rewrite Hdrop, app_nil_r.
        reflexivity.
    + assert (Hkl : (k < length (x :: b))%nat).
      { destruct (Nat.le_gt_cases (length (x :: b)) k) as [Hge|]; [|assumption].
        rewrite drop_ge in Hdrop by assumption. discriminate. }
      assert (Hfull : Chunk.num n' = chunksize).
      { destruct Hwf as [_ Hle]. unfold k in *. lia. }
      destruct (publish_ok chunksize n' (ChunkedAdaptor.worklist s) Hwf')
        as [Hpub Hpitems]; [lia|apply Hok|].
      destruct (IH (y :: b')
                  (ChunkedAdaptor.mk None
                     (wl_push n' (ChunkedAdaptor.worklist s))))
        as (Hr1 & Hok' & Hcont'); [split; [exact I|exact Hpub]|exact Hr|].
      split; [exact Hr1|]. split; [exact Hok'|].
      rewrite Hcont'. unfold contents at 1.
      cbn [ChunkedAdaptor.data ChunkedAdaptor.worklist app].
      change (@wl_push T (LIFO_SB.t T) _) with (@LIFO_SB.push T).
      rewrite Hpitems, Hitems, Hcont, <- Hdrop.
      rewrite <- (take_drop k (x :: b)) at 3.
      rewrite reverse_app, <- !app_assoc. reflexivity.
Qed.

(** A bulk push ends: within [length b] turns when the current chunk is
    absent or has a free cell, with one more turn otherwise. *)
Lemma push_range_ends_roomy (fuel : nat) (b : list T) (s : adaptor) :
  match ChunkedAdaptor.data s with
  | Some n => (Chunk.num n < chunksize)%nat
  | None => True
  end ->
  (length b <= fuel)%nat ->
  is_Some (ChunkedAdaptor.push_range T0 chunksize fuel b s).
Proof.
  revert b s. induction fuel as [|fuel IH]; intros b s Hroom Hlen.
  - destruct b; [|cbn in Hlen; lia]. cbn. eauto.
  - destruct b as [|x b]; [cbn; eauto|].
    cbn [ChunkedAdaptor.push_range].
    set (n := match ChunkedAdaptor.data s with
              | Some n => n
              | None => ChunkedAdaptor.mkChunk T0 chunksize
              end).
    assert (Hn : (Chunk.num n < chunksize)%nat).
    { unfold n. destruct (ChunkedAdaptor.data s); [assumption|exact Hcs]. }
    pose proof (Chunk_push_range_length chunksize (x :: b) n) as [_ Hlt].
    specialize (Hlt ltac:(discriminate) Hn).
    destruct (Chunk.push_range chunksize (x :: b) n) as [b' n'].
    cbn [fst] in Hlt. destruct b' as [|y b']; [eauto|].
    apply IH; [exact I|]. cbn [length] in *. lia.
Qed.

Lemma push_range_ends (fuel : nat) (b : list T) (s : adaptor) :
  (length b < fuel)%nat ->
  is_Some (ChunkedAdaptor.push_range T0 chunksize fuel b s).
Proof.
  intros Hlen. destruct fuel as [|fuel]; [lia|].
  destruct b as [|x b]; [cbn; eauto|].
  cbn [ChunkedAdaptor.push_range].
  set (n := match ChunkedAdaptor.data s with
            | Some n => n
            | None => ChunkedAdaptor.mkChunk T0 chunksize
            end).
  pose proof (Chunk_push_range_length chunksize (x :: b) n) as [Hle _].
  destruct (Chunk.push_range chunksize (x :: b) n) as [b' n'].
  cbn [fst] in Hle. destruct b' as [|y b']; [eauto|].
  apply push_range_ends_roomy; [exact I|]. cbn [length] in *. lia.
Qed.

(** The bulk [push(b, e)] ends within [length b + 1] turns and leaves the
    adaptor holding the items of the range on top of what it held, the last
    of the range first: what pushing them one by one leaves. *)
Theorem ChunkedAdaptor_push_range_contents (fuel : nat) (b : list T) (s : adaptor) :
  adaptor_ok chunksize s -> (length b < fuel)%nat ->
  exists s', ChunkedAdaptor.push_range T0 chunksize fuel b s = Some (true, s') /\
             adaptor_ok chunksize s' /\
             contents s' = reverse b ++ contents s.
Proof.
  intros Hok Hlen. destruct (push_range_ends fuel b s Hlen) as [[ok s'] Hr].
  destruct (push_range_partial fuel b s _ Hok Hr) as (H1 & H2 & H3).
  cbn [fst snd] in *. subst ok. exists s'. auto.
Qed.

(** What a range [pushi] that returns has done. *)
Lemma pushi_range_partial (fuel : nat) (b : list T) (s s' : adaptor) :
  adaptor_ok chunksize s ->
  ChunkedAdaptor.pushi_range T0 chunksize fuel b s = Some s' ->
  adaptor_ok chunksize s' /\
  ChunkedAdaptor.data s' = ChunkedAdaptor.data s /\
  stack_items (ChunkedAdaptor.worklist s')
  = reverse b ++ stack_items (ChunkedAdaptor.worklist s).
Proof.
  revert b s. induction fuel as [|fuel IH]; intros b s Hok Hr.
  - destruct b; [|discriminate]. cbn in Hr. injection Hr as <-. auto.
  - destruct b as [|x b]; [cbn in Hr; injection Hr as <-; auto|].
    cbn [ChunkedAdaptor.pushi_range] in Hr.
    destruct (Chunk_push_range_spec chunksize (x :: b)
                (ChunkedAdaptor.mkChunk T0 chunksize) (Chunk_new_wf T0 chunksize))
      as (n' & Hpr & Hwf' & Hitems & Hnum' & _). cbv zeta in *.
    set (k := Nat.min (length (x :: b))
                (chunksize - Chunk.num (ChunkedAdaptor.mkChunk T0 chunksize))) in *.
    assert (Hk : (1 <= k)%nat).
    { unfold k. cbn [length Chunk.num ChunkedAdaptor.mkChunk Chunk.new]. lia. }
    rewrite Hpr in Hr.
    destruct (publish_ok chunksize n' (ChunkedAdaptor.worklist s) Hwf')
      as [Hpub Hpitems]; [lia|apply Hok|].
    destruct (IH (drop k (x :: b))
                (ChunkedAdaptor.mk (ChunkedAdaptor.data s)
                   (wl_pushi n' (ChunkedAdaptor.worklist s))))
      as (Hok' & Hdata' & Hcont'); [split; [apply Hok|exact Hpub]|exact Hr|].
    split; [exact Hok'|]. split; [exact Hdata'|]. rewrite Hcont'.
    cbn [ChunkedAdaptor.worklist].
    change (@wl_pushi T (LIFO_SB.t T) _ n' (ChunkedAdaptor.worklist s))
      with (LIFO_SB.push n' (ChunkedAdaptor.worklist s)).
    rewrite Hpitems, Hitems. unfold ChunkedAdaptor.mkChunk.
    rewrite Chunk_new_items, app_nil_r.
    rewrite <- (take_drop k (x :: b)) at 3.
    rewrite reverse_app, <- !app_assoc. reflexivity.
Qed.

Lemma pushi_range_ends (fuel : nat) (b : list T) (s : adaptor) :
  (length b <= fuel)%nat ->
  is_Some (ChunkedAdaptor.pushi_range T0 chunksize fuel b s).
Proof.
  revert b s. induction fuel as [|fuel IH]; intros b s Hlen.
  - destruct b; [|cbn in Hlen; lia]. cbn. eauto.
  - destruct b as [|x b]; [cbn; eauto|].
    cbn [ChunkedAdaptor.pushi_range].
    pose proof (Chunk_push_range_length chunksize (x :: b)
                  (ChunkedAdaptor.mkChunk T0 chunksize)) as [_ Hlt].
    specialize (Hlt ltac:(discriminate) Hcs).
    destruct (Chunk.push_range chunksize (x :: b)
                (ChunkedAdaptor.mkChunk T0 chunksize)) as [b' n'].
    cbn [fst] in Hlt. apply IH. cbn [length] in *. lia.
Qed.

(** The range [pushi(b, e)] ends within [length b] turns, leaves the current
    chunk of the worker as it was and puts the items of the range under it,
    above the items already published: they are popped after the items of
    the current chunk, the last of the range first. *)
Theorem ChunkedAdaptor_pushi_range_contents (fuel : nat) (b : list T)
    (s : adaptor) :
  adaptor_ok chunksize s -> (length b <= fuel)%nat ->
  exists s', ChunkedAdaptor.pushi_range T0 chunksize fuel b s = Some s' /\
             adaptor_ok chunksize s' /\
             ChunkedAdaptor.data s' = ChunkedAdaptor.data s /\
             contents s'
             = current_items s ++ reverse b
               ++ stack_items (ChunkedAdaptor.worklist s).
Proof.
  intros Hok Hlen. destruct (pushi_range_ends fuel b s Hlen) as [s' Hr].
  destruct (pushi_range_partial fuel b s s' Hok Hr) as (H1 & H2 & H3).
  exists s'. split; [assumption|]. split; [assumption|]. split; [assumption|].
  unfold contents, current_items. rewrite H2, H3. reflexivity.
Qed.

Lemma reachable_ok (s : adaptor) :
  reachable T0 chunksize s -> adaptor_ok chunksize s.
Proof.
  induction 1 as [|s val _ IH|s _ IH|s fuel b r _ IH Hr|s fuel b s' _ IH Hr].
  - apply init_ok.
  - destruct (push_ok T0 chunksize Hcs val s IH) as (s' & Hp & Hok & _).
    rewrite Hp. exact Hok.
  - destruct (pop_ok T0 chunksize Hcs s IH) as (s' & Hp & Hok & _).
    rewrite Hp. exact Hok.
  - apply (push_range_partial fuel b s r IH Hr).
  - apply (pushi_range_partial fuel b s s' IH Hr).
Qed.

(** In every state a worker reaches with [push], [pop], the bulk [push] and
    the range [pushi], [push] succeeds and puts its item on top of the items
    held, and [pop] returns the item on top and removes it, or fails when no
    item is held and leaves none. *)
Theorem reachable_push_pop (s : adaptor) (val : T) :
  reachable T0 chunksize s ->
  (ChunkedAdaptor.push T0 chunksize val s).1 = true /\
  contents (ChunkedAdaptor.push T0 chunksize val s).2 = val :: contents s /\
  (ChunkedAdaptor.pop T0 s).1 = (stack_pop T0 (contents s)).1 /\
  contents (ChunkedAdaptor.pop T0 s).2 = (stack_pop T0 (contents s)).2.
Proof.
  intros Hreach. pose proof (reachable_ok s Hreach) as Hok.
  destruct (push_ok T0 chunksize Hcs val s Hok) as (s1 & Hp & _ & Hc1).
  destruct (pop_ok T0 chunksize Hcs s Hok) as (s2 & Hq & _ & Hc2).
  rewrite Hp, Hq. auto.
Qed.
End AdaptorRanges.

Lemma ChunkedAdaptor_push_range_contents_witness :
  exists s',
    ChunkedAdaptor.push_range 0 2 4 [1; 2; 3] (ChunkedAdaptor.init LIFO_SB.init)
    = Some (true, s') /\
    adaptor_ok 2 s' /\
    contents s' = reverse [1; 2; 3] ++ contents (ChunkedAdaptor.init LIFO_SB.init).
Proof.
  apply (ChunkedAdaptor_push_range_contents 0 2).
  - lia.
  - apply init_ok.
  - cbn. lia.
Defined.

Lemma ChunkedAdaptor_pushi_range_contents_witness :
  exists s',
    ChunkedAdaptor.pushi_range 0 2 3 [1; 2; 3]
      (ChunkedAdaptor.push 0 2 9 (ChunkedAdaptor.init LIFO_SB.init)).2
    = Some s' /\
    adaptor_ok 2 s' /\
    ChunkedAdaptor.data s'
    = ChunkedAdaptor.data (ChunkedAdaptor.push 0 2 9 (ChunkedAdaptor.init LIFO_SB.init)).2 /\
    contents s'
    = current_items (ChunkedAdaptor.push 0 2 9 (ChunkedAdaptor.init LIFO_SB.init)).2
      ++ reverse [1; 2; 3]
      ++ stack_items
           (ChunkedAdaptor.worklist
              (ChunkedAdaptor.push 0 2 9 (ChunkedAdaptor.init LIFO_SB.init)).2).
Proof.
  apply (ChunkedAdaptor_pushi_range_contents 0 2).
  - lia.
  - apply (reachable_ok 0 2); [lia|]. apply reach_push. apply reach_init.
  - cbn. lia.
Defined.

Lemma reachable_push_pop_witness :
  let s := (ChunkedAdaptor.push 0 2 9 (ChunkedAdaptor.init LIFO_SB.init)).2 in
  (ChunkedAdaptor.push 0 2 7 s).1 = true /\
  contents (ChunkedAdaptor.push 0 2 7 s).2 = 7 :: contents s /\
  (ChunkedAdaptor.pop 0 s).1 = (stack_pop 0 (contents s)).1 /\
  contents (ChunkedAdaptor.pop 0 s).2 = (stack_pop 0 (contents s)).2.
Proof.
  apply (reachable_push_pop 0 2).
  - lia.
  - apply reach_push. apply reach_init.
Defined.

(** * Further properties of the Louvain driver *)

(** ** Loops that may be undefined *)

Lemma do_all_None {E St : Type} (op : E -> St -> option St) (x : E)
    (l : list E) (s : St) :
  (forall s, op x s = None) -> x ∈ l -> do_all op l s = None.
Proof.
  intros Hx. revert s. induction l as [|y l IH]; intros s Hin.
  - apply elem_of_nil in Hin. contradiction.
  - cbn [do_all]. destruct (op y s) as [s1|] eqn:Hop; [|reflexivity].
    cbn [mbind option_bind]. apply elem_of_cons in Hin as [->|Hin].
    + rewrite Hx in Hop. discriminate.
    + apply IH. assumption.
Qed.

Lemma do_all_seqZ_partial {St : Type} (op : Z -> St -> option St)
    (I : Z -> St -> Prop) (len : nat) (lo : Z) (s s' : St) :
  (forall i s s', lo <= i < lo + Z.of_nat len -> I i s -> op i s = Some s' ->
                  I (i + 1) s') ->
  I lo s ->
  do_all op (seqZ lo (Z.of_nat len)) s = Some s' ->
  I (lo + Z.of_nat len) s'.
Proof.
  revert lo s. induction len as [|len IH]; intros lo s Hstep Hs Hloop.
  - cbn in Hloop. injection Hloop as <-. rewrite Z.add_0_r. assumption.
  - rewrite seqZ_cons in Hloop by lia. cbn [do_all] in Hloop.
    destruct (op lo s) as [s1|] eqn:Hop; [|discriminate].
    cbn [mbind option_bind] in Hloop.
    replace (Z.pred (Z.of_nat (S len))) with (Z.of_nat len) in Hloop by lia.
    replace (lo + Z.of_nat (S len)) with (Z.succ lo + Z.of_nat len) by lia.
    apply (IH (Z.succ lo) s1).
    + intros i s0 s0' Hi. apply Hstep. lia.
    + replace (Z.succ lo) with (lo + 1) by lia.
      apply (Hstep lo s s1); [lia|assumption|assumption].
    + assumption.
Qed.

(** ** vertexFollowing *)

(** When the vertex that owns the last cell of the edge array has degree 1,
    [vertexFollowing] reads the cell after the array: it is undefined. *)
Theorem vertexFollowing_reads_past_edges (g : Graph) (nodes : NodeData)
    (clusters : largeArray) (n : Z) :
  in_range (edgeIndData g) n = true ->
  distance g n = Some 1 ->
  edge_end g n = Some (Z.of_nat (length (edgeDst g))) ->
  vertexFollowing g nodes clusters = None.
Proof.
  intros Hn Hdist Hend. unfold vertexFollowing.
  destruct (do_all init_curr (iterate g) nodes) as [nodes1|]; [|reflexivity].
  cbn [mbind option_bind].
  rewrite (do_all_None (vf_op g nodes1) n); [reflexivity| |].
  - intros [cl cnt]. unfold vf_op. rewrite Hdist. cbn [mbind option_bind].
    change (1 =? 0) with false. change (1 =? 1) with true. cbv iota.
    rewrite Hend. cbn [mbind option_bind].
    unfold getEdgeDst, at_, in_range. rewrite Z.ltb_irrefl, andb_false_r.
    reflexivity.
  - unfold iterate, graph_size. apply elem_of_seqZ.
    apply in_range_spec in Hn. lia.
Qed.

Lemma vertexFollowing_reads_past_edges_witness :
  vertexFollowing path01 [Node.mk 0 0 0 0; Node.mk 0 0 0 0] [7; 7] = None.
Proof.
  apply (vertexFollowing_reads_past_edges path01 _ _ 1); reflexivity.
Defined.

Lemma init_curr_loop_partial (g : Graph) (nodes nodes1 : NodeData) :
  do_all init_curr (iterate g) nodes = Some nodes1 ->
  length nodes1 = length nodes /\
  forall j d, at_ nodes1 j = Some d -> in_range (edgeIndData g) j = true ->
              Node.curr_comm_ass d = j.
Proof.
  intros Hloop. unfold iterate, graph_size in Hloop.
  pose proof (do_all_seqZ_partial init_curr
                (fun i l => length l = length nodes /\
                            forall j d, at_ l j = Some d -> 0 <= j < i ->
                                        Node.curr_comm_ass d = j)
                (length (edgeIndData g)) 0 nodes nodes1) as H.
  destruct H as [Hl Hc]; [| |exact Hloop|].
  - intros i l l' Hi [Hll Hlc] Hop. unfold init_curr in Hop.
    destruct (at_ l i) as [d|] eqn:Hd; [|discriminate].
    cbn [mbind option_bind] in Hop. apply set_inv in Hop as [Hr ->].
    split; [rewrite length_insert; assumption|].
    intros j dj Hj Hji. destruct (Z.eq_dec j i) as [->|Hne].
    + rewrite at_insert_eq in Hj by (apply in_range_spec; lia).
      injection Hj as <-. reflexivity.
    + rewrite at_insert_ne in Hj by lia. apply (Hlc j dj Hj). lia.
  - split; [reflexivity|]. intros j d _ Hj. lia.
  - split; [assumption|]. intros j d Hj Hr. apply (Hc j d Hj).
    apply in_range_spec in Hr. lia.
Qed.

(** What [vertexFollowing] does to [clusters]. *)
Lemma vertexFollowing_clusters (g : Graph) (nodes nodes' : NodeData)
    (clusters clusters' : largeArray) (count : Z) :
  vertexFollowing g nodes clusters = Some (nodes', clusters', count) ->
  length clusters' = length clusters /\
  0 <= count <= graph_size g /\
  (forall j d, at_ nodes' j = Some d -> in_range (edgeIndData g) j = true ->
               Node.curr_comm_ass d = j) /\
  (forall j, in_range (edgeIndData g) j = true -> distance g j = Some 0 ->
             at_ clusters' j = Some minus_one) /\
  (forall j k, distance g j = Some k -> 2 <= k ->
               at_ clusters' j = at_ clusters j) /\
  (forall j, in_range (edgeIndData g) j = false ->
             at_ clusters' j = at_ clusters j).
Proof.
  unfold vertexFollowing. intros H.
  destruct (do_all init_curr (iterate g) nodes) as [nodes1|] eqn:Hinit;
    [|discriminate].
  cbn [mbind option_bind] in H.
  destruct (do_all (vf_op g nodes1) (iterate g) (clusters, 0))
    as [[cl cnt]|] eqn:Hloop; [|discriminate].
  cbn [mbind option_bind] in H. injection H as <- <- <-.
  destruct (init_curr_loop_partial g nodes nodes1 Hinit) as [_ Hcurr].
  unfold iterate, graph_size in Hloop.
  pose proof (do_all_seqZ_partial (vf_op g nodes1)
                (fun i st =>
                   length st.1 = length clusters /\
                   0 <= st.2 <= i /\
                   (forall j, 0 <= j < i -> distance g j = Some 0 ->
                              at_ st.1 j = Some minus_one) /\
                   (forall j, (j < 0 \/ i <= j \/
                               exists k, distance g j = Some k /\ 2 <= k) ->
                              at_ st.1 j = at_ clusters j))
                (length (edgeIndData g)) 0 (clusters, 0) (cl, cnt)) as Hinv.
  destruct Hinv as (Hl & Hc & Hiso & Hframe); [| |exact Hloop|].
  - intros i [c0 k0] [c1 k1] Hi (Hl0 & Hk0 & Hiso0 & Hfr0) Hop.
    cbn [fst snd] in *.
    assert (Hkeep : (c1, k1) = (c0, k0) ->
              length c1 = length clusters /\ 0 <= k1 <= i + 1 /\
              (forall j, 0 <= j < i + 1 -> distance g j = Some 0 ->
                         at_ c1 j = Some minus_one) ->
              True) by auto.
    clear Hkeep.
    assert (Hwrite : forall v, set_ c0 i v = Some c1 ->
              distance g i <> None ->
              k1 = wrap64 (k0 + 1) ->
              (distance g i = Some 0 -> v = minus_one) ->
              (forall k, distance g i = Some k -> k < 2) ->
              length c1 = length clusters /\ 0 <= k1 <= i + 1 /\
              (forall j, 0 <= j < i + 1 -> distance g j = Some 0 ->
                         at_ c1 j = Some minus_one) /\
              (forall j, (j < 0 \/ i + 1 <= j \/
                          exists k, distance g j = Some k /\ 2 <= k) ->
                         at_ c1 j = at_ clusters j)).
    { intros v Hset _ -> Hv Hsmall. apply set_inv in Hset as [Hr ->].
      split; [rewrite length_insert; assumption|]. split.
      { pose proof (wrap64_range (k0 + 1)). pose proof (wrap64_le (k0 + 1)). lia. }
      split.
      - intros j Hj Hdj. destruct (Z.eq_dec j i) as [->|Hne].
        + rewrite at_insert_eq by (apply in_range_spec; lia).
          rewrite (Hv Hdj). reflexivity.
        + rewrite at_insert_ne by lia. apply Hiso0; [lia|assumption].
      - intros j Hj. destruct (Z.eq_dec j i) as [->|Hne].
        + destruct Hj as [Hj|[Hj|(k & Hk & Hk2)]]; [lia|lia|].
          specialize (Hsmall k Hk). lia.
        + rewrite at_insert_ne by lia. apply Hfr0.
          destruct Hj as [Hj|[Hj|Hj]]; [auto|right; left; lia|auto]. }
    assert (Hsame : c1 = c0 -> k1 = k0 -> distance g i <> Some 0 ->
              length c1 = length clusters /\ 0 <= k1 <= i + 1 /\
              (forall j, 0 <= j < i + 1 -> distance g j = Some 0 ->
                         at_ c1 j = Some minus_one) /\
              (forall j, (j < 0 \/ i + 1 <= j \/
                          exists k, distance g j = Some k /\ 2 <= k) ->
                         at_ c1 j = at_ clusters j)).
    { intros -> -> Hnz. split; [assumption|]. split; [lia|]. split.
      - intros j Hj Hdj. destruct (Z.eq_dec j i) as [->|Hne]; [contradiction|].
        apply Hiso0; [lia|assumption].
      - intros j Hj. apply Hfr0.
        destruct Hj as [Hj|[Hj|Hj]]; [auto|right; left; lia|auto]. }
    unfold vf_op in Hop.
    destruct (distance g i) as [deg|] eqn:Hdeg; [|discriminate].
    cbn [mbind option_bind] in Hop.
    destruct (Z.eqb_spec deg 0) as [->|Hnz].
    + destruct (set_ c0 i minus_one) as [c2|] eqn:Hset; [|discriminate].
      cbn [mbind option_bind] in Hop. injection Hop as <- <-.
      apply (Hwrite minus_one Hset); [discriminate|reflexivity|auto|].
      intros k [= <-]. lia.
    + destruct (Z.eqb_spec deg 1) as [->|Hn1].
      * destruct (edge_end g i) as [e|]; [|discriminate].
        cbn [mbind option_bind] in Hop.
        destruct (getEdgeDst g e) as [dst|]; [|discriminate].
        cbn [mbind option_bind] in Hop.
        destruct (distance g dst) as [dd|]; [|discriminate].
        cbn [mbind option_bind] in Hop.
        destruct ((1 <? dd) || (dst <? i)).
        -- destruct (at_ nodes1 dst) as [d|]; [|discriminate].
           cbn [mbind option_bind] in Hop.
           destruct (set_ c0 i (Node.curr_comm_ass d)) as [c2|] eqn:Hset;
             [|discriminate].
           cbn [mbind option_bind] in Hop. injection Hop as <- <-.
           apply (Hwrite _ Hset); [discriminate|reflexivity|discriminate|].
           intros k [= <-]. lia.
        -- injection Hop as <- <-. apply Hsame; [reflexivity|reflexivity|].
           discriminate.
      * injection Hop as <- <-. apply Hsame; [reflexivity|reflexivity|].
        intros [= ->]. contradiction.
  - cbn [fst snd]. split; [reflexivity|]. split; [lia|]. split.
    + intros j Hj. lia.
    + reflexivity.
  - cbn [fst snd] in *. rewrite Z.add_0_l in *. unfold graph_size.
    split; [assumption|]. split; [assumption|].
    split; [exact Hcurr|]. split.
    + intros j Hj Hd. apply Hiso; [|assumption]. apply in_range_spec in Hj. lia.
    + split.
      * intros j k Hk Hk2. apply Hframe. right. right. eauto.
      * intros j Hj. apply Hframe.
        destruct (Z.ltb_spec j 0); [auto|]. right. left.
        destruct (Z.ltb_spec j (Z.of_nat (length (edgeIndData g)))); [|lia].
        assert (in_range (edgeIndData g) j = true) by (apply in_range_spec; lia).
        congruence.
Qed.

(** ** Weighted degrees *)

Lemma edge_weights_sum (g : Graph) (es : list Z) (acc tw : Z) :
  do_all (add_edge_weight g) es acc = Some tw ->
  wrap64 tw = wrap64 (acc + sumZ (fun ii => default 0 (getEdgeData g ii)) es).
Proof.
  revert acc. induction es as [|ii es IH]; intros acc H.
  - cbn in H. injection H as <-. cbn [sumZ]. rewrite Z.add_0_r. reflexivity.
  - cbn [do_all] in H.
    destruct (add_edge_weight g ii acc) as [acc'|] eqn:Ha;
      cbn [mbind option_bind] in H; [|discriminate].
    unfold add_edge_weight in Ha.
    destruct (getEdgeData g ii) as [w|] eqn:Hw;
      cbn [mbind option_bind] in Ha; [|discriminate].
    injection Ha as <-. rewrite (IH _ H). cbn [sumZ].
    rewrite Hw. cbn [default]. unfold id. rewrite wrap64_add_l.
    apply (f_equal wrap64). lia.
Qed.

Lemma vertex_weight_row (g : Graph) (n : Z) :
  wf_graph g = true -> in_range (edgeIndData g) n = true ->
  vertex_weight g n = wrap64 (row_weight g n).
Proof.
  intros Hwf Hn.
  destruct (vertex_weight_spec g Hwf n Hn) as (es & Hes & Htw & Hr & _).
  unfold row_weight. rewrite Hes. cbn [default].
  rewrite <- (wrap64_small (vertex_weight g n)) by assumption.
  rewrite (edge_weights_sum g es 0 _ Htw). reflexivity.
Qed.

Lemma sum_op_loop (g : Graph) (nodes : NodeData)
    (c_info : CommArray) :
  wf_graph g = true ->
  length nodes = length (edgeIndData g) ->
  length c_info = length (edgeIndData g) ->
  exists nodes2 c_info2,
    sumVertexDegreeWeight g nodes c_info = Some (nodes2, c_info2) /\
    length nodes2 = length nodes /\ length c_info2 = length c_info /\
    forall n d, at_ nodes n = Some d ->
      at_ nodes2 n = Some (Node.set_degree_wt d (wrap64 (row_weight g n))) /\
      at_ c_info2 n = Some (Comm.mk 1 (wrap64 (row_weight g n))).
Proof.
  intros Hwf Hlen Hclen. unfold sumVertexDegreeWeight, iterate, graph_size.
  destruct (do_all_seqZ_inv (sum_op g)
              (fun i st =>
                 length st.1 = length (edgeIndData g) /\
                 length st.2 = length (edgeIndData g) /\
                 forall j d, at_ nodes j = Some d ->
                   at_ st.1 j
                   = Some (if j <? i
                           then Node.set_degree_wt d (wrap64 (row_weight g j))
                           else d) /\
                   (j < i -> at_ st.2 j = Some (Comm.mk 1 (wrap64 (row_weight g j)))))
              (length (edgeIndData g)) 0 (nodes, c_info))
    as ([nodes2 c_info2] & Hloop & Hl & Hcl & Hp).
  - intros i [l ci] Hi (Hll & Hcil & Hp). cbn [fst snd] in *.
    assert (Hr0 : in_range nodes i = true) by (apply in_range_spec; lia).
    assert (Hr : in_range l i = true) by (apply in_range_spec; lia).
    assert (Hcr : in_range ci i = true) by (apply in_range_spec; lia).
    assert (Hgr : in_range (edgeIndData g) i = true) by (apply in_range_spec; lia).
    destruct (at_is_Some _ _ Hr0) as [d0 Hd0].
    destruct (Hp i d0 Hd0) as [Hli _]. rewrite Z.ltb_irrefl in Hli.
    destruct (vertex_weight_spec g Hwf i Hgr) as (es & Hes & Htw & _).
    unfold sum_op. rewrite Hli. cbn [mbind option_bind].
    rewrite Hes. cbn [mbind option_bind]. rewrite Htw. cbn [mbind option_bind].
    rewrite (set_Some _ _ _ Hr). cbn [mbind option_bind].
    rewrite (set_Some _ _ _ Hcr). cbn [mbind option_bind].
    rewrite (vertex_weight_row g i Hwf Hgr).
    eexists. split; [reflexivity|]. cbn [fst snd].
    split; [rewrite length_insert; assumption|].
    split; [rewrite length_insert; assumption|].
    intros j d Hj. destruct (Hp j d Hj) as [H1 H2].
    destruct (Z.eq_dec j i) as [->|Hne].
    + assert (d = d0) by congruence. subst d.
      rewrite !at_insert_eq by assumption.
      destruct (Z.ltb_spec i (i + 1)); [|lia]. auto.
    + rewrite !at_insert_ne by lia. rewrite H1. split.
      * destruct (Z.ltb_spec j i), (Z.ltb_spec j (i + 1)); try lia; reflexivity.
      * intros Hji. apply H2. lia.
  - cbn [fst snd]. split; [assumption|]. split; [assumption|].
    intros j d Hj. pose proof (at_range _ _ _ Hj).
    destruct (Z.ltb_spec j 0); [lia|]. split; [assumption|lia].
  - cbn [fst snd] in *. exists nodes2, c_info2. split; [assumption|].
    split; [congruence|]. split; [congruence|].
    intros n d Hd. destruct (Hp n d Hd) as [H1 H2].
    pose proof (at_range _ _ _ Hd).
    destruct (Z.ltb_spec n (0 + Z.of_nat (length (edgeIndData g)))); [|lia].
    split; [assumption|]. apply H2. lia.
Qed.

(** On a well-formed graph [sumVertexDegreeWeight] returns; for every vertex
    it stores the sum of the weights of the row, taken on 64 bits, in the
    payload and in the community record of the same index, sets the size of
    that record to 1 and changes no other field. *)
Theorem sumVertexDegreeWeight_spec (g : Graph) (nodes : NodeData)
    (c_info : CommArray) :
  wf_graph g = true ->
  length nodes = length (edgeIndData g) ->
  length c_info = length (edgeIndData g) ->
  exists nodes2 c_info2,
    sumVertexDegreeWeight g nodes c_info = Some (nodes2, c_info2) /\
    length nodes2 = length nodes /\ length c_info2 = length c_info /\
    forall n d, at_ nodes n = Some d ->
      at_ nodes2 n = Some (Node.set_degree_wt d (wrap64 (row_weight g n))) /\
      at_ c_info2 n = Some (Comm.mk 1 (wrap64 (row_weight g n))).
Proof. apply sum_op_loop. Qed.

Lemma sumVertexDegreeWeight_spec_witness :
  exists nodes2 c_info2,
    sumVertexDegreeWeight edge_and_isolated
      [Node.mk 0 0 0 0; Node.mk 1 1 0 0; Node.mk 2 2 0 0]
      [Comm.mk 0 0; Comm.mk 0 0; Comm.mk 0 0] = Some (nodes2, c_info2) /\
    length nodes2 = length [Node.mk 0 0 0 0; Node.mk 1 1 0 0; Node.mk 2 2 0 0] /\
    length c_info2 = length [Comm.mk 0 0; Comm.mk 0 0; Comm.mk 0 0] /\
    forall n d,
      at_ [Node.mk 0 0 0 0; Node.mk 1 1 0 0; Node.mk 2 2 0 0] n = Some d ->
      at_ nodes2 n
      = Some (Node.set_degree_wt d (wrap64 (row_weight edge_and_isolated n))) /\
      at_ c_info2 n = Some (Comm.mk 1 (wrap64 (row_weight edge_and_isolated n))).
Proof.
  apply sumVertexDegreeWeight_spec.
  - vm_compute. reflexivity.
  - reflexivity.
  - reflexivity.
Defined.

Lemma sumZ_app {A : Type} (f : A -> Z) (l1 l2 : list A) :
  sumZ f (l1 ++ l2) = sumZ f l1 + sumZ f l2.
Proof. induction l1 as [|a l1 IH]; cbn [app sumZ]; lia. Qed.

Lemma weight_loop (g : Graph) (nodes : NodeData) :
  length nodes = length (edgeIndData g) ->
  calConstantForSecondTerm g nodes
  = Some (ddiv (of_int 1) (of_int (wrap64 (sumZ Node.degree_wt nodes)))).
Proof.
  intros Hlen. unfold calConstantForSecondTerm, iterate, graph_size.
  destruct (do_all_seqZ_inv (weight_op nodes)
              (fun i acc =>
                 acc = wrap64 (sumZ Node.degree_wt (take (Z.to_nat i) nodes)))
              (length (edgeIndData g)) 0 0) as (tw & Htw & Hacc).
  - intros i acc Hi ->.
    assert (Hr : in_range nodes i = true) by (apply in_range_spec; lia).
    destruct (at_is_Some _ _ Hr) as [d Hd].
    unfold weight_op. rewrite Hd. cbn [mbind option_bind].
    eexists. split; [reflexivity|].
    apply at_Some in Hd as [_ Hd].
    replace (Z.to_nat (i + 1)) with (S (Z.to_nat i)) by lia.
    rewrite (take_S_r _ _ _ Hd), sumZ_app. cbn [sumZ].
    rewrite wrap64_add_l. apply (f_equal wrap64). lia.
  - reflexivity.
  - rewrite Htw. cbn [mbind option_bind]. rewrite Hacc.
    rewrite take_ge by lia. reflexivity.
Qed.

(** The normaliser is the inverse of the sum of the stored weighted degrees,
    the sum being taken on 64 bits and then converted. *)
Theorem calConstantForSecondTerm_spec (g : Graph) (nodes : NodeData) :
  length nodes = length (edgeIndData g) ->
  calConstantForSecondTerm g nodes
  = Some (ddiv (of_int 1) (of_int (wrap64 (sumZ Node.degree_wt nodes)))).
Proof. apply weight_loop. Qed.

Lemma calConstantForSecondTerm_spec_witness :
  calConstantForSecondTerm edge_and_isolated eai_nodes
  = Some (ddiv (of_int 1) (of_int (wrap64 (sumZ Node.degree_wt eai_nodes)))).
Proof. apply calConstantForSecondTerm_spec. reflexivity. Defined.

(** ** The target of a vertex *)

Lemma scan_edge_keys (g : Graph) (nodes : NodeData) (n ii : Z)
    (st st' : std_map * list Z * Z * Z) (e : Z * Z) :
  scan_edge g nodes n ii st = Some st' ->
  e ∈ st'.1.1.1 ->
  e ∈ st.1.1.1 \/
  exists dst d, getEdgeDst g ii = Some dst /\ at_ nodes dst = Some d /\
                e.1 = Node.curr_comm_ass d.
Proof.
  destruct st as [[[m counter] num] slw]. unfold scan_edge. intros H He.
  destruct (getEdgeDst g ii) as [dst|]; [|discriminate].
  cbn [mbind option_bind] in H.
  destruct (getEdgeData g ii) as [w|]; [|discriminate].
  cbn [mbind option_bind] in H.
  destruct (at_ nodes dst) as [d|] eqn:Hd; [|discriminate].
  cbn [mbind option_bind] in H.
  destruct (map_find m (Node.curr_comm_ass d)) as [idx|].
  - destruct (at_ counter idx) as [c|]; [|discriminate].
    cbn [mbind option_bind] in H.
    destruct (set_ counter idx (wrap64 (c + w))) as [c'|]; [|discriminate].
    cbn [mbind option_bind] in H. injection H as <-. left. exact He.
  - injection H as <-. cbn [fst] in He.
    apply elem_of_map_insert in He as [->|He]; [|auto].
    right. exists dst, d. auto.
Qed.

(** The target is [-1] for an isolated vertex; otherwise it is the current
    community of the vertex or the community of one of its neighbours. *)
Lemma local_target_of_choice (g : Graph) (constant : double) (nodes : NodeData)
    (c_info : CommArray) (n : Z) (d : Node.t) :
  wf_graph g = true ->
  length nodes = length (edgeIndData g) ->
  (forall n d, at_ nodes n = Some d -> isolated g n = false ->
               in_range c_info (Node.curr_comm_ass d) = true) ->
  at_ nodes n = Some d ->
  exists t, local_target_of g constant nodes c_info n d = Some t /\
            (if isolated g n then t = minus_one
             else t = Node.curr_comm_ass d \/ neighbour_comm g nodes n t).
Proof.
  intros Hwf Hnodes Hcomm Hd.
  assert (Hn : in_range (edgeIndData g) n = true).
  { apply at_range in Hd. apply in_range_spec. lia. }
  destruct (wf_row g Hwf n Hn) as (b & e & Hb & He & Hbe & Hel).
  destruct (wf_distance g Hwf n b e Hb He Hbe Hel) as (Hdist & Hedges & Hiso).
  unfold local_target_of. rewrite Hdist. cbn [mbind option_bind].
  rewrite Hiso. destruct (Z.eqb_spec (e - b) 0) as [Hz|Hnz].
  - rewrite Hz. change (0 <? 0) with false. exists minus_one. auto.
  - destruct (Z.ltb_spec 0 (e - b)) as [Hpos|]; [|lia].
    rewrite Hedges. cbn [mbind option_bind].
    pose proof (Hcomm n d Hd Hiso) as Hsc.
    destruct (do_all_inv (scan_edge g nodes n)
                (fun st =>
                   scan_ok c_info st /\
                   forall x, x ∈ st.1.1.1 ->
                     x.1 = Node.curr_comm_ass d \/
                     exists ii dst dd,
                       ii ∈ seqZ b (e - b) /\ getEdgeDst g ii = Some dst /\
                       at_ nodes dst = Some dd /\ Node.curr_comm_ass dd = x.1)
                (seqZ b (e - b))
                (map_insert [] (Node.curr_comm_ass d) 0, [0], 1, 0))
      as ([[[m counter] num] slw] & Hscan & Hok & Hkeys).
    { intros ii st Hii [Hst Hk].
      destruct (scan_edge_ok g Hwf nodes c_info Hnodes Hcomm n ii st)
        as (st' & Hst' & Hok'); [apply elem_of_seqZ in Hii; lia|assumption|].
      exists st'. split; [assumption|]. split; [assumption|].
      intros x Hx.
      destruct (scan_edge_keys g nodes n ii st st' x Hst' Hx)
        as [Hold|(dst & dd & H1 & H2 & H3)]; [auto|].
      right. exists ii, dst, dd. auto. }
    { split.
      - cbn [map_insert]. split; [repeat constructor|].
        split; [discriminate|]. split.
        + repeat constructor. assumption.
        + split; [reflexivity|]. cbn [length]. lia.
      - cbn [fst map_insert]. intros x Hx.
        apply list_elem_of_singleton in Hx. subst x. left. reflexivity. }
    rewrite Hscan. cbn [mbind option_bind].
    destruct Hok as (Hs & Hne & Hr & H0 & _).
    destruct (maxModularity_defined m counter slw c_info (Node.degree_wt d)
                (Node.curr_comm_ass d) constant Hs Hne Hr H0 Hsc)
      as (r & gr & _ & Hkey & Hres).
    rewrite Hres. eexists. split; [reflexivity|].
    destruct (singleton_swap c_info (Node.curr_comm_ass d) r); [auto|].
    destruct Hkey as [->|[i Hi]]; [auto|].
    cbn [fst] in Hkeys.
    destruct (Hkeys _ Hi) as [Hx|(ii & dst & dd & H1 & H2 & H3 & H4)];
      [left; exact Hx|].
    right. exists (seqZ b (e - b)), ii, dst, dd. auto.
Qed.

Lemma louvain_op_step (g : Graph) (constant : double) (n : Z)
    (nodes : NodeData) (c_info : CommArray) :
  wf_graph g = true -> louvain_inv g nodes c_info ->
  in_range (edgeIndData g) n = true ->
  exists d t c_info',
    at_ nodes n = Some d /\
    louvain_op g constant n (nodes, c_info)
    = Some (<[Z.to_nat n := Node.set_curr_comm_ass d t]> nodes, c_info') /\
    louvain_inv g (<[Z.to_nat n := Node.set_curr_comm_ass d t]> nodes) c_info' /\
    (if isolated g n then t = minus_one /\ c_info' = c_info
     else t = Node.curr_comm_ass d \/ neighbour_comm g nodes n t).
Proof.
  intros Hwf Hinv Hn.
  destruct (louvain_op_preserves g constant n nodes c_info Hwf Hinv Hn)
    as (nodes' & c_info' & Hop & Hinv').
  destruct (louvain_op_inv _ _ _ _ _ _ _ Hop) as (d & t & Hd & Ht & -> & Hmig).
  destruct Hinv as (Hlen & _ & Hcomm & _).
  destruct (local_target_of_choice g constant nodes c_info n d Hwf Hlen Hcomm Hd)
    as (t' & Ht' & Hcase).
  assert (t' = t) by congruence. subst t'.
  exists d, t, c_info'. split; [assumption|]. split; [assumption|].
  split; [assumption|].
  destruct (isolated g n); [|assumption].
  split; [assumption|]. subst t. rewrite Z.eqb_refl in Hmig.
  cbn [negb] in Hmig. rewrite andb_false_r in Hmig. assumption.
Qed.

Lemma louvain_op_node_inv (g : Graph) (n : Z) (nodes : NodeData) (d : Node.t)
    (t : Z) :
  node_inv g nodes -> at_ nodes n = Some d ->
  (isolated g n = true -> t = minus_one) ->
  node_inv g (<[Z.to_nat n := Node.set_curr_comm_ass d t]> nodes).
Proof.
  intros Hinv Hd Ht j dj Hj.
  pose proof (at_in_range _ _ _ Hd) as Hr.
  destruct (Z.eq_dec j n) as [->|Hne].
  - rewrite (at_insert_eq _ _ _ Hr) in Hj. injection Hj as <-.
    destruct (Hinv n d Hd) as (H1 & H2 & _).
    cbn [Node.set_curr_comm_ass Node.prev_comm_ass Node.degree_wt
         Node.curr_comm_ass].
    split; [assumption|]. split; [assumption|]. auto.
  - apply in_range_spec in Hr. rewrite at_insert_ne in Hj by lia.
    apply Hinv. assumption.
Qed.

(** Both invariants hold at every boundary of the iteration. *)
Lemma louvain_pass_invs (g : Graph) (constant : double) (order : list Z)
    (st : NodeData * CommArray) :
  wf_graph g = true ->
  (forall v, v ∈ order -> in_range (edgeIndData g) v = true) ->
  louvain_inv g st.1 st.2 /\ node_inv g st.1 ->
  exists st', do_all (louvain_op g constant) order st = Some st' /\
              louvain_inv g st'.1 st'.2 /\ node_inv g st'.1.
Proof.
  intros Hwf Ho Hinv.
  apply (do_all_inv (louvain_op g constant)
           (fun s => louvain_inv g s.1 s.2 /\ node_inv g s.1)); [|assumption].
  intros v [nodes c_info] Hv [Hs Hnd]. cbn [fst snd] in *.
  destruct (louvain_op_step g constant v nodes c_info Hwf Hs (Ho v Hv))
    as (d & t & c_info' & Hd & Hop & Hinv' & Hcase).
  eexists. split; [exact Hop|]. cbn [fst snd]. split; [assumption|].
  apply louvain_op_node_inv; [assumption|assumption|].
  intros Hiso. rewrite Hiso in Hcase. apply Hcase.
Qed.

Lemma louvain_passes_invs (g : Graph) (constant : double)
    (sched : Z -> list Z) (k : nat) (num_iter : Z) (st : NodeData * CommArray) :
  wf_graph g = true ->
  (forall i v, v ∈ sched i -> in_range (edgeIndData g) v = true) ->
  louvain_inv g st.1 st.2 /\ node_inv g st.1 ->
  exists st', louvain_passes g constant sched k num_iter st = Some st' /\
              louvain_inv g st'.1 st'.2 /\ node_inv g st'.1.
Proof.
  intros Hwf Hs. revert num_iter st.
  induction k as [|k IH]; intros num_iter st Hinv.
  - exists st. auto.
  - cbn [louvain_passes].
    destruct (louvain_pass_invs g constant
                (sched ((num_iter + 1) mod 2 ^ 32)) st Hwf) as (st1 & Hp & Hinv1);
      [apply Hs|assumption|].
    rewrite Hp. cbn [mbind option_bind]. apply IH. assumption.
Qed.

Lemma init_loop_prev (g : Graph) (nodes nodes1 : NodeData) :
  do_all init_comm (iterate g) nodes = Some nodes1 ->
  forall j d, at_ nodes1 j = Some d -> in_range (edgeIndData g) j = true ->
              Node.prev_comm_ass d = j.
Proof.
  unfold iterate, graph_size. intros H j d Hj Hr.
  apply in_range_spec in Hr.
  pose proof (do_all_seqZ_partial init_comm
                (fun i l => forall j d, at_ l j = Some d -> 0 <= j < i ->
                                        Node.prev_comm_ass d = j)
                (length (edgeIndData g)) 0 nodes nodes1) as Hp.
  cbv beta in Hp. eapply Hp; [| |exact H|exact Hj|lia].
  - intros i l l' Hi Hl Hop j0 d0 Hj0 Hr0. unfold init_comm in Hop.
    destruct (at_ l i) as [di|] eqn:Hdi; [|discriminate].
    cbn [mbind option_bind] in Hop. apply set_inv in Hop as [_ ->].
    pose proof (at_in_range _ _ _ Hdi) as Hir.
    destruct (Z.eq_dec j0 i) as [->|Hne].
    + rewrite (at_insert_eq _ _ _ Hir) in Hj0. injection Hj0 as <-. reflexivity.
    + rewrite at_insert_ne in Hj0 by lia. apply (Hl j0 d0 Hj0). lia.
  - intros j0 d0 _ Hr0. lia.
Qed.

(** ** The weights at a boundary *)

Lemma sumZ_indexed_snd {A : Type} (f : A -> Z) (k : Z) (l : list A) :
  sumZ (fun p => f p.2) (indexed_from k l) = sumZ f l.
Proof.
  revert k. induction l as [|a l IH]; intros k; [reflexivity|].
  cbn [indexed_from sumZ snd]. rewrite IH. reflexivity.
Qed.

Lemma sumZ_le {A : Type} (f h : A -> Z) (l : list A) :
  (forall x, x ∈ l -> 0 <= f x <= h x) -> 0 <= sumZ f l <= sumZ h l.
Proof.
  induction l as [|a l IH]; intros H; cbn [sumZ]; [lia|].
  pose proof (H a ltac:(left)).
  assert (0 <= sumZ f l <= sumZ h l).
  { apply IH. intros x Hx. apply H. right. assumption. }
  lia.
Qed.

Lemma sumZ_scale {A : Type} (w : Z) (f : A -> Z) (l : list A) :
  sumZ (fun x => w * f x) l = w * sumZ f l.
Proof. induction l as [|a l IH]; cbn [sumZ]; [lia|]. rewrite IH. lia. Qed.

Lemma wrap64_sumZ {A : Type} (f : A -> Z) (l : list A) :
  wrap64 (sumZ (fun x => wrap64 (f x)) l) = wrap64 (sumZ f l).
Proof.
  induction l as [|a l IH]; cbn [sumZ]; [reflexivity|].
  rewrite wrap64_add_l. unfold wrap64 in *.
  rewrite <- Zplus_mod_idemp_r, IH, Zplus_mod_idemp_r. reflexivity.
Qed.

Lemma graph_weight_vertex (g : Graph) :
  wf_graph g = true -> graph_weight g = sumZ (vertex_weight g) (iterate g).
Proof.
  intros Hwf. unfold graph_weight. apply sumZ_ext. intros n Hn.
  symmetry. apply vertex_weight_row; [assumption|].
  unfold iterate, graph_size in Hn. apply elem_of_seqZ in Hn.
  apply in_range_spec. lia.
Qed.

Section Conservation.
Variable g : Graph.
Hypothesis Hwf : wf_graph g = true.
Variables (nodes : NodeData) (c_info : CommArray).
Hypothesis Hinv : louvain_inv g nodes c_info.
Hypothesis Hnd : node_inv g nodes.

Lemma payload_weight (i : Z) (d : Node.t) :
  at_ nodes i = Some d ->
  Node.degree_wt d = vertex_weight g i /\ 0 <= Node.degree_wt d < two64 /\
  (isolated g i = true -> Node.degree_wt d = 0).
Proof.
  intros Hd. destruct (Hnd i d Hd) as (_ & Hw & _).
  destruct Hinv as (Hlen & _).
  assert (Hr : in_range (edgeIndData g) i = true).
  { apply at_range in Hd. apply in_range_spec. lia. }
  destruct (vertex_weight_spec g Hwf i Hr) as (_ & _ & _ & Hb & Hz).
  rewrite Hw. auto.
Qed.

Lemma nodes_weight : sumZ Node.degree_wt nodes = graph_weight g.
Proof.
  rewrite (graph_weight_vertex g Hwf). unfold iterate, graph_size.
  destruct Hinv as (Hlen & _). rewrite <- Hlen. apply sumZ_by_index.
  intros i x Hx. replace (0 + Z.of_nat i) with (Z.of_nat i) by lia.
  apply payload_weight. apply at_Some. split; [lia|].
  rewrite Nat2Z.id. assumption.
Qed.

Lemma member_weight_bounds (c : Z) :
  0 <= member_weight g nodes c <= graph_weight g.
Proof.
  rewrite <- nodes_weight.
  rewrite <- (sumZ_indexed_snd Node.degree_wt 0 nodes).
  unfold member_weight. apply sumZ_le. intros [i d] Hp.
  apply elem_of_indexed in Hp.
  destruct (payload_weight i d Hp) as (_ & Hb & _). cbn [snd].
  destruct (is_member g c (i, d)); lia.
Qed.

Lemma member_weight_sum :
  sumZ (member_weight g nodes) (iterate g) = graph_weight g.
Proof.
  unfold member_weight.
  rewrite (sumZ_swap
             (fun c p => if is_member g c p then Node.degree_wt p.2 else 0)).
  rewrite <- nodes_weight.
  rewrite <- (sumZ_indexed_snd Node.degree_wt 0 nodes).
  apply sumZ_ext. intros [i d] Hp. apply elem_of_indexed in Hp.
  cbn [snd]. destruct (payload_weight i d Hp) as (_ & _ & Hz).
  destruct Hinv as (_ & Hclen & Hcomm & _).
  destruct (isolated g i) eqn:Hiso.
  - rewrite Hz by reflexivity. apply sumZ_zero. intros c _.
    unfold is_member. cbn [fst]. rewrite Hiso. reflexivity.
  - rewrite (sumZ_ext _ (fun c => Node.degree_wt d
                                  * (if Node.curr_comm_ass d =? c then 1 else 0))).
    + rewrite sumZ_scale. unfold iterate, graph_size. rewrite sumZ_indicator.
      pose proof (Hcomm i d Hp Hiso) as Hr. apply in_range_spec in Hr.
      rewrite Hclen in Hr.
      destruct (Z.leb_spec 0 (Node.curr_comm_ass d)); [|lia].
      destruct (Z.ltb_spec (Node.curr_comm_ass d)
                  (0 + Z.of_nat (length (edgeIndData g)))); [|lia].
      cbn [andb]. lia.
    + intros c _. unfold is_member. cbn [fst snd]. rewrite Hiso.
      cbn [negb andb]. destruct (Node.curr_comm_ass d =? c); lia.
Qed.

Lemma total_degree_wt_sum :
  total_degree_wt c_info
  = sumZ (fun c => wrap64 (member_weight g nodes c)) (iterate g).
Proof.
  destruct Hinv as (_ & Hclen & _ & Htally).
  unfold total_degree_wt, iterate, graph_size. rewrite <- Hclen.
  apply sumZ_by_index. intros i x Hx.
  replace (0 + Z.of_nat i) with (Z.of_nat i) by lia.
  apply (Htally (Z.of_nat i) x). apply at_Some. split; [lia|].
  rewrite Nat2Z.id. assumption.
Qed.

Lemma total_degree_wt_wrapped :
  wrap64 (total_degree_wt c_info) = wrap64 (graph_weight g).
Proof.
  rewrite total_degree_wt_sum, wrap64_sumZ, member_weight_sum. reflexivity.
Qed.

Lemma total_degree_wt_exact :
  graph_weight g < two64 -> total_degree_wt c_info = graph_weight g.
Proof.
  intros Hsmall. rewrite total_degree_wt_sum, <- member_weight_sum.
  apply sumZ_ext. intros c _. apply wrap64_small.
  pose proof (member_weight_bounds c). lia.
Qed.
End Conservation.

(** The initialisation establishes both invariants, and the turns of the
    loop keep them. *)
Lemma boundary_invs (g : Graph) (sched : Z -> list Z) (nodes : NodeData)
    (k : nat) :
  wf_graph g = true ->
  length nodes = length (edgeIndData g) ->
  in_range (edgeIndData g) 5 = true ->
  (forall i v, v ∈ sched i -> in_range (edgeIndData g) v = true) ->
  exists nodes' c_info',
    louvain_boundary g sched nodes k = Some (nodes', c_info') /\
    louvain_inv g nodes' c_info' /\ node_inv g nodes'.
Proof.
  intros Hwf Hlen H5 Hs. unfold louvain_boundary.
  destruct (engine_start g nodes Hwf Hlen H5)
    as (nodes1 & nodes2 & c_info2 & c5 & constant & Hinit & Hsum & Hc5 & Hc
        & Hlen1 & Hini).
  pose proof (init_loop_prev g nodes nodes1 Hinit) as Hprev.
  rewrite Hinit. cbn [mbind option_bind].
  destruct (sum_op_loop g nodes1
              (replicate (length (edgeIndData g)) (Comm.mk 0 0)) Hwf Hlen1)
    as (nodes2' & c_info2' & Hsum' & _ & _ & Hpt); [apply length_replicate|].
  assert (Heq : (nodes2', c_info2') = (nodes2, c_info2)) by congruence.
  injection Heq as -> ->. clear Hsum'.
  rewrite Hsum. cbn [mbind option_bind fst snd].
  rewrite Hc5. cbn [mbind option_bind].
  rewrite Hc. cbn [mbind option_bind].
  destruct (louvain_passes_invs g constant sched k 0 (nodes2, c_info2) Hwf Hs)
    as ([nodes' c_info'] & Hp & Hinv & Hnd).
  { split; [apply initialised_inv; assumption|]. cbn [fst].
    destruct Hini as (Hl2 & _ & Hn2 & _).
    intros j d Hj. destruct (Hn2 j d Hj) as [Hcj Hwj].
    split; [|split; [assumption|auto]].
    assert (Hr1 : in_range nodes1 j = true).
    { apply at_range in Hj. apply in_range_spec. lia. }
    destruct (at_is_Some _ _ Hr1) as [d1 Hd1].
    destruct (Hpt j d1 Hd1) as [Hj2 _].
    assert (d = Node.set_degree_wt d1 (wrap64 (row_weight g j))) by congruence.
    subst d. cbn [Node.set_degree_wt Node.prev_comm_ass].
    apply (Hprev j d1 Hd1). apply in_range_spec. apply at_range in Hd1. lia. }
  exists nodes', c_info'. auto.
Qed.

(** A boundary exists only on a graph of six vertices or more. *)
Lemma boundary_six (g : Graph) (sched : Z -> list Z) (nodes : NodeData)
    (k : nat) (st : NodeData * CommArray) :
  wf_graph g = true ->
  length nodes = length (edgeIndData g) ->
  louvain_boundary g sched nodes k = Some st ->
  in_range (edgeIndData g) 5 = true.
Proof.
  intros Hwf Hlen Hb.
  destruct (in_range (edgeIndData g) 5) eqn:H5; [reflexivity|].
  unfold louvain_boundary in Hb.
  destruct (do_all init_comm (iterate g) nodes) as [nodes1|] eqn:Hinit;
    [|discriminate].
  cbn [mbind option_bind] in Hb.
  destruct (sumVertexDegreeWeight g nodes1 _) as [st2|] eqn:Hsum;
    [|discriminate].
  cbn [mbind option_bind] in Hb.
  rewrite (engine_start_small g nodes nodes1 st2 Hwf Hlen H5 Hinit Hsum) in Hb.
  discriminate.
Qed.

(** The weights are conserved by the whole iteration: on a graph of six
    vertices or more, at every boundary
    of the loop the stored weighted degrees of the vertices add up to
    the weight of the graph, the weights of the community records add up to
    it modulo 2^64, and exactly when the weight of the graph fits 64 bits. *)
Theorem louvain_boundary_conserves_weight (g : Graph) (sched : Z -> list Z)
    (nodes : NodeData) (k : nat) :
  wf_graph g = true ->
  length nodes = length (edgeIndData g) ->
  in_range (edgeIndData g) 5 = true ->
  (forall i v, v ∈ sched i -> in_range (edgeIndData g) v = true) ->
  exists nodes' c_info',
    louvain_boundary g sched nodes k = Some (nodes', c_info') /\
    sumZ Node.degree_wt nodes' = graph_weight g /\
    wrap64 (total_degree_wt c_info') = wrap64 (graph_weight g) /\
    (graph_weight g < two64 -> total_degree_wt c_info' = graph_weight g).
Proof.
  intros Hwf Hlen H5 Hs.
  destruct (boundary_invs g sched nodes k Hwf Hlen H5 Hs)
    as (nodes' & c_info' & Hb & Hinv & Hnd).
  exists nodes', c_info'. split; [assumption|].
  split; [exact (nodes_weight g Hwf nodes' c_info' Hinv Hnd)|].
  split; [exact (total_degree_wt_wrapped g Hwf nodes' c_info' Hinv Hnd)|].
  exact (total_degree_wt_exact g Hwf nodes' c_info' Hinv Hnd).
Qed.

Lemma louvain_boundary_conserves_weight_witness :
  exists nodes' c_info',
    louvain_boundary edge_and_99_isolated (in_order edge_and_99_isolated)
      (blank_nodes 101) 2
    = Some (nodes', c_info') /\
    sumZ Node.degree_wt nodes' = graph_weight edge_and_99_isolated /\
    wrap64 (total_degree_wt c_info')
    = wrap64 (graph_weight edge_and_99_isolated) /\
    (graph_weight edge_and_99_isolated < two64 ->
     total_degree_wt c_info' = graph_weight edge_and_99_isolated).
Proof.
  apply louvain_boundary_conserves_weight.
  - vm_compute. reflexivity.
  - reflexivity.
  - reflexivity.
  - intros i v. apply in_order_in_range.
Defined.

(** On a graph of six vertices or more, at every boundary of the
    iteration the payload of vertex [n] has
    [prev_comm_ass = n] and the weighted degree of [n]; a vertex with edges
    is assigned to a community of the graph, an isolated vertex to itself or
    to -1. *)
Theorem louvain_boundary_payloads (g : Graph) (sched : Z -> list Z)
    (nodes : NodeData) (k : nat) :
  wf_graph g = true ->
  length nodes = length (edgeIndData g) ->
  in_range (edgeIndData g) 5 = true ->
  (forall i v, v ∈ sched i -> in_range (edgeIndData g) v = true) ->
  exists nodes' c_info',
    louvain_boundary g sched nodes k = Some (nodes', c_info') /\
    length nodes' = length nodes /\ length c_info' = length nodes /\
    forall n d, at_ nodes' n = Some d ->
      Node.prev_comm_ass d = n /\
      Node.degree_wt d = wrap64 (row_weight g n) /\
      (if isolated g n
       then Node.curr_comm_ass d = n \/ Node.curr_comm_ass d = minus_one
       else in_range (edgeIndData g) (Node.curr_comm_ass d) = true).
Proof.
  intros Hwf Hlen H5 Hs.
  destruct (boundary_invs g sched nodes k Hwf Hlen H5 Hs)
    as (nodes' & c_info' & Hb & (Hl & Hcl & Hcomm & _) & Hnd).
  exists nodes', c_info'. split; [assumption|].
  split; [congruence|]. split; [congruence|].
  intros n d Hd. destruct (Hnd n d Hd) as (Hp & Hw & Hi).
  split; [assumption|]. split.
  - rewrite Hw. apply vertex_weight_row; [assumption|].
    apply at_range in Hd. apply in_range_spec. lia.
  - destruct (isolated g n) eqn:Hiso; [auto|].
    pose proof (Hcomm n d Hd Hiso) as Hr. unfold in_range in *.
    rewrite Hcl in Hr. assumption.
Qed.

Lemma louvain_boundary_payloads_witness :
  exists nodes' c_info',
    louvain_boundary edge_and_99_isolated (in_order edge_and_99_isolated)
      (blank_nodes 101) 1
    = Some (nodes', c_info') /\
    length nodes' = length (blank_nodes 101) /\
    length c_info' = length (blank_nodes 101) /\
    forall n d, at_ nodes' n = Some d ->
      Node.prev_comm_ass d = n /\
      Node.degree_wt d = wrap64 (row_weight edge_and_99_isolated n) /\
      (if isolated edge_and_99_isolated n
       then Node.curr_comm_ass d = n \/ Node.curr_comm_ass d = minus_one
       else in_range (edgeIndData edge_and_99_isolated) (Node.curr_comm_ass d)
            = true).
Proof.
  apply louvain_boundary_payloads.
  - vm_compute. reflexivity.
  - reflexivity.
  - reflexivity.
  - intros i v. apply in_order_in_range.
Defined.

(** At any boundary of the iteration the operator returns on every vertex
    of the graph.  It writes one field, the current community of that vertex;
    the new community is -1 for an isolated vertex, whose run leaves the
    community records alone, and otherwise the community the vertex was in or
    the community of one of its neighbours. *)
Theorem louvain_op_target (g : Graph) (sched : Z -> list Z) (nodes0 : NodeData)
    (k : nat) (nodes : NodeData) (c_info : CommArray) (constant : double)
    (n : Z) :
  wf_graph g = true ->
  length nodes0 = length (edgeIndData g) ->
  (forall i v, v ∈ sched i -> in_range (edgeIndData g) v = true) ->
  louvain_boundary g sched nodes0 k = Some (nodes, c_info) ->
  in_range (edgeIndData g) n = true ->
  exists d t c_info',
    at_ nodes n = Some d /\
    louvain_op g constant n (nodes, c_info)
    = Some (<[Z.to_nat n := Node.set_curr_comm_ass d t]> nodes, c_info') /\
    length c_info' = length c_info /\
    (if isolated g n then t = minus_one /\ c_info' = c_info
     else t = Node.curr_comm_ass d \/ neighbour_comm g nodes n t).
Proof.
  intros Hwf Hlen Hs Hb Hn.
  pose proof (boundary_six g sched nodes0 k _ Hwf Hlen Hb) as H5.
  destruct (boundary_invs g sched nodes0 k Hwf Hlen H5 Hs)
    as (nodes' & c_info' & Hb' & Hinv & _).
  assert (Heq : (nodes', c_info') = (nodes, c_info)) by congruence.
  injection Heq as -> ->.
  destruct (louvain_op_step g constant n nodes c_info Hwf Hinv Hn)
    as (d & t & c_info2 & Hd & Hop & Hinv2 & Hcase).
  exists d, t, c_info2. split; [assumption|]. split; [assumption|].
  split; [|assumption].
  destruct Hinv as (_ & Hc1 & _). destruct Hinv2 as (_ & Hc2 & _). congruence.
Qed.

Lemma louvain_op_target_witness :
  exists d t c_info',
    at_ e99_nodes 1 = Some d /\
    louvain_op edge_and_99_isolated one_half 1 (e99_nodes, e99_c_info)
    = Some (<[Z.to_nat 1 := Node.set_curr_comm_ass d t]> e99_nodes, c_info') /\
    length c_info' = length e99_c_info /\
    (if isolated edge_and_99_isolated 1
     then t = minus_one /\ c_info' = e99_c_info
     else t = Node.curr_comm_ass d \/
          neighbour_comm edge_and_99_isolated e99_nodes 1 t).
Proof.
  apply (louvain_op_target edge_and_99_isolated (in_order edge_and_99_isolated)
           (blank_nodes 101) 0).
  - vm_compute. reflexivity.
  - reflexivity.
  - intros i v. apply in_order_in_range.
  - vm_compute. reflexivity.
  - reflexivity.
Defined.

(** ** The engine as a whole *)

Section Modularity.
Variable g : Graph.
Hypothesis Hwf : wf_graph g = true.
Variables (nodes : NodeData) (c_info : CommArray).
Hypothesis Hlen : length nodes = length (edgeIndData g).
Hypothesis Hclen : length c_info = length (edgeIndData g).

Lemma internal_edges_defined (comm : Z) (es : list Z) (w0 : Z) :
  (forall ii, ii ∈ es -> 0 <= ii < Z.of_nat (length (edgeDst g))) ->
  exists w, do_all (internal_edge g nodes comm) es w0 = Some w.
Proof.
  intros Hes.
  destruct (do_all_inv (internal_edge g nodes comm) (fun _ => True) es w0)
    as (w & Hw & _); [|exact I|eauto].
  intros ii a Hii _.
  destruct (wf_edge g Hwf ii (Hes ii Hii)) as (dst & w & Hdst & Hw & Hdr & _).
  assert (Hdn : in_range nodes dst = true).
  { apply in_range_spec. apply in_range_spec in Hdr. lia. }
  destruct (at_is_Some _ _ Hdn) as [d Hd].
  unfold internal_edge. rewrite Hdst. cbn [mbind option_bind].
  rewrite Hd. cbn [mbind option_bind]. rewrite Hw. cbn [mbind option_bind].
  destruct (Node.curr_comm_ass d =? comm); eauto.
Qed.

Lemma internal_loop_defined :
  exists cwi,
    do_all (internal_op g nodes) (iterate g)
           (replicate (length (edgeIndData g)) 0) = Some cwi /\
    length cwi = length (edgeIndData g).
Proof.
  apply (do_all_inv (internal_op g nodes)
           (fun cwi : largeArray => length cwi = length (edgeIndData g)));
    [|apply length_replicate].
  intros n cwi Hn Hl. unfold iterate, graph_size in Hn.
  apply elem_of_seqZ in Hn.
  assert (Hgr : in_range (edgeIndData g) n = true) by (apply in_range_spec; lia).
  assert (Hnr : in_range nodes n = true) by (apply in_range_spec; lia).
  assert (Hcr : in_range cwi n = true) by (apply in_range_spec; lia).
  destruct (at_is_Some _ _ Hnr) as [d Hd].
  destruct (at_is_Some _ _ Hcr) as [w0 Hw0].
  destruct (wf_row g Hwf n Hgr) as (b & e & Hb & He & Hbe & Hel).
  destruct (wf_distance g Hwf n b e Hb He Hbe Hel) as (_ & Hedges & _).
  destruct (internal_edges_defined (Node.curr_comm_ass d) (seqZ b (e - b)) w0)
    as [w Hw].
  { intros ii Hii. apply elem_of_seqZ in Hii. lia. }
  unfold internal_op. rewrite Hd. cbn [mbind option_bind].
  rewrite Hedges. cbn [mbind option_bind]. rewrite Hw0. cbn [mbind option_bind].
  rewrite Hw. cbn [mbind option_bind]. rewrite (set_Some _ _ _ Hcr).
  eexists. split; [reflexivity|]. rewrite length_insert. assumption.
Qed.

Lemma calModularity_defined (constant : double) :
  exists q, calModularity g nodes c_info constant = Some q.
Proof.
  unfold calModularity.
  destruct internal_loop_defined as (cwi & Hcwi & Hl).
  rewrite Hcwi. cbn [mbind option_bind].
  destruct (do_all_inv (mod_op c_info cwi) (fun _ => True) (iterate g)
              (of_int 0, of_int 0)) as ([e_xx a2_x] & Hm & _); [|exact I|].
  - intros n [e a] Hn _. unfold iterate, graph_size in Hn.
    apply elem_of_seqZ in Hn.
    assert (Hcr : in_range cwi n = true) by (apply in_range_spec; lia).
    assert (Hir : in_range c_info n = true) by (apply in_range_spec; lia).
    destruct (at_is_Some _ _ Hcr) as [w Hw].
    destruct (at_is_Some _ _ Hir) as [c Hc].
    unfold mod_op. rewrite Hw. cbn [mbind option_bind].
    rewrite Hc. cbn [mbind option_bind]. eauto.
  - rewrite Hm. cbn [mbind option_bind]. eauto.
Qed.
End Modularity.

Lemma louvain_loop_defined (fuel : nat) (sched : Z -> list Z) (g : Graph)
    (constant threshold : double) (nodes : NodeData) (c_info : CommArray)
    (prev_mod : double) (num_iter : Z) :
  wf_graph g = true ->
  (forall i v, v ∈ sched i -> in_range (edgeIndData g) v = true) ->
  louvain_inv g nodes c_info ->
  louvain_loop fuel sched g constant threshold nodes c_info prev_mod num_iter
  <> Undefined.
Proof.
  intros Hwf Hs. revert nodes c_info prev_mod num_iter.
  induction fuel as [|fuel IH]; intros nodes c_info prev_mod num_iter Hinv;
    [discriminate|].
  cbn [louvain_loop].
  destruct (louvain_pass_preserves g constant
              (sched ((num_iter + 1) mod 2 ^ 32)) (nodes, c_info) Hwf)
    as ([nodes' c_info'] & Hp & Hinv'); [apply Hs|assumption|].
  rewrite Hp. cbn [defined fst snd] in *.
  destruct (calModularity_defined g Hwf nodes' c_info') with (constant := constant)
    as [q Hq]; [apply Hinv'|apply Hinv'|].
  rewrite Hq. cbn [defined].
  destruct (dlt (dsub q prev_mod) threshold); [discriminate|].
  apply IH. assumption.
Qed.

(** Where a run of the loop returns. *)
Lemma louvain_loop_returns (fuel : nat) (sched : Z -> list Z) (g : Graph)
    (constant threshold : double) (nodes : NodeData) (c_info : CommArray)
    (prev_mod : double) (num_iter : Z) (r : LouvainRun) :
  louvain_loop fuel sched g constant threshold nodes c_info prev_mod num_iter
  = Returned r ->
  exists (k : nat) (st : NodeData * CommArray) (q : double),
    louvain_passes g constant sched k num_iter (nodes, c_info) = Some st /\
    louvain_passes g constant sched (S k) num_iter (nodes, c_info)
    = Some (run_nodes r, run_c_info r) /\
    run_num_iter r = (num_iter + Z.of_nat (S k)) mod 2 ^ 32 /\
    (k = 0%nat -> run_mod r = prev_mod) /\
    (k <> 0%nat -> calModularity g st.1 st.2 constant = Some (run_mod r)) /\
    calModularity g (run_nodes r) (run_c_info r) constant = Some q /\
    dlt (dsub q (run_mod r)) threshold = true.
Proof.
  revert nodes c_info prev_mod num_iter.
  induction fuel as [|fuel IH]; intros nodes c_info prev_mod num_iter H;
    [discriminate|].
  cbn [louvain_loop] in H.
  destruct (do_all (louvain_op g constant) (sched ((num_iter + 1) mod 2 ^ 32))
              (nodes, c_info)) as [[nodes1 c_info1]|] eqn:Hpass; [|discriminate].
  cbn [defined fst snd] in H.
  destruct (calModularity g nodes1 c_info1 constant) as [curr_mod|] eqn:Hq;
    [|discriminate].
  cbn [defined] in H.
  destruct (dlt (dsub curr_mod prev_mod) threshold) eqn:Hstop.
  - injection H as <-. exists 0%nat, (nodes, c_info), curr_mod.
    cbn [louvain_passes run_nodes run_c_info run_mod run_num_iter].
    rewrite Hpass. cbn [mbind option_bind].
    split; [reflexivity|]. split; [reflexivity|].
    split; [f_equal; lia|]. split; [reflexivity|].
    split; [intros Hk; contradiction|]. auto.
  - destruct (IH _ _ _ _ H) as (k & st & q & Hk & HSk & Hit & H0 & Hpos & Hret).
    exists (S k), st, q.
    split; [cbn [louvain_passes]; rewrite Hpass; exact Hk|].
    split.
    { change (louvain_passes g constant sched (S (S k)) num_iter (nodes, c_info))
        with (st' ← do_all (louvain_op g constant)
                      (sched ((num_iter + 1) mod 2 ^ 32)) (nodes, c_info);
              louvain_passes g constant sched (S k)
                ((num_iter + 1) mod 2 ^ 32) st').
      rewrite Hpass. exact HSk. }
    split.
    { rewrite Hit. rewrite Zplus_mod_idemp_l. f_equal. lia. }
    split; [discriminate|]. split; [|assumption].
    intros _. destruct k as [|k].
    + cbn [louvain_passes] in Hk. injection Hk as <-. cbn [fst snd].
      rewrite (H0 eq_refl). assumption.
    + apply Hpos. discriminate.
Qed.

Lemma engine_big_defined (fuel : nat) (sched : Z -> list Z)
    (g : Graph) (nodes : NodeData) (clusters : largeArray)
    (lower threshold : double) :
  wf_graph g = true ->
  length nodes = length (edgeIndData g) ->
  in_range (edgeIndData g) 5 = true ->
  (forall i v, v ∈ sched i -> in_range (edgeIndData g) v = true) ->
  algoLouvainWithLocking fuel sched g nodes clusters lower threshold = Timeout \/
  exists r, algoLouvainWithLocking fuel sched g nodes clusters lower threshold
            = Returned r /\
            length (run_nodes r) = length nodes /\
            length (run_c_info r) = length nodes.
Proof.
  intros Hwf Hlen H5 Hs.
  destruct (algoLouvainWithLocking fuel sched g nodes clusters lower threshold)
    as [r| |] eqn:Hrun; [right|exfalso|left; reflexivity].
  - exists r. split; [reflexivity|].
    destruct (algoLouvainWithLocking_boundary _ _ _ _ _ _ _ _ Hrun) as [k Hk].
    destruct (boundary_invs g sched nodes k Hwf Hlen H5 Hs)
      as (nodes' & c_info' & Hb & (Hl & Hcl & _) & _).
    assert (Heq : (nodes', c_info') = (run_nodes r, run_c_info r)) by congruence.
    injection Heq as <- <-. split; congruence.
  - revert Hrun. unfold algoLouvainWithLocking.
    destruct (engine_start g nodes Hwf Hlen H5)
      as (nodes1 & nodes2 & c_info2 & c5 & constant & Hinit & Hsum & Hc5 & Hc
          & _ & Hini).
    rewrite Hinit. cbn [defined].
    rewrite Hsum. cbn [defined fst snd].
    rewrite Hc5. cbn [defined].
    rewrite Hc. cbn [defined].
    apply louvain_loop_defined; [assumption|assumption|].
    apply initialised_inv; assumption.
Qed.

Lemma engine_small_undefined (fuel : nat) (sched : Z -> list Z)
    (g : Graph) (nodes : NodeData) (clusters : largeArray)
    (lower threshold : double) :
  wf_graph g = true ->
  length nodes = length (edgeIndData g) ->
  in_range (edgeIndData g) 5 = false ->
  algoLouvainWithLocking fuel sched g nodes clusters lower threshold = Undefined.
Proof.
  intros Hwf Hlen H5. unfold algoLouvainWithLocking.
  destruct (do_all init_comm (iterate g) nodes) as [nodes1|] eqn:Hinit;
    [|reflexivity].
  cbn [defined].
  destruct (sumVertexDegreeWeight g nodes1 _) as [st|] eqn:Hsum; [|reflexivity].
  cbn [defined].
  rewrite (engine_start_small g nodes nodes1 st Hwf Hlen H5 Hinit Hsum).
  reflexivity.
Qed.

(** Where the engine is defined.  On a well-formed graph of six vertices or
    more no step of it is undefined, whatever the sequential schedule: every
    read and write is inside its array, every [std::map] the operator builds
    has an entry to start from; a run returns, with arrays of the size of the
    graph, or goes on for ever.  On a well-formed graph of fewer than six
    vertices every run is undefined: the engine reads [c_info[5]] to print
    it, and [c_info] has one cell for each vertex. *)
Theorem algoLouvainWithLocking_defined (fuel : nat) (sched : Z -> list Z)
    (g : Graph) (nodes : NodeData) (clusters : largeArray)
    (lower threshold : double) :
  wf_graph g = true ->
  length nodes = length (edgeIndData g) ->
  (forall i v, v ∈ sched i -> in_range (edgeIndData g) v = true) ->
  if in_range (edgeIndData g) 5
  then algoLouvainWithLocking fuel sched g nodes clusters lower threshold
       = Timeout \/
       exists r,
         algoLouvainWithLocking fuel sched g nodes clusters lower threshold
         = Returned r /\
         length (run_nodes r) = length nodes /\
         length (run_c_info r) = length nodes
  else algoLouvainWithLocking fuel sched g nodes clusters lower threshold
       = Undefined.
Proof.
  intros Hwf Hlen Hs. destruct (in_range (edgeIndData g) 5) eqn:H5.
  - apply engine_big_defined; assumption.
  - apply engine_small_undefined; assumption.
Qed.

Lemma algoLouvainWithLocking_defined_witness :
  (algoLouvainWithLocking 5 (in_order edge_and_99_isolated)
     edge_and_99_isolated (blank_nodes 101) [] (of_int (-1)) one_eighth
   = Timeout \/
   exists r,
     algoLouvainWithLocking 5 (in_order edge_and_99_isolated)
       edge_and_99_isolated (blank_nodes 101) [] (of_int (-1)) one_eighth
     = Returned r /\
     length (run_nodes r) = length (blank_nodes 101) /\
     length (run_c_info r) = length (blank_nodes 101)) /\
  algoLouvainWithLocking 5 (in_order edge_and_isolated) edge_and_isolated
    (blank_nodes 3) [] (of_int (-1)) one_eighth = Undefined.
Proof.
  split.
  - apply (algoLouvainWithLocking_defined 5 (in_order edge_and_99_isolated)
             edge_and_99_isolated (blank_nodes 101) [] (of_int (-1)) one_eighth).
    + vm_compute. reflexivity.
    + reflexivity.
    + intros i v. apply in_order_in_range.
  - apply (algoLouvainWithLocking_defined 5 (in_order edge_and_isolated)
             edge_and_isolated (blank_nodes 3) [] (of_int (-1)) one_eighth).
    + vm_compute. reflexivity.
    + reflexivity.
    + intros i v. apply in_order_in_range.
Defined.

(** The value the engine returns is [prev_mod]: the modularity of the state
    before the last turn of the loop ([lower] when the loop stops in its
    first turn), not that of the arrays it leaves behind.  The modularity of
    those arrays exceeds the returned value by less than the threshold, and
    [num_iter] counts the turns modulo 2^32. *)
Theorem algoLouvainWithLocking_returns_prev_mod (fuel : nat)
    (sched : Z -> list Z) (g : Graph) (nodes : NodeData) (clusters : largeArray)
    (lower threshold : double) (r : LouvainRun) :
  algoLouvainWithLocking fuel sched g nodes clusters lower threshold = Returned r ->
  exists (constant : double) (k : nat) (st : NodeData * CommArray) (q : double),
    louvain_constant g nodes = Some constant /\
    louvain_boundary g sched nodes k = Some st /\
    louvain_boundary g sched nodes (S k) = Some (run_nodes r, run_c_info r) /\
    run_num_iter r = Z.of_nat (S k) mod 2 ^ 32 /\
    (k = 0%nat -> run_mod r = lower) /\
    (k <> 0%nat -> calModularity g st.1 st.2 constant = Some (run_mod r)) /\
    calModularity g (run_nodes r) (run_c_info r) constant = Some q /\
    dlt (dsub q (run_mod r)) threshold = true.
Proof.
  unfold algoLouvainWithLocking, louvain_boundary, louvain_constant. intros H.
  destruct (do_all init_comm (iterate g) nodes) as [nodes1|]; [|discriminate].
  cbn [defined mbind option_bind] in *.
  destruct (sumVertexDegreeWeight g nodes1 _) as [[nodes2 c_info2]|];
    [|discriminate].
  cbn [defined mbind option_bind fst snd] in *.
  destruct (at_ c_info2 5) as [c5|]; [|discriminate].
  cbn [defined mbind option_bind] in *.
  destruct (calConstantForSecondTerm g nodes2) as [constant|]; [|discriminate].
  cbn [defined mbind option_bind] in *.
  destruct (louvain_loop_returns _ _ _ _ _ _ _ _ _ _ H)
    as (k & st & q & Hk & HSk & Hit & H0 & Hpos & Hq & Hstop).
  exists constant, k, st, q. split; [reflexivity|].
  split; [exact Hk|]. split; [exact HSk|]. auto.
Qed.

Lemma algoLouvainWithLocking_returns_prev_mod_witness :
  exists (constant : double) (k : nat) (st : NodeData * CommArray) (q : double),
    louvain_constant edge_and_99_isolated (blank_nodes 101) = Some constant /\
    louvain_boundary edge_and_99_isolated (in_order edge_and_99_isolated)
      (blank_nodes 101) k = Some st /\
    louvain_boundary edge_and_99_isolated (in_order edge_and_99_isolated)
      (blank_nodes 101) (S k)
    = Some (e99_nodes', e99_c_info') /\
    2 = Z.of_nat (S k) mod 2 ^ 32 /\
    (k = 0%nat -> dzero = of_int (-1)) /\
    (k <> 0%nat ->
     calModularity edge_and_99_isolated st.1 st.2 constant = Some dzero) /\
    calModularity edge_and_99_isolated e99_nodes' e99_c_info' constant = Some q /\
    dlt (dsub q dzero) one_eighth = true.
Proof.
  apply (algoLouvainWithLocking_returns_prev_mod 5
           (in_order edge_and_99_isolated) edge_and_99_isolated
           (blank_nodes 101) [] (of_int (-1)) one_eighth
           (Build_LouvainRun dzero 2 e99_nodes' e99_c_info')).
  vm_compute. reflexivity.
Defined.

(** ** main and the vertex-following switch *)

Lemma at_ext {A : Type} (a b : list A) :
  length a = length b -> (forall j, at_ a j = at_ b j) -> a = b.
Proof.
  intros Hlen H. apply list_eq. intros i.
  destruct (decide (i < length a)%nat) as [Hi|Hi].
  - specialize (H (Z.of_nat i)). unfold at_, in_range in H.
    rewrite <- Hlen in H.
    destruct (Z.leb_spec 0 (Z.of_nat i)); [|lia].
    destruct (Z.ltb_spec (Z.of_nat i) (Z.of_nat (length a))); [|lia].
    cbn [andb] in H. rewrite Nat2Z.id in H. assumption.
  - rewrite !lookup_ge_None_2 by lia. reflexivity.
Qed.

Section CurrLoop.
Variable upd : Z -> Node.t -> Node.t.
Variable op : Z -> NodeData -> option NodeData.
Hypothesis Hop : forall n nodes,
  op n nodes = (d ← at_ nodes n; set_ nodes n (upd n d)).

(** A loop that rewrites the first [len] payloads, one by one. *)
Lemma curr_loop_partial (len : nat) (nodes nodes' : NodeData) :
  do_all op (seqZ 0 (Z.of_nat len)) nodes = Some nodes' ->
  length nodes' = length nodes /\ (len <= length nodes)%nat /\
  forall j d, at_ nodes j = Some d ->
    at_ nodes' j
    = Some (if j <? Z.of_nat len then upd j d else d).
Proof.
  intros Hloop.
  pose proof (do_all_seqZ_partial op
                (fun i l =>
                   length l = length nodes /\ i <= Z.of_nat (length nodes) /\
                   forall j d, at_ nodes j = Some d ->
                     at_ l j
                     = Some (if j <? i then upd j d else d))
                len 0 nodes nodes') as H.
  destruct H as (Hl & Hle & Hpt); [| |exact Hloop|].
  - intros i l l' Hi (Hll & Hil & Hp) Hstep. rewrite Hop in Hstep.
    destruct (at_ l i) as [di|] eqn:Hdi; [|discriminate].
    cbn [mbind option_bind] in Hstep. apply set_inv in Hstep as [Hr ->].
    split; [rewrite length_insert; assumption|]. split; [lia|].
    intros j d Hj. specialize (Hp j d Hj).
    destruct (Z.eq_dec j i) as [->|Hne].
    + rewrite Z.ltb_irrefl in Hp. assert (di = d) by congruence. subst di.
      rewrite at_insert_eq by (apply in_range_spec; lia).
      destruct (Z.ltb_spec i (i + 1)); [reflexivity|lia].
    + rewrite at_insert_ne by lia. rewrite Hp.
      destruct (Z.ltb_spec j i), (Z.ltb_spec j (i + 1)); try lia; reflexivity.
  - split; [reflexivity|]. split; [lia|]. intros j d Hj.
    pose proof (at_range _ _ _ Hj). destruct (Z.ltb_spec j 0); [lia|assumption].
  - split; [assumption|]. split; [lia|]. exact Hpt.
Qed.

Lemma curr_loop_total (len : nat) (nodes : NodeData) :
  (len <= length nodes)%nat ->
  exists nodes', do_all op (seqZ 0 (Z.of_nat len)) nodes = Some nodes'.
Proof.
  intros Hle.
  destruct (do_all_seqZ_inv op (fun _ l => length l = length nodes) len 0 nodes)
    as (nodes' & H & _); [|reflexivity|eauto].
  intros i l Hi Hl. rewrite Hop.
  assert (Hr : in_range l i = true) by (apply in_range_spec; lia).
  destruct (at_is_Some _ _ Hr) as [d Hd]. rewrite Hd. cbn [mbind option_bind].
  rewrite (set_Some _ _ _ Hr). eexists. split; [reflexivity|].
  rewrite length_insert. assumption.
Qed.
End CurrLoop.

Lemma reset_after_init (g : Graph) (nodes nodes1 nodes2 : NodeData) :
  do_all init_curr (iterate g) nodes = Some nodes1 ->
  do_all reset_comm (iterate g) nodes1 = Some nodes2 ->
  do_all reset_comm (iterate g) nodes = Some nodes2.
Proof.
  unfold iterate, graph_size. intros Hi Hr.
  destruct (curr_loop_partial (fun n d => Node.set_curr_comm_ass d n) init_curr (fun _ _ => eq_refl)
              _ _ _ Hi) as (Hl1 & Hle & Hp1).
  destruct (curr_loop_partial (fun _ d => Node.set_curr_comm_ass d INF_VAL)
              reset_comm (fun _ _ => eq_refl)
              _ _ _ Hr) as (Hl2 & _ & Hp2).
  destruct (curr_loop_total (fun _ d => Node.set_curr_comm_ass d INF_VAL)
              reset_comm (fun _ _ => eq_refl)
              (length (edgeIndData g)) nodes Hle) as [nodes2' Hr'].
  destruct (curr_loop_partial (fun _ d => Node.set_curr_comm_ass d INF_VAL)
              reset_comm (fun _ _ => eq_refl)
              _ _ _ Hr') as (Hl3 & _ & Hp3).
  rewrite Hr'. f_equal. apply at_ext; [congruence|]. intros j.
  destruct (at_ nodes j) as [d|] eqn:Hd.
  - rewrite (Hp3 j d Hd). rewrite (Hp2 j _ (Hp1 j d Hd)).
    destruct (j <? Z.of_nat (length (edgeIndData g))); [|reflexivity].
    destruct d. reflexivity.
  - unfold at_, in_range in *. rewrite Hl3, Hl2, Hl1.
    destruct ((0 <=? j) && (j <? Z.of_nat (length nodes))) eqn:Hin;
      [|reflexivity].
    apply andb_true_iff in Hin as [H0 H1].
    apply Z.leb_le in H0. apply Z.ltb_lt in H1.
    destruct (lookup_lt_is_Some_2 nodes (Z.to_nat j)) as [x Hx]; [lia|].
    congruence.
Qed.

(** The switch [enable_VF] has no effect on what [main] goes on to do:
    whenever the run with vertex following returns, the run without it
    returns the same thing.  The array [vertexFollowing] fills is local to
    the branch, and the community it gives every vertex is overwritten with
    [INF_VAL] before the driver starts. *)
Theorem main_ignores_enable_VF (fuel : nat) (sched : Z -> list Z) (g : Graph)
    (nodes : NodeData) (clusters : largeArray) (c_threshold : double)
    (r : DriverRun) :
  main fuel sched g nodes true clusters c_threshold = Some r ->
  main fuel sched g nodes false clusters c_threshold = Some r.
Proof.
  unfold main. intros H.
  destruct (vertexFollowing g nodes clusters) as [[[nodes1 cl] cnt]|] eqn:Hvf;
    [|discriminate].
  cbn [mbind option_bind fst] in H.
  destruct (do_all reset_comm (iterate g) nodes1) as [nodes2|] eqn:Hr;
    [|discriminate].
  cbn [mbind option_bind] in H. cbn [mbind option_bind].
  unfold vertexFollowing in Hvf.
  destruct (do_all init_curr (iterate g) nodes) as [nodes1'|] eqn:Hi;
    [|discriminate].
  cbn [mbind option_bind] in Hvf.
  destruct (do_all (vf_op g nodes1') (iterate g) (clusters, 0)) as [[cl' cnt']|];
    [|discriminate].
  cbn [mbind option_bind] in Hvf. injection Hvf as -> _ _.
  rewrite (reset_after_init g nodes nodes1 nodes2 Hi Hr).
  cbn [mbind option_bind]. assumption.
Qed.

Lemma main_ignores_enable_VF_witness :
  main 1 (in_order pendant) pendant
    [Node.mk 0 0 0 0; Node.mk 0 0 0 0; Node.mk 0 0 0 0; Node.mk 0 0 0 0]
    false [7; 7; 7; 7] one_eighth
  = Some {| events := [StartPhase 1]; engine_result := None |}.
Proof. apply main_ignores_enable_VF. vm_compute. reflexivity. Defined.

(** * The worklist without stealing *)

Section LocalOnly.
Context {T : Type}.

Lemma LIFO_SB_mk_head (s : LIFO_SB.t T) : LIFO_SB.mk (LIFO_SB.head s) = s.
Proof. destruct s. reflexivity. Qed.

Lemma LevelLocalAlt_get_put (s : LevelLocalAlt.t T) (a b : nat)
    (st : LIFO_SB.t T) :
  (a < length (LevelLocalAlt.local s))%nat ->
  LevelLocalAlt.get (LevelLocalAlt.put s a st) b
  = if decide (a = b) then st else LevelLocalAlt.get s b.
Proof.
  intros Ha. unfold LevelLocalAlt.get, LevelLocalAlt.put.
  cbn [LevelLocalAlt.local]. destruct (decide (a = b)) as [->|Hne].
  - rewrite list_lookup_insert_eq by assumption. reflexivity.
  - rewrite list_lookup_insert_ne by assumption. reflexivity.
Qed.

(** [LevelLocalAlt]: a worker gets back the chunk it has just pushed, and the
    worklist is then what it was; the push is invisible to every other
    worker, whose [pop] returns what it would have returned without it.  A
    chunk is only ever handed to the worker that pushed it. *)
Theorem LevelLocalAlt_local (a b : nat) (c : Chunk.t T)
    (s : LevelLocalAlt.t T) :
  (a < length (LevelLocalAlt.local s))%nat ->
  (b < length (LevelLocalAlt.local s))%nat -> a <> b ->
  LevelLocalAlt.pop a (LevelLocalAlt.push a c s) = (Some (unlinked c), s) /\
  (LevelLocalAlt.pop b (LevelLocalAlt.push a c s)).1 = (LevelLocalAlt.pop b s).1 /\
  (LevelLocalAlt.pop b s).1 = head (stack_chunks (LevelLocalAlt.get s b)).
Proof.
  intros Ha Hb Hab. split; [|split].
  - unfold LevelLocalAlt.pop, LevelLocalAlt.push.
    rewrite LevelLocalAlt_get_put by assumption.
    destruct (decide (a = a)) as [_|]; [|contradiction].
    unfold LIFO_SB.pop, LIFO_SB.push, LIFO_SB.empty. cbn [LIFO_SB.head].
    apply f_equal2; [destruct c; reflexivity|].
    cbn [Chunk.set_next Chunk.next]. rewrite LIFO_SB_mk_head.
    unfold LevelLocalAlt.put, LevelLocalAlt.get. cbn [LevelLocalAlt.local].
    rewrite list_insert_insert_eq.
    destruct (lookup_lt_is_Some_2 (LevelLocalAlt.local s) a Ha) as [st Hst].
    rewrite Hst. change (default LIFO_SB.init (Some st)) with st.
    rewrite (list_insert_id _ _ _ Hst).
    destruct s. reflexivity.
  - unfold LevelLocalAlt.pop, LevelLocalAlt.push.
    rewrite LevelLocalAlt_get_put by assumption.
    destruct (decide (a = b)) as [|_]; [contradiction|].
    destruct (LIFO_SB.pop (LevelLocalAlt.get s b)). reflexivity.
  - unfold LevelLocalAlt.pop.
    pose proof (stack_chunks_pop (LevelLocalAlt.get s b)) as [H _].
    destruct (LIFO_SB.pop (LevelLocalAlt.get s b)). exact H.
Qed.
End LocalOnly.

Lemma LevelLocalAlt_local_witness :
  LevelLocalAlt.pop 0%nat
    (LevelLocalAlt.push 0%nat sample_chunk
       (LevelLocalAlt.mk [@LIFO_SB.init Z; LIFO_SB.init]))
  = (Some (unlinked sample_chunk),
     LevelLocalAlt.mk [@LIFO_SB.init Z; LIFO_SB.init]) /\
  (LevelLocalAlt.pop 1%nat
     (LevelLocalAlt.push 0%nat sample_chunk
        (LevelLocalAlt.mk [@LIFO_SB.init Z; LIFO_SB.init]))).1
  = (LevelLocalAlt.pop 1%nat (LevelLocalAlt.mk [@LIFO_SB.init Z; LIFO_SB.init])).1 /\
  (LevelLocalAlt.pop 1%nat (LevelLocalAlt.mk [@LIFO_SB.init Z; LIFO_SB.init])).1
  = head (stack_chunks
            (LevelLocalAlt.get (LevelLocalAlt.mk [@LIFO_SB.init Z; LIFO_SB.init])
               1%nat)).
Proof.
  apply LevelLocalAlt_local; [cbn; lia|cbn; lia|discriminate].
Defined.

(** * The modularity in closed form *)

Section ModularityValue.
Variable g : Graph.
Hypothesis Hwf : wf_graph g = true.
Variables (nodes : NodeData) (c_info : CommArray).
Hypothesis Hlen : length nodes = length (edgeIndData g).
Hypothesis Hclen : length c_info = length (edgeIndData g).

Lemma internal_edges_sum (comm : Z) (es : list Z) (w0 w : Z) :
  0 <= w0 < two64 ->
  do_all (internal_edge g nodes comm) es w0 = Some w ->
  w = wrap64 (w0 + sumZ (edge_in g nodes comm) es).
Proof.
  revert w0. induction es as [|ii es IH]; intros w0 Hr H.
  - cbn in H. injection H as <-. cbn [sumZ]. rewrite Z.add_0_r.
    symmetry. apply wrap64_small. assumption.
  - cbn [do_all] in H.
    destruct (internal_edge g nodes comm ii w0) as [w1|] eqn:Hstep;
      cbn [mbind option_bind] in H; [|discriminate].
    unfold internal_edge in Hstep. cbn [sumZ]. unfold edge_in at 1.
    destruct (getEdgeDst g ii) as [dst|]; cbn [mbind option_bind] in *;
      [|discriminate].
    destruct (at_ nodes dst) as [d|]; cbn [mbind option_bind] in *;
      [|discriminate].
    destruct (Node.curr_comm_ass d =? comm).
    + destruct (getEdgeData g ii) as [ew|]; cbn [mbind option_bind] in *;
        [|discriminate].
      injection Hstep as <-. rewrite (IH _ (wrap64_range _) H).
      change (default 0 (Some ew)) with ew. rewrite wrap64_add_l.
      apply (f_equal wrap64). lia.
    + injection Hstep as <-. rewrite (IH _ Hr H).
      apply (f_equal wrap64). lia.
Qed.

Lemma internal_loop_value :
  exists cwi,
    do_all (internal_op g nodes) (iterate g)
           (replicate (length (edgeIndData g)) 0) = Some cwi /\
    forall n, n ∈ iterate g ->
              at_ cwi n = Some (wrap64 (internal_weight g nodes n)).
Proof.
  unfold iterate, graph_size.
  destruct (do_all_seqZ_inv (internal_op g nodes)
              (fun i (cwi : largeArray) =>
                 length cwi = length (edgeIndData g) /\
                 forall j, 0 <= j < Z.of_nat (length (edgeIndData g)) ->
                   at_ cwi j
                   = Some (if j <? i then wrap64 (internal_weight g nodes j)
                           else 0))
              (length (edgeIndData g)) 0
              (replicate (length (edgeIndData g)) 0))
    as (cwi & Hloop & Hl & Hpt).
  - intros i cwi Hi [Hl Hp].
    assert (Hgr : in_range (edgeIndData g) i = true) by (apply in_range_spec; lia).
    assert (Hnr : in_range nodes i = true) by (apply in_range_spec; lia).
    assert (Hcr : in_range cwi i = true) by (apply in_range_spec; lia).
    destruct (at_is_Some _ _ Hnr) as [d Hd].
    pose proof (Hp i ltac:(lia)) as Hw0. rewrite Z.ltb_irrefl in Hw0.
    destruct (wf_row g Hwf i Hgr) as (b & e & Hb & He & Hbe & Hel).
    destruct (wf_distance g Hwf i b e Hb He Hbe Hel) as (_ & Hedges & _).
    destruct (internal_edges_defined g Hwf nodes c_info Hlen Hclen
                (Node.curr_comm_ass d)
                (seqZ b (e - b)) 0) as [w Hw].
    { intros ii Hii. apply elem_of_seqZ in Hii. lia. }
    unfold internal_op. rewrite Hd. cbn [mbind option_bind].
    rewrite Hedges. cbn [mbind option_bind]. rewrite Hw0.
    cbn [mbind option_bind]. rewrite Hw. cbn [mbind option_bind].
    rewrite (set_Some _ _ _ Hcr). eexists. split; [reflexivity|].
    split; [rewrite length_insert; assumption|].
    intros j Hj. destruct (Z.eq_dec j i) as [->|Hne].
    + rewrite (at_insert_eq _ _ _ Hcr).
      destruct (Z.ltb_spec i (i + 1)); [|lia]. f_equal.
      rewrite (internal_edges_sum _ _ 0 w ltac:(unfold two64; lia) Hw).
      unfold internal_weight. rewrite Hd, Hedges. reflexivity.
    + rewrite at_insert_ne by lia. rewrite (Hp j Hj).
      destruct (Z.ltb_spec j i), (Z.ltb_spec j (i + 1)); try lia; reflexivity.
  - split; [apply length_replicate|]. intros j Hj.
    destruct (Z.ltb_spec j 0); [lia|].
    apply at_Some. split; [lia|]. apply lookup_replicate_2. lia.
  - exists cwi. split; [assumption|]. intros n Hn.
    apply elem_of_seqZ in Hn. rewrite (Hpt n) by lia.
    destruct (Z.ltb_spec n (0 + Z.of_nat (length (edgeIndData g)))); [|lia].
    reflexivity.
Qed.

Lemma mod_loop_value (cwi : largeArray) (fe : Z -> Z) (l : list Z)
    (e a : double) :
  (forall n, n ∈ l -> at_ cwi n = Some (fe n) /\ in_range c_info n = true) ->
  do_all (mod_op c_info cwi) l (e, a)
  = Some (fold_left (fun acc n => dadd acc (of_int (fe n))) l e,
          fold_left (fun acc n =>
                       dadd acc
                         (let w := default 0 (Comm.degree_wt <$> at_ c_info n) in
                          of_int (wrap64 (w * w)))) l a).
Proof.
  revert e a. induction l as [|n l IH]; intros e a H; [reflexivity|].
  destruct (H n ltac:(left)) as [Hw Hr].
  destruct (at_is_Some _ _ Hr) as [c Hc].
  assert (Hstep : mod_op c_info cwi n (e, a)
                  = Some (dadd e (of_int (fe n)),
                          dadd a (of_int (wrap64 (Comm.degree_wt c
                                                  * Comm.degree_wt c))))).
  { unfold mod_op. rewrite Hw. cbn [mbind option_bind]. rewrite Hc.
    reflexivity. }
  cbn [do_all fold_left]. rewrite Hstep. cbn [mbind option_bind].
  rewrite IH by (intros m Hm; apply H; right; assumption).
  rewrite Hc. reflexivity.
Qed.

Lemma calModularity_value (constant : double) :
  calModularity g nodes c_info constant
  = Some (dsub (dmul (e_xx_of g nodes) constant)
               (dmul (dmul (a2_x_of g c_info) constant) constant)).
Proof.
  unfold calModularity.
  destruct internal_loop_value as (cwi & Hcwi & Hval).
  rewrite Hcwi. cbn [mbind option_bind].
  rewrite (mod_loop_value cwi (fun n => wrap64 (internal_weight g nodes n))).
  - reflexivity.
  - intros n Hn. split; [apply Hval; assumption|].
    unfold iterate, graph_size in Hn. apply elem_of_seqZ in Hn.
    apply in_range_spec. lia.
Qed.
End ModularityValue.

(** What [curr_mod] is: [e_xx * c - a2_x * c * c], where [e_xx] adds up,
    vertex by vertex, the weight of the edges whose two ends are in the same
    community, and [a2_x] the squares of the weights of all community
    records; each term is computed on 64-bit integers, the square included,
    and converted to [double] before it is added. *)
Theorem calModularity_spec (g : Graph) (nodes : NodeData) (c_info : CommArray)
    (constant : double) :
  wf_graph g = true ->
  length nodes = length (edgeIndData g) ->
  length c_info = length (edgeIndData g) ->
  calModularity g nodes c_info constant
  = Some (dsub (dmul (e_xx_of g nodes) constant)
               (dmul (dmul (a2_x_of g c_info) constant) constant)).
Proof. intros Hwf Hlen Hclen. apply calModularity_value; assumption. Qed.

Lemma calModularity_spec_witness :
  calModularity edge_and_isolated eai_nodes' eai_c_info' one_half
  = Some (dsub (dmul (e_xx_of edge_and_isolated eai_nodes') one_half)
               (dmul (dmul (a2_x_of edge_and_isolated eai_c_info') one_half)
                     one_half)).
Proof.
  apply calModularity_spec; [vm_compute; reflexivity|reflexivity|reflexivity].
Defined.

(** * The thread-safe priority queue *)

Section PQueue.
Context {T : Type}.
Variable lt : T -> T -> bool.

Lemma c_push_perm (x : T) (c : list T) : ts_pqueue.c_push lt x c ≡ₚ x :: c.
Proof.
  induction c as [|y c IH]; cbn [ts_pqueue.c_push]; [reflexivity|].
  destruct (lt y x); [reflexivity|]. rewrite IH. apply Permutation_swap.
Qed.

Lemma balanced_app (l l' : list ts_pqueue.LockCall) :
  ts_pqueue.balanced l = true ->
  ts_pqueue.balanced (l ++ l') = ts_pqueue.balanced l'.
Proof.
  remember (length l) as n eqn:Hn. revert l Hn.
  induction n as [n IH] using lt_wf_ind. intros l Hn H.
  destruct l as [|a l1]; [reflexivity|].
  destruct a; try discriminate; destruct l1 as [|b l2]; try discriminate;
    destruct b; try discriminate.
  - change (ts_pqueue.balanced (l2 ++ l') = ts_pqueue.balanced l').
    apply (IH (length l2)); [subst n; cbn [length]; lia|reflexivity|exact H].
  - destruct l2 as [|d l3]; [discriminate|]. destruct d; try discriminate.
    change (ts_pqueue.balanced (l3 ++ l') = ts_pqueue.balanced l').
    apply (IH (length l3)); [subst n; cbn [length]; lia|reflexivity|exact H].
  - change (ts_pqueue.balanced (l2 ++ l') = ts_pqueue.balanced l').
    apply (IH (length l2)); [subst n; cbn [length]; lia|reflexivity|exact H].
Qed.

Lemma step_balanced (o : ts_pqueue.Op T) (q : ts_pqueue.t T) :
  ts_pqueue.balanced (ts_pqueue.lock q) = true ->
  exists q', ts_pqueue.step lt o q = Some q' /\
             ts_pqueue.balanced (ts_pqueue.lock q') = true /\
             length (ts_pqueue.c q')
             = match o with
               | ts_pqueue.Push _ => S (length (ts_pqueue.c q))
               | ts_pqueue.Pop => pred (length (ts_pqueue.c q))
               | _ => length (ts_pqueue.c q)
               end.
Proof.
  intros Hb. destruct o; cbn [ts_pqueue.step].
  - eexists. split; [reflexivity|]. cbn [ts_pqueue.empty snd ts_pqueue.lock ts_pqueue.c].
    rewrite <- app_assoc, (balanced_app _ _ Hb). auto.
  - eexists. split; [reflexivity|]. cbn [ts_pqueue.size snd ts_pqueue.lock ts_pqueue.c].
    rewrite <- app_assoc, (balanced_app _ _ Hb). auto.
  - eexists. split; [reflexivity|]. cbn [ts_pqueue.push ts_pqueue.lock ts_pqueue.c].
    rewrite <- app_assoc, (balanced_app _ _ Hb). split; [reflexivity|].
    rewrite (c_push_perm x). reflexivity.
  - unfold ts_pqueue.pop. destruct (ts_pqueue.c q) as [|v c'] eqn:Hc;
      cbn [ts_pqueue.c_empty negb ts_pqueue.c_top ts_pqueue.c_pop head
           mbind option_bind snd].
    + eexists. split; [reflexivity|]. cbn [ts_pqueue.lock ts_pqueue.c].
      rewrite <- app_assoc, (balanced_app _ _ Hb). auto.
    + eexists. split; [reflexivity|]. cbn [ts_pqueue.lock ts_pqueue.c].
      rewrite <- !app_assoc, (balanced_app _ _ Hb). auto.
Qed.

Lemma run_balanced (ops : list (ts_pqueue.Op T)) (q : ts_pqueue.t T) :
  ts_pqueue.balanced (ts_pqueue.lock q) = true ->
  exists q', ts_pqueue.run lt ops q = Some q' /\
             ts_pqueue.balanced (ts_pqueue.lock q') = true.
Proof.
  revert q. induction ops as [|o ops IH]; intros q Hb; [eauto|].
  destruct (step_balanced o q Hb) as (q1 & Hs & Hb1 & _).
  cbn [ts_pqueue.run]. rewrite Hs. cbn [mbind option_bind]. apply IH. assumption.
Qed.

(** Whatever a caller asks of a [ts_pqueue], in whatever order, no request
    is undefined ([top] and [pop] of the container are only called when it
    is not empty) and every method returns with the lock released: the calls
    on the lock are a sequence of complete read sections, write sections and
    promoted read sections. *)
Theorem ts_pqueue_lock_discipline (ops : list (ts_pqueue.Op T)) :
  exists q, ts_pqueue.run lt ops ts_pqueue.new = Some q /\
            ts_pqueue.balanced (ts_pqueue.lock q) = true.
Proof. apply run_balanced. reflexivity. Qed.

Hypothesis lt_asym : forall x y, lt x y = true -> lt y x = false.
Hypothesis lt_trans :
  forall x y z, lt x y = true -> lt y z = true -> lt x z = true.

Lemma c_push_ordered (x : T) (c : list T) :
  ts_pqueue.ordered lt c -> ts_pqueue.ordered lt (ts_pqueue.c_push lt x c).
Proof.
  unfold ts_pqueue.ordered.
  induction c as [|y c IH]; intros Hs; cbn [ts_pqueue.c_push].
  - repeat constructor.
  - apply StronglySorted_inv in Hs as [Hs Hall].
    destruct (lt y x) eqn:Hyx.
    + constructor; [constructor; assumption|].
      constructor; [apply lt_asym; assumption|].
      eapply Forall_impl; [exact Hall|]. intros z Hz. cbv beta in *.
      destruct (lt x z) eqn:Hxz; [|reflexivity].
      rewrite (lt_trans y x z Hyx Hxz) in Hz. discriminate.
    + constructor; [apply IH; assumption|].
      rewrite (c_push_perm x c). constructor; assumption.
Qed.

Lemma step_ordered (o : ts_pqueue.Op T) (q q' : ts_pqueue.t T) :
  ts_pqueue.step lt o q = Some q' ->
  ts_pqueue.ordered lt (ts_pqueue.c q) -> ts_pqueue.ordered lt (ts_pqueue.c q').
Proof.
  destruct o; cbn [ts_pqueue.step]; intros H Hs.
  - injection H as <-. exact Hs.
  - injection H as <-. exact Hs.
  - injection H as <-. apply c_push_ordered. exact Hs.
  - unfold ts_pqueue.pop in H. destruct (ts_pqueue.c q) as [|v c'] eqn:Hc;
      cbn [ts_pqueue.c_empty negb ts_pqueue.c_top ts_pqueue.c_pop head
           mbind option_bind snd] in H; injection H as <-;
      cbn [ts_pqueue.c].
    + exact Hs.
    + unfold ts_pqueue.ordered in Hs.
      apply StronglySorted_inv in Hs as [Hs _]. exact Hs.
Qed.

Lemma run_ordered (ops : list (ts_pqueue.Op T)) (q q' : ts_pqueue.t T) :
  ts_pqueue.run lt ops q = Some q' ->
  ts_pqueue.ordered lt (ts_pqueue.c q) -> ts_pqueue.ordered lt (ts_pqueue.c q').
Proof.
  revert q. induction ops as [|o ops IH]; intros q H Hs.
  - injection H as <-. exact Hs.
  - cbn [ts_pqueue.run] in H.
    destruct (ts_pqueue.step lt o q) as [q1|] eqn:Hstep; [|discriminate].
    cbn [mbind option_bind] in H.
    apply (IH q1 H). exact (step_ordered o q q1 Hstep Hs).
Qed.

Lemma pop_greatest (ops : list (ts_pqueue.Op T)) (q : ts_pqueue.t T) :
  ts_pqueue.run lt ops ts_pqueue.new = Some q ->
  (forall x, ts_pqueue.c (ts_pqueue.push lt x q) ≡ₚ x :: ts_pqueue.c q) /\
  (ts_pqueue.empty q).1 = bool_decide ((ts_pqueue.size q).1 = 0) /\
  exists r q',
    ts_pqueue.pop q = Some (r, q') /\
    r.2 = negb (ts_pqueue.empty q).1 /\
    (ts_pqueue.size q').1 = (ts_pqueue.size q).1 - (if r.2 then 1 else 0) /\
    match r.1 with
    | None => r.2 = false /\ ts_pqueue.c q' = ts_pqueue.c q
    | Some v =>
        r.2 = true /\ ts_pqueue.c q = v :: ts_pqueue.c q' /\
        forall y, y ∈ ts_pqueue.c q' -> lt v y = false
    end.
Proof.
  intros Hrun.
  assert (Hs : ts_pqueue.ordered lt (ts_pqueue.c q)).
  { apply (run_ordered ops ts_pqueue.new q Hrun). constructor. }
  split; [intros x; apply c_push_perm|].
  unfold ts_pqueue.pop, ts_pqueue.empty, ts_pqueue.size, ts_pqueue.c_size.
  cbn [fst snd ts_pqueue.c].
  destruct (ts_pqueue.c q) as [|v c'] eqn:Hc;
    cbn [ts_pqueue.c_empty negb ts_pqueue.c_top ts_pqueue.c_pop head
         mbind option_bind length].
  - split; [reflexivity|]. eexists _, _. split; [reflexivity|].
    cbn [fst snd ts_pqueue.c length negb].
    split; [reflexivity|]. split; [lia|]. auto.
  - split; [reflexivity|]. eexists _, _. split; [reflexivity|].
    cbn [fst snd ts_pqueue.c length negb]. split; [reflexivity|]. split; [lia|].
    split; [reflexivity|]. split; [reflexivity|].
    unfold ts_pqueue.ordered in Hs. apply StronglySorted_inv in Hs as [_ Hall].
    rewrite Forall_forall in Hall. exact Hall.
Qed.
End PQueue.

(** A [ts_pqueue] is a priority queue.  With [operator<] a strict weak
    ordering (asymmetric, and with a transitive complement), in any state
    reached from the empty queue: [push] adds one element and keeps the
    others; [pop] on an empty queue sets [suc] to false, assigns no value and
    leaves the queue empty; on a non-empty queue it sets [suc] to true,
    removes one element and returns it, and no element left in the queue is
    greater.  [empty] and [size] agree with this. *)
Theorem ts_pqueue_pop_greatest {T : Type} (lt : T -> T -> bool)
    (ops : list (ts_pqueue.Op T)) (q : ts_pqueue.t T) :
  (forall x y, lt x y = true -> lt y x = false) ->
  (forall x y z, lt x y = false -> lt y z = false -> lt x z = false) ->
  ts_pqueue.run lt ops ts_pqueue.new = Some q ->
  (forall x, ts_pqueue.c (ts_pqueue.push lt x q) ≡ₚ x :: ts_pqueue.c q) /\
  (ts_pqueue.empty q).1 = bool_decide ((ts_pqueue.size q).1 = 0) /\
  exists r q',
    ts_pqueue.pop q = Some (r, q') /\
    r.2 = negb (ts_pqueue.empty q).1 /\
    (ts_pqueue.size q').1 = (ts_pqueue.size q).1 - (if r.2 then 1 else 0) /\
    match r.1 with
    | None => r.2 = false /\ ts_pqueue.c q' = ts_pqueue.c q
    | Some v =>
        r.2 = true /\ ts_pqueue.c q = v :: ts_pqueue.c q' /\
        forall y, y ∈ ts_pqueue.c q' -> lt v y = false
    end.
Proof.
  intros Hasym Hneg. apply pop_greatest; [exact Hasym|].
  intros x y z Hxy Hyz. destruct (lt x z) eqn:Hxz; [reflexivity|].
  destruct (lt z y) eqn:Hzy.
  - rewrite (Hasym z y Hzy) in Hyz. discriminate.
  - rewrite (Hneg x z y Hxz Hzy) in Hxy. discriminate.
Qed.

Lemma ts_pqueue_pop_greatest_witness :
  (forall x,
     ts_pqueue.c (ts_pqueue.push Z.ltb x (ts_pqueue.mk [5; 3; 3]
        [ts_pqueue.write_lock; ts_pqueue.write_unlock;
         ts_pqueue.write_lock; ts_pqueue.write_unlock;
         ts_pqueue.write_lock; ts_pqueue.write_unlock]))
     ≡ₚ x :: [5; 3; 3]) /\
  false = bool_decide (3 = 0) /\
  exists r q',
    ts_pqueue.pop (ts_pqueue.mk [5; 3; 3]
        [ts_pqueue.write_lock; ts_pqueue.write_unlock;
         ts_pqueue.write_lock; ts_pqueue.write_unlock;
         ts_pqueue.write_lock; ts_pqueue.write_unlock]) = Some (r, q') /\
    r.2 = negb false /\
    (ts_pqueue.size q').1 = 3 - (if r.2 then 1 else 0) /\
    match r.1 with
    | None => r.2 = false /\ ts_pqueue.c q' = [5; 3; 3]
    | Some v =>
        r.2 = true /\ [5; 3; 3] = v :: ts_pqueue.c q' /\
        forall y, y ∈ ts_pqueue.c q' -> (v <? y) = false
    end.
Proof.
  apply (ts_pqueue_pop_greatest Z.ltb
           [ts_pqueue.Push 3; ts_pqueue.Push 5; ts_pqueue.Push 3]).
  - intros x y H. apply Z.ltb_lt in H. apply Z.ltb_ge. lia.
  - intros x y z H1 H2. apply Z.ltb_ge in H1. apply Z.ltb_ge in H2.
    apply Z.ltb_ge. lia.
  - reflexivity.
Defined.

(** * What the engine reads of its input *)

Lemma engine_init_state (g : Graph) (nodes : NodeData) :
  wf_graph g = true ->
  length nodes = length (edgeIndData g) ->
  exists nodes1 nodes2 c_info2,
    do_all init_comm (iterate g) nodes = Some nodes1 /\
    sumVertexDegreeWeight g nodes1
      (replicate (length (edgeIndData g)) (Comm.mk 0 0)) = Some (nodes2, c_info2) /\
    length nodes2 = length (edgeIndData g) /\
    length c_info2 = length (edgeIndData g) /\
    forall j d, at_ nodes j = Some d ->
      at_ nodes2 j
      = Some (Node.mk j j (wrap64 (row_weight g j)) (Node.cluster_wt_internal d)) /\
      at_ c_info2 j = Some (Comm.mk 1 (wrap64 (row_weight g j))).
Proof.
  intros Hwf Hlen.
  destruct (init_comm_loop g nodes Hlen) as (nodes1 & Hinit & Hlen1 & _).
  pose proof Hinit as Hinit'. unfold iterate, graph_size in Hinit'.
  destruct (curr_loop_partial
              (fun n d => Node.set_prev_comm_ass (Node.set_curr_comm_ass d n) n)
              init_comm (fun _ _ => eq_refl) _ _ _ Hinit') as (_ & _ & Hp1).
  destruct (sum_op_loop g nodes1
              (replicate (length (edgeIndData g)) (Comm.mk 0 0)) Hwf Hlen1)
    as (nodes2 & c_info2 & Hsum & Hl2 & Hcl2 & Hpt); [apply length_replicate|].
  exists nodes1, nodes2, c_info2. split; [assumption|]. split; [assumption|].
  split; [congruence|]. split; [rewrite Hcl2; apply length_replicate|].
  intros j d Hd. pose proof (at_range _ _ _ Hd) as Hj.
  specialize (Hp1 j d Hd).
  destruct (Z.ltb_spec j (Z.of_nat (length (edgeIndData g)))); [|lia].
  destruct (Hpt j _ Hp1) as [H1 H2]. rewrite H1, H2. destruct d. auto.
Qed.

(** The engine reads nothing of the payloads it is given but the field
    [cluster_wt_internal], which it only carries along, and nothing of its
    argument [clusters]: two calls on the same graph return the same value,
    leave the same arrays and take the same number of turns, whatever the
    communities, previous communities and weights stored in the payloads
    before the call. *)
Theorem algoLouvainWithLocking_ignores_payloads (fuel : nat)
    (sched : Z -> list Z) (g : Graph) (nodes nodes' : NodeData)
    (clusters clusters' : largeArray) (lower threshold : double) :
  wf_graph g = true ->
  length nodes = length (edgeIndData g) ->
  Node.cluster_wt_internal <$> nodes = Node.cluster_wt_internal <$> nodes' ->
  algoLouvainWithLocking fuel sched g nodes clusters lower threshold
  = algoLouvainWithLocking fuel sched g nodes' clusters' lower threshold.
Proof.
  intros Hwf Hlen Hsame.
  assert (Hlen' : length nodes' = length (edgeIndData g)).
  { rewrite <- Hlen, <- (length_fmap Node.cluster_wt_internal nodes), Hsame.
    symmetry. apply length_fmap. }
  destruct (engine_init_state g nodes Hwf Hlen)
    as (n1 & n2 & c2 & Hi & Hs & Hl & Hcl & Hp).
  destruct (engine_init_state g nodes' Hwf Hlen')
    as (n1' & n2' & c2' & Hi' & Hs' & Hl' & Hcl' & Hp').
  assert (Hpair : forall j, in_range (edgeIndData g) j = true ->
            exists d d', at_ nodes j = Some d /\ at_ nodes' j = Some d' /\
                         Node.cluster_wt_internal d = Node.cluster_wt_internal d').
  { intros j Hj. apply in_range_spec in Hj.
    destruct (at_is_Some nodes j) as [d Hd]; [apply in_range_spec; lia|].
    destruct (at_is_Some nodes' j) as [d' Hd']; [apply in_range_spec; lia|].
    exists d, d'. split; [assumption|]. split; [assumption|].
    apply at_Some in Hd as [_ Hd]. apply at_Some in Hd' as [_ Hd'].
    pose proof (f_equal (fun l => l !! Z.to_nat j) Hsame) as Hlk.
    cbv beta in Hlk. rewrite !list_lookup_fmap, Hd, Hd' in Hlk.
    injection Hlk as Hlk. exact Hlk. }
  assert (Hout : forall {A} (a b : list A) j,
            length a = length (edgeIndData g) ->
            length b = length (edgeIndData g) ->
            in_range (edgeIndData g) j = false -> at_ a j = at_ b j).
  { intros A a b j Ha Hb Hj. unfold at_, in_range in *.
    rewrite Ha, Hb, Hj. reflexivity. }
  assert (Hn : n2 = n2').
  { apply at_ext; [congruence|]. intros j.
    destruct (in_range (edgeIndData g) j) eqn:Hj; [|apply Hout; assumption].
    destruct (Hpair j Hj) as (d & d' & Hd & Hd' & Hw).
    destruct (Hp j d Hd) as [-> _]. destruct (Hp' j d' Hd') as [-> _].
    rewrite Hw. reflexivity. }
  assert (Hc : c2 = c2').
  { apply at_ext; [congruence|]. intros j.
    destruct (in_range (edgeIndData g) j) eqn:Hj; [|apply Hout; assumption].
    destruct (Hpair j Hj) as (d & d' & Hd & Hd' & _).
    destruct (Hp j d Hd) as [_ ->]. destruct (Hp' j d' Hd') as [_ ->].
    reflexivity. }
  unfold algoLouvainWithLocking. rewrite Hi, Hi'. cbn [defined].
  rewrite Hs, Hs'. cbn [defined fst snd]. subst n2' c2'. reflexivity.
Qed.

Lemma algoLouvainWithLocking_ignores_payloads_witness :
  algoLouvainWithLocking 5 (in_order edge_and_99_isolated) edge_and_99_isolated
    (blank_nodes 101) [] (of_int (-1)) one_eighth
  = algoLouvainWithLocking 5 (in_order edge_and_99_isolated)
      edge_and_99_isolated (replicate 101 (Node.mk 7 INF_VAL 9 0)) [4; 4; 4]
      (of_int (-1)) one_eighth.
Proof.
  apply algoLouvainWithLocking_ignores_payloads;
    [vm_compute; reflexivity|reflexivity|reflexivity].
Defined.

(** * The multi-phase driver *)

Section DriverFacts.
Context {W : Type}.
Variable algo : Graph -> NodeData -> largeArray -> double -> double ->
                W -> result LouvainRun * W.

(** Whatever the bound on its turns, the loop of the driver is left in its
    first turn. *)
Lemma driver_single_turn (turns : nat) (g : Graph) (nodes : NodeData)
    (clusters_orig : largeArray) (min_graph_size : Z) (c_threshold : double)
    (w : W) :
  runMultiPhaseLouvainAlgorithm_with algo (S turns) g nodes clusters_orig
    min_graph_size c_threshold w
  = if min_graph_size <? graph_size g then
      let call := algo g nodes (replicate (length (edgeIndData g)) INF_VAL)
                       (of_int (-1)) c_threshold w in
      (match call.1 with Returned _ => Break | _ => Halt end,
       {| d_prev_mod := of_int (-1);
          d_curr_mod := match call.1 with
                        | Returned ret => run_mod ret
                        | _ => of_int (-1)
                        end;
          d_phase := 1;
          d_run := {| events := [StartPhase 1;
                                 CallEngine (of_int (-1)) c_threshold];
                      engine_result := Some call.1 |};
          d_world := call.2 |})
    else
      (Break,
       {| d_prev_mod := of_int (-1); d_curr_mod := of_int (-1); d_phase := 1;
          d_run := {| events := [StartPhase 1]; engine_result := None |};
          d_world := w |}).
Proof.
  unfold runMultiPhaseLouvainAlgorithm_with. cbn [driver_loop].
  unfold driver_turn, call_engine, log.
  cbn [d_prev_mod d_curr_mod d_phase d_run d_world events engine_result app].
  destruct (min_graph_size <? graph_size g); [|reflexivity].
  destruct (algo g nodes (replicate (length (edgeIndData g)) INF_VAL)
              (of_int (-1)) c_threshold w) as [r w'].
  destruct r; reflexivity.
Qed.
End DriverFacts.

Lemma main_driver (fuel : nat) (sched : Z -> list Z) (g : Graph)
    (nodes : NodeData) (enable_VF : bool) (clusters : largeArray)
    (c_threshold : double) (r : DriverRun) :
  main fuel sched g nodes enable_VF clusters c_threshold = Some r ->
  exists nodes2,
    r = if 100 <? graph_size g
        then {| events := [StartPhase 1; CallEngine (of_int (-1)) c_threshold];
                engine_result :=
                  Some (algoLouvainWithLocking fuel sched g nodes2
                          (replicate (length (edgeIndData g)) INF_VAL)
                          (of_int (-1)) c_threshold) |}
        else {| events := [StartPhase 1]; engine_result := None |}.
Proof.
  unfold main. intros H.
  destruct (if enable_VF then _ else _) as [nodes1|]; [|discriminate].
  cbn [mbind option_bind] in H.
  destruct (do_all reset_comm (iterate g) nodes1) as [nodes2|]; [|discriminate].
  cbn [mbind option_bind] in H. injection H as <-. exists nodes2.
  unfold runMultiPhaseLouvainAlgorithm. rewrite driver_single_turn.
  unfold main_min_graph_size. destruct (100 <? graph_size g); reflexivity.
Qed.

(** C8.  Whatever the engine does and whatever bound is put on the turns of
    the driver's loop, the loop is left in its first turn, with [phase]
    still 1 and one phase started.  When the number of vertices is strictly
    above [min_graph_size] the engine is called once, on the driver's graph,
    with [lower = -1] and the given threshold: the result kept and the state
    of the world are those of that one call, and an engine that counts its
    calls counts one more.  Otherwise the engine is not called: there is no
    result, the world is untouched and the count unchanged.  [main] passes
    100: a run of [main] that gets to the driver starts one phase and calls
    the engine once if the graph has more than 100 vertices, and not at all
    if it has 100 or fewer. *)
Theorem runMultiPhase_single_phase {W : Type}
    (algo : Graph -> NodeData -> largeArray -> double -> double ->
            W -> result LouvainRun * W)
    (pure : Graph -> NodeData -> largeArray -> double -> double ->
            result LouvainRun)
    (turns : nat) (g : Graph) (nodes : NodeData) (clusters_orig : largeArray)
    (min_graph_size : Z) (c_threshold : double) (w : W) (calls : nat)
    (fuel : nat) (sched : Z -> list Z) (enable_VF : bool)
    (clusters : largeArray) (r : DriverRun) :
  let out := runMultiPhaseLouvainAlgorithm_with algo (S turns) g nodes
               clusters_orig min_graph_size c_threshold w in
  let call := algo g nodes (replicate (length (edgeIndData g)) INF_VAL)
                   (of_int (-1)) c_threshold w in
  let counted := runMultiPhaseLouvainAlgorithm_with (counting pure) (S turns)
                   g nodes clusters_orig min_graph_size c_threshold calls in
  out.1 <> Continue /\
  d_phase out.2 = 1 /\
  phases_started (d_run out.2) = 1%nat /\
  (if min_graph_size <? graph_size g
   then events (d_run out.2)
        = [StartPhase 1; CallEngine (of_int (-1)) c_threshold] /\
        engine_calls (d_run out.2) = 1%nat /\
        engine_result (d_run out.2) = Some call.1 /\
        d_world out.2 = call.2 /\
        d_world counted.2 = S calls
   else events (d_run out.2) = [StartPhase 1] /\
        engine_calls (d_run out.2) = 0%nat /\
        engine_result (d_run out.2) = None /\
        d_world out.2 = w /\
        d_world counted.2 = calls) /\
  (main fuel sched g nodes enable_VF clusters c_threshold = Some r ->
   phases_started r = 1%nat /\
   engine_calls r = (if 100 <? graph_size g then 1%nat else 0%nat) /\
   (if 100 <? graph_size g
    then exists nodes2,
           engine_result r
           = Some (algoLouvainWithLocking fuel sched g nodes2
                     (replicate (length (edgeIndData g)) INF_VAL)
                     (of_int (-1)) c_threshold)
    else engine_result r = None)).
Proof.
  cbv zeta. rewrite !driver_single_turn. split; [|split; [|split; [|split]]].
  - destruct (min_graph_size <? graph_size g); [|discriminate].
    cbn [fst]. destruct (algo _ _ _ _ _ _).1; discriminate.
  - destruct (min_graph_size <? graph_size g); reflexivity.
  - destruct (min_graph_size <? graph_size g); reflexivity.
  - destruct (min_graph_size <? graph_size g); cbn [snd d_run d_world events
      engine_result fst counting]; auto 10.
  - intros Hmain.
    destruct (main_driver _ _ _ _ _ _ _ _ Hmain) as [nodes2 ->].
    destruct (100 <? graph_size g);
      cbn [events engine_result]; eauto.
Qed.

Lemma runMultiPhase_single_phase_witness :
  let out := runMultiPhaseLouvainAlgorithm_with
               (counting (algoLouvainWithLocking 5 (in_order edge_and_99_isolated)))
               3 edge_and_99_isolated (blank_nodes 101) [] 100 one_eighth 0%nat in
  out.1 = Break /\
  d_world out.2 = 1%nat /\
  engine_result (d_run out.2)
  = Some (Returned (Build_LouvainRun dzero 2 e99_nodes' e99_c_info')) /\
  let r := {| events := [StartPhase 1; CallEngine (of_int (-1)) one_eighth];
              engine_result :=
                Some (Returned (Build_LouvainRun dzero 2 e99_nodes' e99_c_info')) |} in
  phases_started r = 1%nat /\ engine_calls r = 1%nat /\
  exists nodes2,
    engine_result r
    = Some (algoLouvainWithLocking 5 (in_order edge_and_99_isolated)
              edge_and_99_isolated nodes2 (replicate 101 INF_VAL)
              (of_int (-1)) one_eighth).
Proof.
  pose proof (runMultiPhase_single_phase
                (counting (algoLouvainWithLocking 5 (in_order edge_and_99_isolated)))
                (algoLouvainWithLocking 5 (in_order edge_and_99_isolated))
                2 edge_and_99_isolated (blank_nodes 101) [] 100 one_eighth
                0%nat 0%nat 5 (in_order edge_and_99_isolated) false []
                {| events := [StartPhase 1; CallEngine (of_int (-1)) one_eighth];
                   engine_result :=
                     Some (Returned
                             (Build_LouvainRun dzero 2 e99_nodes' e99_c_info')) |})
    as (_ & _ & _ & Hcall & Hmain).
  cbv zeta. split; [vm_compute; reflexivity|].
  change (100 <? graph_size edge_and_99_isolated) with true in Hcall, Hmain.
  destruct Hcall as (_ & _ & Hres & Hworld & _).
  split; [rewrite Hworld; reflexivity|].
  split; [rewrite Hres; vm_compute; reflexivity|].
  apply Hmain. vm_compute. reflexivity.
Defined.

(** * Graphs without edges *)



Section Edgeless.
Variable n : nat.
Hypothesis Hn : Z.of_nat n < minus_one.









End Edgeless.



(** * The range overload of pushi *)

Section PushiRange.
Context {T InitWl RunningWl : Type}.
Context `{!WorkList T InitWl, !WorkList T RunningWl}.
Variable T0 : T.
Variable chunksize : nat.
Hypothesis Hcs : (0 < chunksize)%nat.

Let adaptor : Type := ChunkedAdaptor.t T (InitialQueue.t InitWl RunningWl).

(** The loop of [pushi(b, e)] cuts the range into chunks and hands each of
    them, once filled, to [worklist.pushi]. *)
Lemma pushi_range_chunks (fuel : nat) (b : list T) (s : adaptor) :
  (length b <= fuel)%nat ->
  exists (s' : adaptor) (chunks : list (Chunk.t T)),
    ChunkedAdaptor.pushi_range T0 chunksize fuel b s = Some s' /\
    ChunkedAdaptor.data s' = ChunkedAdaptor.data s /\
    ChunkedAdaptor.worklist s'
    = fold_left (fun wl c => InitialQueue.pushi c wl) chunks
                (ChunkedAdaptor.worklist s) /\
    concat ((fun c => reverse (Chunk.items c)) <$> chunks) = b /\
    Forall (fun c => Chunk.wf chunksize c /\ Chunk.items c <> [] /\
                     Chunk.next c = None) chunks.
Proof.
  revert b s. induction fuel as [|fuel IH]; intros b s Hlen.
  - destruct b; [|cbn in Hlen; lia]. exists s, []. cbn. auto.
  - destruct b as [|x b]; [exists s, []; cbn; auto|].
    cbn [ChunkedAdaptor.pushi_range].
    destruct (Chunk_push_range_spec chunksize (x :: b)
                (ChunkedAdaptor.mkChunk T0 chunksize) (Chunk_new_wf T0 chunksize))
      as (n' & Hpr & Hwf' & Hitems & _ & Hnext). cbv zeta in *.
    set (k := Nat.min (length (x :: b))
                (chunksize - Chunk.num (ChunkedAdaptor.mkChunk T0 chunksize))) in *.
    assert (Hk : (1 <= k)%nat).
    { unfold k. cbn [length Chunk.num ChunkedAdaptor.mkChunk Chunk.new]. lia. }
    rewrite Hpr.
    destruct (IH (drop k (x :: b))
                (ChunkedAdaptor.mk (ChunkedAdaptor.data s)
                   (wl_pushi n' (ChunkedAdaptor.worklist s))))
      as (s' & chunks & Hr & Hd & Hw & Hcat & Hall).
    { rewrite length_drop. cbn [length] in *. lia. }
    exists s', (n' :: chunks). split; [exact Hr|]. split; [exact Hd|].
    split; [exact Hw|]. split.
    + cbn [fmap list_fmap concat]. rewrite Hcat, Hitems.
      change (Chunk.items (ChunkedAdaptor.mkChunk T0 chunksize)) with (@nil T).
      rewrite app_nil_r, reverse_involutive. apply take_drop.
    + constructor; [|exact Hall]. split; [exact Hwf'|]. split.
      * rewrite Hitems. destruct k as [|k']; [lia|].
        cbn [take reverse]. rewrite reverse_cons.
        intros Hnil. apply app_eq_nil in Hnil as [Hnil _].
        apply app_eq_nil in Hnil as [_ Hnil]. discriminate.
      * rewrite Hnext. reflexivity.
Qed.

Lemma fold_pushi (chunks : list (Chunk.t T))
    (wl : InitialQueue.t InitWl RunningWl) :
  InitialQueue.local (fold_left (fun wl c => InitialQueue.pushi c wl) chunks wl)
  = InitialQueue.local wl /\
  InitialQueue.global (fold_left (fun wl c => InitialQueue.pushi c wl) chunks wl)
  = fold_left (fun gl c => wl_pushi c gl) chunks (InitialQueue.global wl).
Proof.
  revert wl. induction chunks as [|c chunks IH]; intros wl; [auto|].
  cbn [fold_left]. destruct (IH (InitialQueue.pushi c wl)) as [H1 H2].
  rewrite H1, H2. auto.
Qed.
End PushiRange.

(** C9 (as amended).  Over an [InitialQueue], with chunks of at least one
    cell.  A single-value [pushi(val)] does what [push(val)] does: it returns
    [true], leaves [val] as the top item of the worker's current chunk and
    leaves the initial queue as it was ([worklist.pushi] is not called).
    The range overload ends, leaves the worker's current chunk and the
    running queue as they were, and publishes on the initial-queue path: it
    cuts the range, in order, into chunks that are not empty and hands each
    of them to [worklist.pushi], that is to [pushi] of the initial queue,
    and nothing else. *)
Theorem pushi_single_stores_locally {T InitWl RunningWl : Type}
    `{!WorkList T InitWl, !WorkList T RunningWl} (T0 : T) (chunksize : nat)
    (val : T) (b : list T)
    (s : ChunkedAdaptor.t T (InitialQueue.t InitWl RunningWl)) :
  (0 < chunksize)%nat ->
  (forall n, ChunkedAdaptor.data s = Some n -> Chunk.wf chunksize n) ->
  (exists n' rest s',
     ChunkedAdaptor.pushi T0 chunksize val s = (true, s') /\
     ChunkedAdaptor.pushi T0 chunksize val s
     = ChunkedAdaptor.push T0 chunksize val s /\
     ChunkedAdaptor.data s' = Some n' /\
     Chunk.items n' = val :: rest /\
     InitialQueue.global (ChunkedAdaptor.worklist s')
     = InitialQueue.global (ChunkedAdaptor.worklist s)) /\
  (exists s' chunks,
     ChunkedAdaptor.pushi_range T0 chunksize (length b) b s = Some s' /\
     ChunkedAdaptor.data s' = ChunkedAdaptor.data s /\
     InitialQueue.local (ChunkedAdaptor.worklist s')
     = InitialQueue.local (ChunkedAdaptor.worklist s) /\
     ChunkedAdaptor.worklist s'
     = fold_left (fun wl c => wl_pushi c wl) chunks (ChunkedAdaptor.worklist s) /\
     InitialQueue.global (ChunkedAdaptor.worklist s')
     = fold_left (fun gl c => wl_pushi c gl) chunks
                 (InitialQueue.global (ChunkedAdaptor.worklist s)) /\
     concat ((fun c => reverse (Chunk.items c)) <$> chunks) = b /\
     Forall (fun c => Chunk.wf chunksize c /\ Chunk.items c <> [] /\
                      Chunk.next c = None) chunks).
Proof.
  intros Hcs Hwf. split.
  - destruct (push_cases T0 chunksize val s Hcs Hwf) as (n' & wl' & Hpush & _ & Hcase).
    unfold ChunkedAdaptor.pushi. rewrite Hpush.
    destruct (ChunkedAdaptor.data s) as [n|].
    + destruct (decide (Chunk.num n < chunksize)%nat).
      * destruct Hcase as [Hitems ->]. exists n', (Chunk.items n). eexists.
        repeat split; eauto.
      * destruct Hcase as [Hitems ->]. exists n', []. eexists.
        repeat split; eauto.
    + destruct Hcase as [Hitems ->]. exists n', []. eexists.
      repeat split; eauto.
  - destruct (pushi_range_chunks T0 chunksize Hcs (length b) b s (le_n _))
      as (s' & chunks & Hr & Hd & Hw & Hcat & Hall).
    destruct (fold_pushi chunks (ChunkedAdaptor.worklist s)) as [Hl Hg].
    exists s', chunks. split; [exact Hr|]. split; [exact Hd|].
    split; [rewrite Hw; exact Hl|]. split; [exact Hw|].
    split; [rewrite Hw; exact Hg|]. auto.
Qed.

Lemma pushi_single_stores_locally_witness :
  (exists n' rest s',
     ChunkedAdaptor.pushi 0 2 7 iq_adaptor = (true, s') /\
     ChunkedAdaptor.pushi 0 2 7 iq_adaptor = ChunkedAdaptor.push 0 2 7 iq_adaptor /\
     ChunkedAdaptor.data s' = Some n' /\
     Chunk.items n' = 7 :: rest /\
     InitialQueue.global (ChunkedAdaptor.worklist s')
     = InitialQueue.global (ChunkedAdaptor.worklist iq_adaptor)) /\
  (exists s' chunks,
     ChunkedAdaptor.pushi_range 0 2 (length [1; 2; 3]) [1; 2; 3] iq_adaptor
     = Some s' /\
     ChunkedAdaptor.data s' = ChunkedAdaptor.data iq_adaptor /\
     InitialQueue.local (ChunkedAdaptor.worklist s')
     = InitialQueue.local (ChunkedAdaptor.worklist iq_adaptor) /\
     ChunkedAdaptor.worklist s'
     = fold_left (fun wl c => wl_pushi c wl) chunks
                 (ChunkedAdaptor.worklist iq_adaptor) /\
     InitialQueue.global (ChunkedAdaptor.worklist s')
     = fold_left (fun gl c => wl_pushi c gl) chunks
                 (InitialQueue.global (ChunkedAdaptor.worklist iq_adaptor)) /\
     concat ((fun c => reverse (Chunk.items c)) <$> chunks) = [1; 2; 3] /\
     Forall (fun c => Chunk.wf 2 c /\ Chunk.items c <> [] /\
                      Chunk.next c = None) chunks).
Proof.
  apply (pushi_single_stores_locally 0 2 7 [1; 2; 3] iq_adaptor).
  - lia.
  - intros n Hn. discriminate Hn.
Defined.

(** * What vertexFollowing leaves behind *)

(** When [vertexFollowing] returns.  The array of payloads keeps its length;
    the payload of every vertex of the graph has that vertex as its current
    community and its other fields as they were, and the payloads outside
    the graph are as they were.  [clusters] keeps its length, holds -1 at
    every isolated vertex and is unchanged at every vertex of degree 2 or
    more and outside the graph.  The count is at most the number of
    vertices. *)
Theorem vertexFollowing_frame (g : Graph) (nodes nodes' : NodeData)
    (clusters clusters' : largeArray) (count : Z) :
  vertexFollowing g nodes clusters = Some (nodes', clusters', count) ->
  length nodes' = length nodes /\
  graph_size g <= Z.of_nat (length nodes) /\
  (forall j d, at_ nodes j = Some d ->
     at_ nodes' j
     = Some (if in_range (edgeIndData g) j then Node.set_curr_comm_ass d j
             else d)) /\
  length clusters' = length clusters /\
  0 <= count <= graph_size g /\
  (forall j, in_range (edgeIndData g) j = true -> distance g j = Some 0 ->
             at_ clusters' j = Some minus_one) /\
  (forall j k, distance g j = Some k -> 2 <= k ->
               at_ clusters' j = at_ clusters j) /\
  (forall j, in_range (edgeIndData g) j = false ->
             at_ clusters' j = at_ clusters j).
Proof.
  intros H.
  destruct (vertexFollowing_clusters g nodes nodes' clusters clusters' count H)
    as (Hcl & Hcount & _ & Hiso & Hbig & Hout).
  unfold vertexFollowing in H.
  destruct (do_all init_curr (iterate g) nodes) as [nodes1|] eqn:Hinit;
    [|discriminate].
  cbn [mbind option_bind] in H.
  destruct (do_all (vf_op g nodes1) (iterate g) (clusters, 0))
    as [[cl cnt]|]; [|discriminate].
  cbn [mbind option_bind] in H. injection H as <- _ _.
  unfold iterate, graph_size in Hinit.
  destruct (curr_loop_partial (fun n d => Node.set_curr_comm_ass d n) init_curr
              (fun _ _ => eq_refl) _ _ _ Hinit) as (Hl & Hle & Hp).
  split; [assumption|]. split; [unfold graph_size; lia|]. split.
  - intros j d Hd. rewrite (Hp j d Hd).
    pose proof (at_range _ _ _ Hd) as Hj. unfold in_range.
    destruct (Z.leb_spec 0 j); [|lia]. cbn [andb]. reflexivity.
  - auto 10.
Qed.

Lemma vertexFollowing_frame_witness :
  length [Node.mk 0 0 0 0; Node.mk 0 1 0 0; Node.mk 0 2 0 0; Node.mk 0 3 0 0]
  = length (blank_nodes 4) /\
  graph_size followed_and_isolated <= Z.of_nat (length (blank_nodes 4)) /\
  (forall j d, at_ (blank_nodes 4) j = Some d ->
     at_ [Node.mk 0 0 0 0; Node.mk 0 1 0 0; Node.mk 0 2 0 0; Node.mk 0 3 0 0] j
     = Some (if in_range (edgeIndData followed_and_isolated) j
             then Node.set_curr_comm_ass d j else d)) /\
  length [7; 0; 7; minus_one] = length [7; 7; 7; 7] /\
  0 <= 2 <= graph_size followed_and_isolated /\
  (forall j, in_range (edgeIndData followed_and_isolated) j = true ->
             distance followed_and_isolated j = Some 0 ->
             at_ [7; 0; 7; minus_one] j = Some minus_one) /\
  (forall j k, distance followed_and_isolated j = Some k -> 2 <= k ->
               at_ [7; 0; 7; minus_one] j = at_ [7; 7; 7; 7] j) /\
  (forall j, in_range (edgeIndData followed_and_isolated) j = false ->
             at_ [7; 0; 7; minus_one] j = at_ [7; 7; 7; 7] j).
Proof.
  apply (vertexFollowing_frame followed_and_isolated (blank_nodes 4)
           [Node.mk 0 0 0 0; Node.mk 0 1 0 0; Node.mk 0 2 0 0; Node.mk 0 3 0 0]
           [7; 7; 7; 7] [7; 0; 7; minus_one] 2).
  reflexivity.
Defined.
